(** * Outbound traffic dashboard (out.js): aggregation, enrichment, quota, sort

    A shallow embedding of the engine of [out.js] and the properties of it
    that the specification states.  JavaScript values are modelled as follows.

    - A string is a [string] whose characters are read as UTF-16 code units
      below 256 (Latin-1), so [trim] and [toLowerCase] treat code unit 160
      and the letters 192..222 the way JavaScript does.
    - A [Date] is its time value in milliseconds, a [Z].  [parseTimestamp]
      never returns an invalid date, so no record holds [NaN].
    - A number that only ever holds an integer (frequency, daily count, the
      comparator's result) is a [Z].
    - [null]/[undefined] are [None]; the truthiness of a string is
      non-emptiness. *)

From Stdlib Require Import ZArith Ascii String List Bool Lia Permutation Sorted.
From Stdlib Require DecimalString DecimalPos.
From stdpp Require Import base option list gmap strings.

Open Scope Z_scope.

(** ** JavaScript strings *)

Module JsString.

(** [!s] is false, that is, [s] is a non-empty string. *)
Definition truthy (s : string) : bool :=
  match s with EmptyString => false | String _ _ => true end.

(** WhiteSpace and LineTerminator code units below 256. *)
Definition isWhiteSpace (c : ascii) : bool :=
  let n := N_of_ascii c in
  ((9 <=? n) && (n <=? 13) || (n =? 32) || (n =? 160))%N.

Fixpoint trimStart (s : string) : string :=
  match s with
  | EmptyString => EmptyString
  | String c s' => if isWhiteSpace c then trimStart s' else s
  end.

Fixpoint trimEnd (s : string) : string :=
  match s with
  | EmptyString => EmptyString
  | String c s' =>
      match trimEnd s' with
      | EmptyString => if isWhiteSpace c then EmptyString else String c EmptyString
      | t => String c t
      end
  end.

(** [String.prototype.trim]. *)
Definition trim (s : string) : string := trimEnd (trimStart s).

(** [s.split(sep)] for a one-character separator: never the empty list,
    the empty string gives one empty field. *)
Fixpoint split (sep : ascii) (s : string) : list string :=
  match s with
  | EmptyString => [EmptyString]
  | String c s' =>
      if Ascii.eqb c sep then EmptyString :: split sep s'
      else match split sep s' with
           | h :: t => String c h :: t
           | [] => [String c EmptyString]
           end
  end.

(** [fields.join(sep)]. *)
Fixpoint join (sep : ascii) (fields : list string) : string :=
  match fields with
  | [] => EmptyString
  | [f] => f
  | f :: rest => f +:+ String sep (join sep rest)
  end.

Fixpoint contains (c : ascii) (s : string) : bool :=
  match s with
  | EmptyString => false
  | String d s' => Ascii.eqb d c || contains c s'
  end.

Definition lowerChar (c : ascii) : ascii :=
  let n := N_of_ascii c in
  if ((65 <=? n) && (n <=? 90)
      || (192 <=? n) && (n <=? 222) && negb (n =? 215))%N
  then ascii_of_N (n + 32) else c.

(** [String.prototype.toLowerCase] on code units below 256. *)
Fixpoint toLowerCase (s : string) : string :=
  match s with
  | EmptyString => EmptyString
  | String c s' => String (lowerChar c) (toLowerCase s')
  end.

(** [a[i]] on an array of strings, [undefined || ""] being [""]. *)
Definition field (i : nat) (parts : list string) : string :=
  nth i parts EmptyString.

(** The value of a decimal digit. *)
Definition digit (c : ascii) : option N :=
  let n := N_of_ascii c in
  if ((48 <=? n) && (n <=? 57))%N then Some (n - 48)%N else None.

Definition pipe : ascii := "|"%char.
Definition newline : ascii := "010"%char.

End JsString.

Import JsString.

(** ** Data model *)

(** The [type] of a log line; the parser keeps no other value. *)
Inductive LogType := DNS | HTTPS | HTTP | PING.

Global Instance LogType_eq_dec : EqDecision LogType.
Proof. solve_decision. Defined.

(** A raw log object pushed by [parseShellOutput]. *)
Record LogEvent := mkLog {
  log_type : LogType;
  log_timestamp : Z;
  log_url : string;
  log_address : string
}.

(** A traffic record: the "lambda" object of [processLogs]. *)
Record TrafficRecord := mkRecord {
  url : string;
  address : string;
  firstTimestamp : Z;
  lastTimestamp : Z;
  frequency : Z;
  category : string;
  data : string;
  type : LogType
}.

Global Instance LogEvent_eq_dec : EqDecision LogEvent.
Proof. solve_decision. Defined.

Global Instance TrafficRecord_eq_dec : EqDecision TrafficRecord.
Proof. solve_decision. Defined.

Definition set_url (v : string) (r : TrafficRecord) : TrafficRecord :=
  mkRecord v (address r) (firstTimestamp r) (lastTimestamp r) (frequency r)
           (category r) (data r) (type r).
Definition set_address (v : string) (r : TrafficRecord) : TrafficRecord :=
  mkRecord (url r) v (firstTimestamp r) (lastTimestamp r) (frequency r)
           (category r) (data r) (type r).
Definition set_firstTimestamp (v : Z) (r : TrafficRecord) : TrafficRecord :=
  mkRecord (url r) (address r) v (lastTimestamp r) (frequency r)
           (category r) (data r) (type r).
Definition set_lastTimestamp (v : Z) (r : TrafficRecord) : TrafficRecord :=
  mkRecord (url r) (address r) (firstTimestamp r) v (frequency r)
           (category r) (data r) (type r).
Definition set_frequency (v : Z) (r : TrafficRecord) : TrafficRecord :=
  mkRecord (url r) (address r) (firstTimestamp r) (lastTimestamp r) v
           (category r) (data r) (type r).
Definition set_category (v : string) (r : TrafficRecord) : TrafficRecord :=
  mkRecord (url r) (address r) (firstTimestamp r) (lastTimestamp r)
           (frequency r) v (data r) (type r).
Definition set_data (v : string) (r : TrafficRecord) : TrafficRecord :=
  mkRecord (url r) (address r) (firstTimestamp r) (lastTimestamp r)
           (frequency r) (category r) v (type r).

(** [a || b] on strings. *)
Definition orElse (a b : string) : string := if truthy a then a else b.

(** ** Parsing *)

Section Parsing.

(** The host clock and date parser: [new Date().getFullYear()] printed as
    text, and [new Date(text).getTime()] with [None] for [NaN]. *)
Variable currentYear : string.
Variable dateParse : string -> option Z.

Definition parseTimestamp (timestampStr : string) : Z :=
  if negb (truthy timestampStr) || negb (truthy (trim timestampStr)) then 0
  else
    let dateStr := trim timestampStr +:+ " " +:+ currentYear in
    match dateParse dateStr with
    | None => 0
    | Some t => t
    end.

(** The body of the loop of [parseShellOutput] for one element of [lines]:
    the log object it pushes, if any. *)
Definition parseLine (raw : string) : option LogEvent :=
  let line := trim raw in
  if negb (truthy line) then None
  else
    let parts := split pipe line in
    if (length parts <? 3)%nat then None
    else
      let type := field 0 parts in
      let timestamp := parseTimestamp (field 1 parts) in
      if String.eqb type "DNS" then
        Some (mkLog DNS timestamp (orElse (field 2 parts) "") "")
      else if String.eqb type "HTTPS" then
        Some (mkLog HTTPS timestamp "" (orElse (field 2 parts) ""))
      else if String.eqb type "HTTP" then
        Some (mkLog HTTP timestamp "" (orElse (field 2 parts) ""))
      else if String.eqb type "PING" then
        Some (mkLog PING timestamp "" (orElse (field 2 parts) ""))
      else None.

Definition parseShellOutput (output : string) : list LogEvent :=
  if negb (truthy output) || negb (truthy (trim output)) then []
  else omap parseLine (split newline (trim output)).

End Parsing.

(** ** Aggregation *)

(** A statement sequence either completes or throws a [TypeError]. *)
Inductive completion (A : Type) :=
  | Normal (a : A)
  | TypeError.
Arguments Normal {A} a.
Arguments TypeError {A}.

Definition bind {A B} (c : completion A) (k : A -> completion B) : completion B :=
  match c with
  | Normal a => k a
  | TypeError => TypeError
  end.

(** [recordMap = {}]: an ordinary object literal used as a dictionary.  Its
    own properties are kept in insertion order.  Two property names do not
    behave like dictionary keys, because the object inherits from
    [Object.prototype]:
    - assigning to [__proto__] runs the inherited setter, which installs the
      assigned object as prototype and creates no own property;
    - [recordMap.hasOwnProperty] is itself looked up on the object, so an own
      property of that name shadows the inherited method, and calling the
      record stored there throws a [TypeError]. *)
Module JsObject.

Definition t (V : Type) := list (string * V).

Definition isOwn {V} (k : string) (o : t V) : bool :=
  existsb (fun kv => String.eqb (fst kv) k) o.

(** [o.hasOwnProperty(k)]. *)
Definition hasOwnProperty {V} (o : t V) (k : string) : completion bool :=
  if isOwn "hasOwnProperty" o then TypeError else Normal (isOwn k o).

(** [o[k] = v]. *)
Fixpoint replace {V} (k : string) (v : V) (o : t V) : t V :=
  match o with
  | [] => []
  | (k', v') :: o' =>
      if String.eqb k' k then (k', v) :: o' else (k', v') :: replace k v o'
  end.

Definition set {V} (k : string) (v : V) (o : t V) : t V :=
  if String.eqb k "__proto__" then o
  else if isOwn k o then replace k v o
  else o ++ [(k, v)].

(** In-place mutation of the object stored under an own property. *)
Fixpoint update {V} (k : string) (f : V -> V) (o : t V) : t V :=
  match o with
  | [] => []
  | (k', v) :: o' =>
      if String.eqb k' k then (k', f v) :: o' else (k', v) :: update k f o'
  end.

(** A canonical array index: a decimal numeral without a leading zero
    whose value is below 2^32 - 1. *)
Fixpoint digits (acc : N) (s : string) : option N :=
  match s with
  | EmptyString => Some acc
  | String c s' =>
      match digit c with
      | Some d => digits (10 * acc + d)%N s'
      | None => None
      end
  end.

Definition arrayIndex (k : string) : option N :=
  match k with
  | EmptyString => None
  | String "0" EmptyString => Some 0%N
  | String "0" _ => None
  | _ => match digits 0%N k with
         | Some n => if (n <? 4294967295)%N then Some n else None
         | None => None
         end
  end.

Definition isIndex {V} (kv : string * V) : bool :=
  match arrayIndex (fst kv) with Some _ => true | None => false end.

Definition indexOf {V} (kv : string * V) : N :=
  match arrayIndex (fst kv) with Some n => n | None => 0%N end.

Fixpoint insertIndexed {V} (kv : string * V) (o : t V) : t V :=
  match o with
  | [] => [kv]
  | kv' :: o' =>
      if (indexOf kv <=? indexOf kv')%N then kv :: o
      else kv' :: insertIndexed kv o'
  end.

(** The order of [for (k in o)] over own properties: array indices in
    ascending numeric order, then the other names in insertion order. *)
Definition ownEntries {V} (o : t V) : t V :=
  foldr insertIndexed [] (List.filter isIndex o)
  ++ List.filter (fun kv => negb (isIndex kv)) o.

End JsObject.

(** The fresh temporary record of one log line. *)
Definition lambdaOf (log : LogEvent) : TrafficRecord :=
  mkRecord (log_url log) (log_address log) (log_timestamp log)
           (log_timestamp log) 1 "" "" (log_type log).

(** The dedup key of a record: [url || address]. *)
Definition keyOf (r : TrafficRecord) : string := orElse (url r) (address r).

Definition eventKey (log : LogEvent) : string := keyOf (lambdaOf log).

Definition updateExistingRecord (newEntry existingRecord : TrafficRecord)
  : TrafficRecord :=
  let r1 := if firstTimestamp newEntry <? firstTimestamp existingRecord
            then set_firstTimestamp (firstTimestamp newEntry) existingRecord
            else existingRecord in
  let r2 := if lastTimestamp newEntry >? lastTimestamp r1
            then set_lastTimestamp (lastTimestamp newEntry) r1
            else r1 in
  let r3 := set_frequency (frequency r2 + 1) r2 in
  let r4 := if negb (truthy (url r3)) && truthy (url newEntry)
            then set_url (url newEntry) r3 else r3 in
  if negb (truthy (address r4)) && truthy (address newEntry)
  then set_address (address newEntry) r4 else r4.

(** One iteration of the first loop of [processLogs]. *)
Definition processLog (recordMap : JsObject.t TrafficRecord) (log : LogEvent)
  : completion (JsObject.t TrafficRecord) :=
  let lambda := lambdaOf log in
  let key := keyOf lambda in
  if negb (truthy key) then Normal recordMap
  else
    bind (JsObject.hasOwnProperty recordMap key) (fun present =>
      if present
      then Normal (JsObject.update key (updateExistingRecord lambda) recordMap)
      else Normal (JsObject.set key lambda recordMap)).

Fixpoint processLoop (recordMap : JsObject.t TrafficRecord)
  (rawLogs : list LogEvent) : completion (JsObject.t TrafficRecord) :=
  match rawLogs with
  | [] => Normal recordMap
  | log :: rest =>
      bind (processLog recordMap log) (fun m => processLoop m rest)
  end.

(** The second loop of [processLogs]: [for (k in recordMap)] with the
    [hasOwnProperty] filter.  Names inherited through the prototype chain
    are enumerated too, but the filter rejects them, so only the own
    entries matter. *)
Fixpoint collectLoop (recordMap entries : JsObject.t TrafficRecord)
  (records : list TrafficRecord) : completion (list TrafficRecord) :=
  match entries with
  | [] => Normal records
  | (k, v) :: rest =>
      bind (JsObject.hasOwnProperty recordMap k) (fun own =>
        collectLoop recordMap rest (if own then records ++ [v] else records))
  end.

Definition collectRecords (recordMap : JsObject.t TrafficRecord)
  : completion (list TrafficRecord) :=
  collectLoop recordMap (JsObject.ownEntries recordMap) [].

Definition processLogs (rawLogs : list LogEvent)
  : completion (list TrafficRecord) :=
  bind (processLoop [] rawLogs) collectRecords.

(** ** Global state and effects *)

(** The result object cached by [performIpInfoLookup]. *)
Record IpInfo := mkIpInfo {
  ip : string;
  hostname : string;
  org : string;
  timezone : string
}.

(** The part of the global [state] object the engine reads and writes,
    with the two DOM elements [fetchAndRenderData] drives.

    The two caches and the two in-flight objects are object literals too.
    The in-flight test [pending[key]] reads inherited properties (see
    [pendingTruthy]), so no lookup is ever started, and nothing is ever
    cached, under a name that [Object.prototype] defines; on every other
    name an object literal is an exact dictionary. *)
Record State := mkState {
  timeRange : string;
  trafficRecords : list TrafficRecord;
  reverseDnsCache : gmap string (option string);
  pendingDnsLookups : gset string;
  scriptPath : string;
  isFetching : bool;
  ipInfoCache : gmap string (option IpInfo);
  pendingIpInfoLookups : gset string;
  ipInfoDailyLimit : Z;
  ipInfoDailyCount : Z;
  ipInfoUsagePath : option string;
  errorText : string;
  errorHidden : bool;
  loadingHidden : bool
}.

Definition with_trafficRecords (v : list TrafficRecord) (s : State) : State :=
  mkState (timeRange s) v (reverseDnsCache s) (pendingDnsLookups s)
    (scriptPath s) (isFetching s) (ipInfoCache s) (pendingIpInfoLookups s)
    (ipInfoDailyLimit s) (ipInfoDailyCount s) (ipInfoUsagePath s)
    (errorText s) (errorHidden s) (loadingHidden s).
Definition with_reverseDnsCache (v : gmap string (option string)) (s : State)
  : State :=
  mkState (timeRange s) (trafficRecords s) v (pendingDnsLookups s)
    (scriptPath s) (isFetching s) (ipInfoCache s) (pendingIpInfoLookups s)
    (ipInfoDailyLimit s) (ipInfoDailyCount s) (ipInfoUsagePath s)
    (errorText s) (errorHidden s) (loadingHidden s).
Definition with_pendingDnsLookups (v : gset string) (s : State) : State :=
  mkState (timeRange s) (trafficRecords s) (reverseDnsCache s) v
    (scriptPath s) (isFetching s) (ipInfoCache s) (pendingIpInfoLookups s)
    (ipInfoDailyLimit s) (ipInfoDailyCount s) (ipInfoUsagePath s)
    (errorText s) (errorHidden s) (loadingHidden s).
Definition with_isFetching (v : bool) (s : State) : State :=
  mkState (timeRange s) (trafficRecords s) (reverseDnsCache s)
    (pendingDnsLookups s) (scriptPath s) v (ipInfoCache s)
    (pendingIpInfoLookups s) (ipInfoDailyLimit s) (ipInfoDailyCount s)
    (ipInfoUsagePath s) (errorText s) (errorHidden s) (loadingHidden s).
Definition with_ipInfoCache (v : gmap string (option IpInfo)) (s : State)
  : State :=
  mkState (timeRange s) (trafficRecords s) (reverseDnsCache s)
    (pendingDnsLookups s) (scriptPath s) (isFetching s) v
    (pendingIpInfoLookups s) (ipInfoDailyLimit s) (ipInfoDailyCount s)
    (ipInfoUsagePath s) (errorText s) (errorHidden s) (loadingHidden s).
Definition with_pendingIpInfoLookups (v : gset string) (s : State) : State :=
  mkState (timeRange s) (trafficRecords s) (reverseDnsCache s)
    (pendingDnsLookups s) (scriptPath s) (isFetching s) (ipInfoCache s) v
    (ipInfoDailyLimit s) (ipInfoDailyCount s) (ipInfoUsagePath s)
    (errorText s) (errorHidden s) (loadingHidden s).
Definition with_ipInfoDailyCount (v : Z) (s : State) : State :=
  mkState (timeRange s) (trafficRecords s) (reverseDnsCache s)
    (pendingDnsLookups s) (scriptPath s) (isFetching s) (ipInfoCache s)
    (pendingIpInfoLookups s) (ipInfoDailyLimit s) v (ipInfoUsagePath s)
    (errorText s) (errorHidden s) (loadingHidden s).
Definition with_error (text : string) (hidden : bool) (s : State) : State :=
  mkState (timeRange s) (trafficRecords s) (reverseDnsCache s)
    (pendingDnsLookups s) (scriptPath s) (isFetching s) (ipInfoCache s)
    (pendingIpInfoLookups s) (ipInfoDailyLimit s) (ipInfoDailyCount s)
    (ipInfoUsagePath s) text hidden (loadingHidden s).
Definition with_loadingHidden (v : bool) (s : State) : State :=
  mkState (timeRange s) (trafficRecords s) (reverseDnsCache s)
    (pendingDnsLookups s) (scriptPath s) (isFetching s) (ipInfoCache s)
    (pendingIpInfoLookups s) (ipInfoDailyLimit s) (ipInfoDailyCount s)
    (ipInfoUsagePath s) (errorText s) (errorHidden s) v.

(** What a synchronous run of engine code asks of its host.  An external
    lookup or the log collector is a [Spawn]; a staggered ipinfo lookup is
    first a [SetTimeout] whose callback is
    [performIpInfoLookup lookupKey recordIndex]. *)
Inductive Effect :=
  | Spawn (argv : list string)
  | SetTimeout (lookupKey : string) (recordIndex : nat) (delay : Z)
  | RenderTable
  | FileReplace (path content : string).

Global Instance Effect_eq_dec : EqDecision Effect.
Proof. solve_decision. Defined.

(** The names [Object.prototype] defines; [pending[name]] is a function or
    an object for each of them, hence truthy. *)
Definition objectPrototypeNames : list string :=
  ["constructor"; "__defineGetter__"; "__defineSetter__"; "hasOwnProperty";
   "__lookupGetter__"; "__lookupSetter__"; "isPrototypeOf";
   "propertyIsEnumerable"; "toString"; "valueOf"; "__proto__";
   "toLocaleString"].

(** [pending[key]] taken as a condition. *)
Definition pendingTruthy (pending : gset string) (key : string) : bool :=
  bool_decide (key ∈ pending) || bool_decide (key ∈ objectPrototypeNames).

(** ** Reverse DNS enrichment *)

Definition performReverseDns (ipAddress : string) (recordIndex : nat)
  (st : State) : State * list Effect :=
  match reverseDnsCache st !! ipAddress with
  | Some cached =>
      match cached, trafficRecords st !! recordIndex with
      | Some name, Some record =>
          if truthy name
          then (with_trafficRecords
                  (<[recordIndex := set_url name record]> (trafficRecords st))
                  st, [])
          else (st, [])
      | _, _ => (st, [])
      end
  | None =>
      if pendingTruthy (pendingDnsLookups st) ipAddress then (st, [])
      else (with_pendingDnsLookups ({[ipAddress]} ∪ pendingDnsLookups st) st,
            [Spawn ["host"; ipAddress]])
  end.

(** The body of the loop of [enrichWithReverseDns] at index [i]. *)
Definition reverseDnsBody (acc : State * list Effect) (i : nat)
  : State * list Effect :=
  let (st, effects) := acc in
  match trafficRecords st !! i with
  | Some record =>
      if truthy (address record) && negb (truthy (url record))
      then let (st', e) := performReverseDns (address record) i st in
           (st', effects ++ e)
      else (st, effects)
  | None => (st, effects)
  end.

Definition enrichWithReverseDns (st : State) : State * list Effect :=
  foldl reverseDnsBody (st, []) (seq 0 (length (trafficRecords st))).

(** What the [host] command did: its output, reduced to the first group of
    [/domain name pointer\s+(.+)\.$/m] when the pattern matches, or a
    rejected promise. *)
Inductive HostOutcome :=
  | HostOutput (pointer : option string)
  | HostFailed.

Definition fillHostname (ipAddress name : string) (r : TrafficRecord)
  : TrafficRecord :=
  if String.eqb (address r) ipAddress && negb (truthy (url r))
  then set_url name r else r.

(** The [then] and [catch] callbacks of the spawn in [performReverseDns]. *)
Definition reverseDnsSettled (ipAddress : string) (outcome : HostOutcome)
  (st : State) : State * list Effect :=
  let unpend s :=
    with_pendingDnsLookups (pendingDnsLookups s ∖ {[ipAddress]}) s in
  match outcome with
  | HostOutput (Some name) =>
      if truthy name then
        let st1 := with_reverseDnsCache
                     (<[ipAddress := Some name]> (reverseDnsCache st)) st in
        let st2 := with_trafficRecords
                     (map (fillHostname ipAddress name) (trafficRecords st1))
                     st1 in
        (unpend st2, [RenderTable])
      else
        (unpend (with_reverseDnsCache
                   (<[ipAddress := None]> (reverseDnsCache st)) st), [])
  | HostOutput None | HostFailed =>
      (unpend (with_reverseDnsCache
                 (<[ipAddress := None]> (reverseDnsCache st)) st), [])
  end.

(** ** ipinfo enrichment *)

Definition applyToRecord (lookupKey : string) (result : IpInfo)
  (rec : TrafficRecord) : TrafficRecord :=
  if String.eqb (address rec) lookupKey || String.eqb (url rec) lookupKey then
    let r1 := if negb (truthy (url rec)) && truthy (hostname result)
              then set_url (hostname result) rec else rec in
    let r2 := if negb (truthy (address r1)) && truthy (ip result)
              then set_address (ip result) r1 else r1 in
    let r3 := if negb (truthy (category r2)) && truthy (org result)
              then set_category (org result) r2 else r2 in
    if negb (truthy (data r3)) && truthy (timezone result)
    then set_data (timezone result) r3 else r3
  else rec.

Definition applyIpInfoResult (lookupKey : string) (result : IpInfo)
  (st : State) : State :=
  with_trafficRecords
    (map (applyToRecord lookupKey result) (trafficRecords st)) st.

(** The local variables of [enrichWithIpInfo] together with the state. *)
Record IpInfoLoop := mkLoop {
  loop_state : State;
  loop_effects : list Effect;
  hadCachedResults : bool;
  delay : Z
}.

Inductive Control := Continue | Break.

(** The body of the loop of [enrichWithIpInfo] at index [i]. *)
Definition ipInfoBody (i : nat) (l : IpInfoLoop) : Control * IpInfoLoop :=
  let st := loop_state l in
  match trafficRecords st !! i with
  | None => (Continue, l)
  | Some record =>
      let lookupKey := orElse (address record) (url record) in
      if truthy lookupKey && negb (truthy (category record)) then
        match ipInfoCache st !! lookupKey with
        | Some (Some cached) =>
            (Continue,
             mkLoop (applyIpInfoResult lookupKey cached st)
                    (loop_effects l) true (delay l))
        | Some None => (Continue, l)
        | None =>
            if ipInfoDailyCount st >=? ipInfoDailyLimit st then (Break, l)
            else
              (Continue,
               mkLoop st (loop_effects l ++ [SetTimeout lookupKey i (delay l)])
                      (hadCachedResults l) (delay l + 100))
        end
      else (Continue, l)
  end.

Fixpoint ipInfoLoop (indices : list nat) (l : IpInfoLoop) : IpInfoLoop :=
  match indices with
  | [] => l
  | i :: rest =>
      match ipInfoBody i l with
      | (Continue, l') => ipInfoLoop rest l'
      | (Break, l') => l'
      end
  end.

Definition enrichWithIpInfo (st : State) : State * list Effect :=
  let l := ipInfoLoop (seq 0 (length (trafficRecords st)))
                      (mkLoop st [] false 0) in
  (loop_state l,
   loop_effects l ++ (if hadCachedResults l then [RenderTable] else [])).

(** The callback of each timer set by [enrichWithIpInfo]. *)
Definition performIpInfoLookup (lookupKey : string) (recordIndex : nat)
  (st : State) : State * list Effect :=
  match ipInfoCache st !! lookupKey with
  | Some (Some cached) => (applyIpInfoResult lookupKey cached st, [])
  | Some None => (st, [])
  | None =>
      if pendingTruthy (pendingIpInfoLookups st) lookupKey then (st, [])
      else if ipInfoDailyCount st >=? ipInfoDailyLimit st then (st, [])
      else (with_pendingIpInfoLookups
              ({[lookupKey]} ∪ pendingIpInfoLookups st) st,
            [Spawn ["ipinfo"; lookupKey; "--json"]])
  end.

(** What the [ipinfo] command did: output that [JSON.parse] accepts, read
    through [info.ip || ""] and its three siblings; output that it rejects;
    or a rejected promise. *)
Inductive IpInfoOutcome :=
  | IpInfoJson (result : IpInfo)
  | IpInfoBadJson
  | IpInfoFailed.

(** ** The daily quota *)

(** A number that holds an integer, printed by string concatenation.
    The digits are those of the code as long as the number is a safe
    integer (below 2^53 in absolute value); from 10^21 on the code prints
    an exponent form. *)
Definition numberToString (n : Z) : string :=
  DecimalString.NilZero.string_of_int (Z.to_int n).

Fixpoint digitsPrefix (acc : option Z) (s : string) : option Z :=
  match s with
  | EmptyString => acc
  | String c s' =>
      match digit c with
      | Some d =>
          digitsPrefix
            (Some (10 * (match acc with Some a => a | None => 0 end)
                   + Z.of_N d)) s'
      | None => acc
      end
  end.

(** [parseInt(s, 10)], with [None] for [NaN]: leading white space, an
    optional sign, then the longest run of decimal digits.  The result is
    exact as long as it is below 2^53 in absolute value. *)
Definition parseInt10 (s : string) : option Z :=
  match trimStart s with
  | String "-" rest => Z.opp <$> digitsPrefix None rest
  | String "+" rest => digitsPrefix None rest
  | rest => digitsPrefix None rest
  end.

(** [parseInt(s, 10) || 0]. *)
Definition parseIntOrZero (s : string) : Z :=
  match parseInt10 s with Some n => n | None => 0 end.

(** What [cockpit.file(path).read()] did: the content ([null] when there is
    no file), or a rejected promise. *)
Inductive ReadOutcome :=
  | FileContent (content : option string)
  | ReadFailed.

(** The count that the [then] callback of [loadIpInfoUsage] stores. *)
Definition usageCount (todayStr : string) (content : option string) : Z :=
  match content with
  | None => 0
  | Some content =>
      if negb (truthy content) || negb (truthy (trim content)) then 0
      else
        let parts := split pipe (trim content) in
        if (length parts =? 2)%nat && String.eqb (field 0 parts) todayStr
        then parseIntOrZero (field 1 parts)
        else 0
  end.

(** [loadIpInfoUsage] with its file read settled; [todayStr] is
    [new Date().toISOString().slice(0, 10)]. *)
Definition loadIpInfoUsage (todayStr : string) (read : ReadOutcome)
  (st : State) : State :=
  match ipInfoUsagePath st with
  | None => st
  | Some _ =>
      match read with
      | FileContent content =>
          with_ipInfoDailyCount (usageCount todayStr content) st
      | ReadFailed => with_ipInfoDailyCount 0 st
      end
  end.

Definition saveIpInfoUsage (todayStr : string) (st : State) : list Effect :=
  match ipInfoUsagePath st with
  | None => []
  | Some path =>
      [FileReplace path
         (todayStr +:+ "|" +:+ numberToString (ipInfoDailyCount st))]
  end.

(** The [then] and [catch] callbacks of the spawn in
    [performIpInfoLookup]. *)
Definition ipInfoSettled (todayStr : string) (lookupKey : string)
  (outcome : IpInfoOutcome) (st : State) : State * list Effect :=
  let unpend s :=
    with_pendingIpInfoLookups (pendingIpInfoLookups s ∖ {[lookupKey]}) s in
  match outcome with
  | IpInfoJson result =>
      let st1 := with_ipInfoCache
                   (<[lookupKey := Some result]> (ipInfoCache st)) st in
      let st2 := applyIpInfoResult lookupKey result st1 in
      let st3 := with_ipInfoDailyCount (ipInfoDailyCount st2 + 1) st2 in
      (unpend st3, saveIpInfoUsage todayStr st3 ++ [RenderTable])
  | IpInfoBadJson | IpInfoFailed =>
      (unpend (with_ipInfoCache (<[lookupKey := None]> (ipInfoCache st)) st),
       [])
  end.

(** ** Sorting *)

Inductive Column :=
  | ColUrl | ColAddress | ColFirstTimestamp | ColLastTimestamp
  | ColFrequency | ColCategory | ColData.

Inductive Value :=
  | VString (s : string)
  | VDate (t : Z)
  | VNumber (n : Z).

(** [a[column]]. *)
Definition getColumn (column : Column) (r : TrafficRecord) : Value :=
  match column with
  | ColUrl => VString (url r)
  | ColAddress => VString (address r)
  | ColFirstTimestamp => VDate (firstTimestamp r)
  | ColLastTimestamp => VDate (lastTimestamp r)
  | ColFrequency => VNumber (frequency r)
  | ColCategory => VString (category r)
  | ColData => VString (data r)
  end.

(** [v === "" || v === null || v === undefined]. *)
Definition isEmpty (v : Value) : bool :=
  match v with
  | VString s => negb (truthy s)
  | _ => false
  end.

(** [v instanceof Date ? v.getTime() : 0]. *)
Definition timeOf (v : Value) : Z :=
  match v with VDate t => t | _ => 0 end.

(** [Number(v)], read only in the frequency column. *)
Definition numberOf (v : Value) : Z :=
  match v with VNumber n => n | VDate t => t | VString _ => 0 end.

(** [String(v)], read only in the four text columns. *)
Definition stringOf (v : Value) : string :=
  match v with VString s => s | VDate t | VNumber t => numberToString t end.

(** The comparator passed to [records.sort]. *)
Definition compareRecords (column : Column) (direction : string)
  (a b : TrafficRecord) : Z :=
  let aVal := getColumn column a in
  let bVal := getColumn column b in
  let aEmpty := isEmpty aVal in
  let bEmpty := isEmpty bVal in
  if aEmpty && bEmpty then 0
  else if aEmpty then 1
  else if bEmpty then -1
  else
    let result :=
      match column with
      | ColFirstTimestamp | ColLastTimestamp => timeOf aVal - timeOf bVal
      | ColFrequency => numberOf aVal - numberOf bVal
      | _ =>
          let aStr := toLowerCase (stringOf aVal) in
          let bStr := toLowerCase (stringOf bVal) in
          if String.ltb aStr bStr then -1
          else if String.ltb bStr aStr then 1
          else 0
      end in
    if String.eqb direction "asc" then result else - result.

(** [Array.prototype.sort] with a comparator is a stable sort: an element
    moves in front of another only when the comparator puts it strictly
    first.  Insertion from the right end computes that order. *)
Fixpoint insertSorted {A} (cmp : A -> A -> Z) (x : A) (l : list A) : list A :=
  match l with
  | [] => [x]
  | y :: l' => if cmp x y <=? 0 then x :: l else y :: insertSorted cmp x l'
  end.

Definition arraySort {A} (cmp : A -> A -> Z) (l : list A) : list A :=
  foldr (insertSorted cmp) [] l.

Definition sortRecords (column : Column) (direction : string)
  (records : list TrafficRecord) : list TrafficRecord :=
  arraySort (compareRecords column direction) records.

(** ** Fetching *)

(** The rejection value of [cockpit.spawn]: its [message] and [problem]
    properties when defined, and what [String(error)] gives. *)
Record SpawnError := mkError {
  message : option string;
  problem : option string;
  errorString : string
}.

(** [error.message || error.problem || String(error)]. *)
Definition errorMessage (error : SpawnError) : string :=
  match message error with
  | Some m => if truthy m then m else
      match problem error with
      | Some p => if truthy p then p else errorString error
      | None => errorString error
      end
  | None =>
      match problem error with
      | Some p => if truthy p then p else errorString error
      | None => errorString error
      end
  end.

(** The [TypeError] that [processLogs] can throw inside the [then]
    callback, as the [catch] callback receives it. *)
Definition hasOwnPropertyTypeError : SpawnError :=
  mkError (Some "recordMap.hasOwnProperty is not a function") None
          "TypeError: recordMap.hasOwnProperty is not a function".

Inductive SpawnOutcome :=
  | SpawnOutput (output : string)
  | SpawnFailed (error : SpawnError).

Definition showError (text : string) (st : State) : State :=
  with_error text false st.
Definition hideError (st : State) : State :=
  with_error (errorText st) true st.
Definition showLoading (st : State) : State := with_loadingHidden false st.
Definition hideLoading (st : State) : State := with_loadingHidden true st.

(** [fetchAndRenderData] up to the call of [cockpit.spawn]. *)
Definition fetchAndRenderData (st : State) : State * list Effect :=
  if isFetching st then (st, [])
  else
    let st1 := with_isFetching true st in
    let st2 := match trafficRecords st1 with
               | [] => showLoading st1
               | _ => st1
               end in
    (hideError st2, [Spawn ["/bin/bash"; scriptPath st; timeRange st]]).

(** The [catch] callback of [fetchAndRenderData]. *)
Definition fetchFailed (error : SpawnError) (st : State) : State :=
  let msg := errorMessage error in
  with_isFetching false
    (hideLoading (showError ("Failed to fetch traffic data: " +:+ msg) st)).

Section Fetching.

Variable currentYear : string.
Variable dateParse : string -> option Z.

(** The [then] callback of [fetchAndRenderData]; an exception thrown in
    it rejects the promise that the [catch] callback handles. *)
Definition fetchSucceeded (output : string) (st : State)
  : State * list Effect :=
  let rawLogs := parseShellOutput currentYear dateParse output in
  match processLogs rawLogs with
  | TypeError => (fetchFailed hasOwnPropertyTypeError st, [])
  | Normal records =>
      let st1 := with_trafficRecords records st in
      let (st2, e2) := enrichWithReverseDns st1 in
      let (st3, e3) := enrichWithIpInfo st2 in
      (with_isFetching false (hideLoading st3), RenderTable :: e2 ++ e3)
  end.

(** [fetchAndRenderData] once the collector has settled. *)
Definition fetchSettled (outcome : SpawnOutcome) (st : State)
  : State * list Effect :=
  match outcome with
  | SpawnOutput output => fetchSucceeded output st
  | SpawnFailed error => (fetchFailed error st, [])
  end.

End Fetching.

(** * Vocabulary of the properties *)

(** The record that results from folding a sequence of entries in. *)
Definition mergeAll (entries : list TrafficRecord) (r : TrafficRecord)
  : TrafficRecord :=
  fold_left (fun acc n => updateExistingRecord n acc) entries r.

(** The input events that reduce to the key [k]. *)
Definition eventsWithKey (k : string) (rawLogs : list LogEvent)
  : list LogEvent :=
  List.filter (fun e => String.eqb (eventKey e) k) rawLogs.

(** A key that an object literal treats as an ordinary property name. *)
Definition plainKey (k : string) : Prop :=
  k <> "__proto__" /\ k <> "hasOwnProperty".

(** The state of [recordMap] after the events [seen]. *)
Definition aggregated (seen : list LogEvent)
  (recordMap : JsObject.t TrafficRecord) : Prop :=
  NoDup (map fst recordMap) /\
  (forall k r, In (k, r) recordMap ->
     keyOf r = k /\ k <> "" /\
     frequency r = Z.of_nat (length (eventsWithKey k seen))) /\
  (forall k, In k (map fst recordMap) <->
     k <> "" /\ exists e, In e seen /\ eventKey e = k) /\
  ~ In "hasOwnProperty" (map fst recordMap).

(** The record has no value in the column. *)
Definition emptyAt (column : Column) (r : TrafficRecord) : bool :=
  isEmpty (getColumn column r).

(** Every record without a value comes after every record with one. *)
Fixpoint emptiesLast (column : Column) (l : list TrafficRecord) : Prop :=
  match l with
  | [] => True
  | r :: l' =>
      (emptyAt column r = true -> Forall (fun r' => emptyAt column r' = true) l')
      /\ emptiesLast column l'
  end.

(** The day a usage file is stamped with, as [loadIpInfoUsage] reads it. *)
Definition storedDay (content : string) : string :=
  field 0 (split pipe (trim content)).

(** What one pass of [enrichWithReverseDns] does to a record. *)
Definition reverseDnsFill (cache : gmap string (option string))
  (r : TrafficRecord) : TrafficRecord :=
  if truthy (address r) && negb (truthy (url r)) then
    match cache !! address r with
    | Some (Some name) => if truthy name then set_url name r else r
    | _ => r
    end
  else r.

(** A lookup started by the pass: a [host] command for an address that is
    not in the cache. *)
Definition hostLookupFor (cache : gmap string (option string)) (e : Effect)
  : Prop :=
  exists ipAddress,
    e = Spawn ["host"; ipAddress] /\ cache !! ipAddress = None.

(** A timer set by the pass: for a key that the cache does not hold, set
    while the daily count was below the limit. *)
Definition timerFor (st : State) (e : Effect) : Prop :=
  exists lookupKey recordIndex d,
    e = SetTimeout lookupKey recordIndex d /\
    ipInfoCache st !! lookupKey = None /\
    ipInfoDailyCount st < ipInfoDailyLimit st.

(** What a pass of [enrichWithIpInfo] leaves alone. *)
Definition sameQuotaAndCache (st st' : State) : Prop :=
  ipInfoCache st' = ipInfoCache st /\
  ipInfoDailyCount st' = ipInfoDailyCount st /\
  ipInfoDailyLimit st' = ipInfoDailyLimit st.

(** [r'] has every non-empty text field of [r] unchanged. *)
Definition fillsOnly (r r' : TrafficRecord) : Prop :=
  (url r <> "" -> url r' = url r) /\
  (address r <> "" -> address r' = address r) /\
  (category r <> "" -> category r' = category r) /\
  (data r <> "" -> data r' = data r).

(** The ways enrichment code runs on the state: a pass of either
    enrichment over the records, a timer of the ipinfo pass firing, and
    the settling of a lookup of either kind. *)
Inductive enrichment : State -> State -> Prop :=
  | enrich_reverseDns st :
      enrichment st (fst (enrichWithReverseDns st))
  | enrich_reverseDnsSettled ipAddress outcome st :
      enrichment st (fst (reverseDnsSettled ipAddress outcome st))
  | enrich_ipInfo st :
      enrichment st (fst (enrichWithIpInfo st))
  | enrich_ipInfoTimer lookupKey recordIndex st :
      enrichment st (fst (performIpInfoLookup lookupKey recordIndex st))
  | enrich_ipInfoSettled todayStr lookupKey outcome st :
      enrichment st (fst (ipInfoSettled todayStr lookupKey outcome st)).





(** * Further engine code *)

(** ** Rendering and auto-refresh *)

(** [s.indexOf(needle) !== -1]. *)
Fixpoint includes (needle s : string) : bool :=
  String.prefix needle s
  || match s with
     | EmptyString => false
     | String _ s' => includes needle s'
     end.

Definition isReverseDnsQuery (url : string) : bool :=
  if negb (truthy url) then false
  else
    let lower := toLowerCase url in
    includes ".in-addr.arpa" lower || includes ".ip6.arpa" lower.

(** The records for which [renderTable] appends a row, in the order of
    the rows; [column], [direction] and [showReverseDnsQueries] are the
    settings in [state].  The records are sorted in a copy. *)
Definition renderedRows (column : Column) (direction : string)
  (showReverseDnsQueries : bool) (records : list TrafficRecord)
  : list TrafficRecord :=
  List.filter
    (fun r => showReverseDnsQueries || negb (isReverseDnsQuery (url r)))
    (sortRecords column direction records).

Definition with_timeRange (v : string) (s : State) : State :=
  mkState v (trafficRecords s) (reverseDnsCache s) (pendingDnsLookups s)
    (scriptPath s) (isFetching s) (ipInfoCache s) (pendingIpInfoLookups s)
    (ipInfoDailyLimit s) (ipInfoDailyCount s) (ipInfoUsagePath s)
    (errorText s) (errorHidden s) (loadingHidden s).

(** [state.refresh]; a timer id is a positive number, hence truthy. *)
Record Refresh := mkRefresh {
  intervalSeconds : Z;
  countdownTimerId : option positive;
  remainingSeconds : Z
}.

(** The page: the engine state, [state.refresh], and the interval timers
    that the browser runs for the page. *)
Record Page := mkPage {
  engine : State;
  refresh : Refresh;
  timers : gset positive
}.

Definition stopAutoRefresh (p : Page) : Page :=
  match countdownTimerId (refresh p) with
  | Some id =>
      mkPage (engine p)
        (mkRefresh (intervalSeconds (refresh p)) None
           (remainingSeconds (refresh p)))
        (timers p ∖ {[id]})
  | None => p
  end.

(** [id] is what [setInterval] returns. *)
Definition startAutoRefresh (id : positive) (p : Page) : Page :=
  let p1 := stopAutoRefresh p in
  mkPage (engine p1)
    (mkRefresh (intervalSeconds (refresh p1)) (Some id)
       (intervalSeconds (refresh p1)))
    ({[id]} ∪ timers p1).

Definition resetAutoRefresh (id : positive) (p : Page) : Page :=
  startAutoRefresh id (stopAutoRefresh p).

(** The callback of the interval timer, run once a second. *)
Definition countdownTick (p : Page) : Page * list Effect :=
  let remaining := remainingSeconds (refresh p) - 1 in
  if remaining <=? 0 then
    let (st, effects) := fetchAndRenderData (engine p) in
    (mkPage st
       (mkRefresh (intervalSeconds (refresh p)) (countdownTimerId (refresh p))
          (intervalSeconds (refresh p)))
       (timers p),
     effects)
  else
    (mkPage (engine p)
       (mkRefresh (intervalSeconds (refresh p)) (countdownTimerId (refresh p))
          remaining)
       (timers p),
     []).

Definition handleTimeFilterChange (newRange : string) (id : positive)
  (p : Page) : Page * list Effect :=
  let p1 := mkPage (with_timeRange newRange (engine p)) (refresh p) (timers p) in
  let p2 := resetAutoRefresh id p1 in
  let (st, effects) := fetchAndRenderData (engine p2) in
  (mkPage st (refresh p2) (timers p2), effects).

(** The [visibilitychange] listener; [hidden] is [document.hidden]. *)
Definition visibilityChanged (hidden : bool) (id : positive) (p : Page)
  : Page * list Effect :=
  if hidden then (stopAutoRefresh p, [])
  else
    let (st, effects) := fetchAndRenderData (engine p) in
    (startAutoRefresh id (mkPage st (refresh p) (timers p)), effects).

(** * Further vocabulary *)

(** [Number.isSafeInteger]: the integers that a number holds exactly. *)
Definition isSafeInteger (n : Z) : Prop := - 2 ^ 53 < n < 2 ^ 53.

(** [p] put in front of the first field. *)
Definition prependFirst (p : string) (l : list string) : list string :=
  match l with
  | [] => [p]
  | h :: t => (p +:+ h) :: t
  end.

(** The string holds white space only. *)
Fixpoint allWhite (s : string) : bool :=
  match s with
  | EmptyString => true
  | String c s' => isWhiteSpace c && allWhite s'
  end.

(** The events that are not keyed [__proto__]. *)
Definition withoutProto (rawLogs : list LogEvent) : list LogEvent :=
  List.filter (fun e => negb (String.eqb (eventKey e) "__proto__")) rawLogs.

(** Every record of [recordMap] spans the timestamps of the events seen
    under its key, has the type of the first of them, and has no owner
    and no timezone yet. *)
Definition spanned (seen : list LogEvent)
  (recordMap : JsObject.t TrafficRecord) : Prop :=
  forall k r, In (k, r) recordMap ->
    (forall e, In e (eventsWithKey k seen) ->
       firstTimestamp r <= log_timestamp e <= lastTimestamp r) /\
    (exists e, In e (eventsWithKey k seen) /\
               log_timestamp e = firstTimestamp r) /\
    (exists e, In e (eventsWithKey k seen) /\
               log_timestamp e = lastTimestamp r) /\
    (exists e rest, eventsWithKey k seen = e :: rest /\ type r = log_type e) /\
    category r = "" /\ data r = "".

(** [st'] is [st] except for the records and the reverse DNS in-flight
    set. *)
Definition touchesDns (st st' : State) : Prop :=
  st' = with_pendingDnsLookups (pendingDnsLookups st')
          (with_trafficRecords (trafficRecords st') st).

(** [st'] is [st] except for the records. *)
Definition touchesRecords (st st' : State) : Prop :=
  st' = with_trafficRecords (trafficRecords st') st.

(** Anything the engine does to the state in a session: the steps of
    enrichment, the start and the settling of a fetch, and the loading of
    the usage file. *)
Inductive sessionStep (currentYear : string) (dateParse : string -> option Z)
  : State -> State -> Prop :=
  | session_enrichment st st' :
      enrichment st st' -> sessionStep currentYear dateParse st st'
  | session_fetch st :
      sessionStep currentYear dateParse st (fst (fetchAndRenderData st))
  | session_fetchSettled outcome st :
      sessionStep currentYear dateParse st
        (fst (fetchSettled currentYear dateParse outcome st))
  | session_loadUsage todayStr read st :
      sessionStep currentYear dateParse st (loadIpInfoUsage todayStr read st).

(** Every key of the two caches of [st] is a key of those of [st']. *)
Definition cachesGrow (st st' : State) : Prop :=
  (forall k, is_Some (reverseDnsCache st !! k) ->
             is_Some (reverseDnsCache st' !! k)) /\
  (forall k, is_Some (ipInfoCache st !! k) -> is_Some (ipInfoCache st' !! k)).

(** Every character of the string satisfies [p]. *)
Fixpoint allChars (p : ascii -> bool) (s : string) : bool :=
  match s with
  | EmptyString => true
  | String c s' => p c && allChars p s'
  end.

Definition isDigit (c : ascii) : bool :=
  match digit c with Some _ => true | None => false end.

(** The number a record shows in one of the three numeric columns. *)
Definition columnNumber (column : Column) (r : TrafficRecord) : Z :=
  match getColumn column r with
  | VDate t | VNumber t => t
  | VString _ => 0
  end.

Definition numericColumn (column : Column) : Prop :=
  column = ColFirstTimestamp \/ column = ColLastTimestamp \/
  column = ColFrequency.

(** [k] ticks of the timer, with the effects of all of them. *)
Fixpoint ticks (k : nat) (p : Page) : Page * list Effect :=
  match k with
  | O => (p, [])
  | S k' =>
      let (p1, e1) := ticks k' p in
      let (p2, e2) := countdownTick p1 in
      (p2, e1 ++ e2)
  end.

(** The browser runs exactly the timer that [state.refresh] names. *)
Definition oneTimer (p : Page) : Prop :=
  timers p = match countdownTimerId (refresh p) with
             | Some id => {[id]}
             | None => ∅
             end.

(** What the listeners and the timer do to the page. *)
Inductive pageStep : Page -> Page -> Prop :=
  | page_start id p : pageStep p (startAutoRefresh id p)
  | page_stop p : pageStep p (stopAutoRefresh p)
  | page_reset id p : pageStep p (resetAutoRefresh id p)
  | page_tick p : pageStep p (fst (countdownTick p))
  | page_filter newRange id p :
      pageStep p (fst (handleTimeFilterChange newRange id p))
  | page_visibility hidden id p :
      pageStep p (fst (visibilityChanged hidden id p)).

(** The effects so far are timers, the [j]-th of them set to [100 * j]
    milliseconds, and [d] is the delay of the next one. *)
Definition staggered (effects : list Effect) (d : Z) : Prop :=
  d = 100 * Z.of_nat (length effects) /\
  forall (j : nat) (e : Effect), effects !! j = Some e ->
    exists lookupKey recordIndex,
      e = SetTimeout lookupKey recordIndex (100 * Z.of_nat j).

(** A state as it is after start-up, with one cached host name. *)
Definition sampleState : State :=
  mkState "24 hours ago"
    [mkRecord "" "160.79.104.10" 5 5 1 "" "" HTTPS;
     mkRecord "b.example" "" 5 9 3 "" "" DNS]
    {["160.79.104.10" := Some "cdn.example.com"]} ∅
    "fetch-logs.sh" false ∅ ∅ 1000 999 (Some "ipinfo_usage.txt")
    "" true true.

Definition samplePage : Page :=
  mkPage sampleState (mkRefresh 15 None 15) ∅.

(** * Properties *)

(** ** Strings *)

Lemma truthy_iff (s : string) : truthy s = true <-> s <> EmptyString.
Proof. destruct s; simpl; split; congruence. Qed.

Lemma truthy_false_iff (s : string) : truthy s = false <-> s = EmptyString.
Proof. destruct s; simpl; split; congruence. Qed.

Lemma orElse_empty (s : string) : orElse s EmptyString = s.
Proof. destruct s; reflexivity. Qed.

Lemma split_not_nil (sep : ascii) (s : string) : split sep s <> [].
Proof.
  induction s as [|c s IH]; simpl; [discriminate|].
  destruct (Ascii.eqb c sep); [discriminate|].
  destruct (split sep s); discriminate.
Qed.

Lemma split_no_sep (sep : ascii) (s : string) :
  contains sep s = false -> split sep s = [s].
Proof.
  induction s as [|c s IH]; simpl; [reflexivity|].
  intros H. apply orb_false_iff in H as [Hc Hs].
  rewrite Hc, (IH Hs). reflexivity.
Qed.

Lemma split_app_sep (sep : ascii) (a b : string) :
  contains sep a = false ->
  split sep (a +:+ String sep b) = a :: split sep b.
Proof.
  induction a as [|c a IH]; simpl; intros H.
  - rewrite Ascii.eqb_refl. reflexivity.
  - apply orb_false_iff in H as [Hc Ha].
    rewrite Hc, (IH Ha). reflexivity.
Qed.

(** Splitting undoes joining when no field holds the separator. *)
Lemma split_join (sep : ascii) (fields : list string) :
  fields <> [] ->
  Forall (fun f => contains sep f = false) fields ->
  split sep (join sep fields) = fields.
Proof.
  induction fields as [|f rest IH]; [congruence|].
  intros _ Hall. inversion Hall as [|? ? Hf Hrest]; subst.
  destruct rest as [|g rest].
  - simpl. apply split_no_sep, Hf.
  - change (join sep (f :: g :: rest))
      with (f +:+ String sep (join sep (g :: rest))).
    rewrite split_app_sep by exact Hf.
    rewrite IH; [reflexivity | discriminate | exact Hrest].
Qed.

Lemma join_three_truthy (sep : ascii) (a b c : string) (rest : list string) :
  truthy (join sep (a :: b :: c :: rest)) = true.
Proof.
  change (join sep (a :: b :: c :: rest))
    with (a +:+ String sep (join sep (b :: c :: rest))).
  destruct a; reflexivity.
Qed.

(** White space is trimmed off the line, not off its fields: a separator
    stops the trimming from either end. *)
Lemma trimStart_before_sep (c : ascii) (a b : string) :
  isWhiteSpace c = false ->
  trimStart (a +:+ String c b) = trimStart a +:+ String c b.
Proof.
  intros Hc. induction a as [|x a IH]; simpl; [rewrite Hc; reflexivity|].
  destruct (isWhiteSpace x); [exact IH | reflexivity].
Qed.

Lemma trimEnd_after_sep (c : ascii) (a b : string) :
  isWhiteSpace c = false ->
  trimEnd (a +:+ String c b) = a +:+ String c (trimEnd b).
Proof.
  intros Hc. induction a as [|x a IH].
  - simpl. destruct (trimEnd b); [rewrite Hc|]; reflexivity.
  - change (String x a +:+ String c b) with (String x (a +:+ String c b)).
    change (trimEnd (String x (a +:+ String c b)))
      with (match trimEnd (a +:+ String c b) with
            | EmptyString =>
                if isWhiteSpace x then EmptyString else String x EmptyString
            | t => String x t
            end).
    rewrite IH. destruct a; reflexivity.
Qed.

Lemma contains_trimStart (c : ascii) (s : string) :
  contains c s = false -> contains c (trimStart s) = false.
Proof.
  induction s as [|x s IH]; simpl; [reflexivity|].
  intros H. destruct (isWhiteSpace x); [|exact H].
  apply orb_false_iff in H as [_ H]. auto.
Qed.

Lemma truthy_before_sep (c : ascii) (a b : string) :
  truthy (a +:+ String c b) = true.
Proof. destruct a; reflexivity. Qed.

(** ** Parsing *)

Section ParsingFacts.

Variable currentYear : string.
Variable dateParse : string -> option Z.

(** What [parseLine] returns, read off the fields of the trimmed line. *)
Lemma parseLine_fields (raw : string) (e : LogEvent) :
  parseLine currentYear dateParse raw = Some e ->
  let parts := split pipe (trim raw) in
  (3 <= length parts)%nat /\
  log_timestamp e = parseTimestamp currentYear dateParse (field 1 parts) /\
  ((field 0 parts = "DNS" /\ log_type e = DNS /\
    log_url e = field 2 parts /\ log_address e = "") \/
   (field 0 parts <> "DNS" /\ log_type e <> DNS /\
    log_url e = "" /\ log_address e = field 2 parts)).
Proof.
  unfold parseLine. cbv zeta.
  destruct (negb (truthy (trim raw))); [discriminate|].
  destruct (Nat.ltb_spec (length (split pipe (trim raw))) 3); [discriminate|].
  rewrite !orElse_empty.
  destruct (String.eqb_spec (field 0 (split pipe (trim raw))) "DNS") as [Hd|Hd].
  { intros [= <-]. simpl. auto 10. }
  repeat match goal with
         | |- context [String.eqb ?a ?b] => destruct (String.eqb a b)
         end;
    try discriminate; intros [= <-]; simpl;
    (split; [lia|]); (split; [reflexivity|]); right;
    repeat split; auto; discriminate.
Qed.

Lemma parseShellOutput_In (output : string) (e : LogEvent) :
  In e (parseShellOutput currentYear dateParse output) ->
  exists raw, parseLine currentYear dateParse raw = Some e.
Proof.
  unfold parseShellOutput.
  destruct (negb (truthy output) || negb (truthy (trim output))).
  { intros []. }
  intros Hin. apply list_elem_of_In in Hin.
  apply list_elem_of_omap in Hin as (raw & _ & Hraw). eauto.
Qed.

Lemma parseLine_joined (kind ts f2 : string) (extra : list string) :
  Forall (fun f => contains pipe f = false) (kind :: ts :: f2 :: extra) ->
  trim (join pipe (kind :: ts :: f2 :: extra))
  = join pipe (kind :: ts :: f2 :: extra) ->
  parseLine currentYear dateParse (join pipe (kind :: ts :: f2 :: extra))
  = if String.eqb kind "DNS" then
      Some (mkLog DNS (parseTimestamp currentYear dateParse ts) f2 "")
    else if String.eqb kind "HTTPS" then
      Some (mkLog HTTPS (parseTimestamp currentYear dateParse ts) "" f2)
    else if String.eqb kind "HTTP" then
      Some (mkLog HTTP (parseTimestamp currentYear dateParse ts) "" f2)
    else if String.eqb kind "PING" then
      Some (mkLog PING (parseTimestamp currentYear dateParse ts) "" f2)
    else None.
Proof.
  intros Hall Htrim. unfold parseLine. cbv zeta.
  rewrite Htrim, join_three_truthy, split_join by (discriminate || exact Hall).
  simpl. unfold field. simpl. rewrite !orElse_empty. reflexivity.
Qed.

(** C5, as amended.  An event that the parser builds never carries both a
    url and an address: a DNS event has an empty address, every other
    event an empty url.  Both are empty exactly when field 2 of the line
    is the empty string; the event is built all the same, and the first
    loop of [processLogs] passes over it. *)
Theorem parseLine_at_most_one_key (raw : string) (e : LogEvent) :
  parseLine currentYear dateParse raw = Some e ->
  (log_url e = "" \/ log_address e = "") /\
  (log_type e = DNS -> log_address e = "") /\
  (log_type e <> DNS -> log_url e = "") /\
  ((log_url e = "" /\ log_address e = "")
   <-> field 2 (split pipe (trim raw)) = "") /\
  (field 2 (split pipe (trim raw)) = "" ->
   forall recordMap, processLog recordMap e = Normal recordMap).
Proof.
  intros H. apply parseLine_fields in H. cbv zeta in H.
  assert (Hskip : log_url e = "" -> log_address e = "" ->
                  forall recordMap, processLog recordMap e = Normal recordMap).
  { intros Hu Ha recordMap. unfold processLog, keyOf, orElse. simpl.
    rewrite Hu, Ha. reflexivity. }
  destruct H as (_ & _ & [(_ & Ht & Hu & Ha) | (_ & Ht & Hu & Ha)]).
  - split; [right; exact Ha|]. split; [intros _; exact Ha|].
    split; [intros Hn; contradiction|].
    split; [rewrite Hu; tauto|].
    intros Hf. apply Hskip; congruence.
  - split; [left; exact Hu|]. split; [intros Hn; contradiction|].
    split; [intros _; exact Hu|].
    split; [rewrite Ha; tauto|].
    intros Hf. apply Hskip; congruence.
Qed.

(** The result of [parseLine], read off the first three fields of the
    trimmed line. *)
Lemma parseLine_of_parts (raw kind ts f2 : string) (rest : list string) :
  truthy (trim raw) = true ->
  split pipe (trim raw) = kind :: ts :: f2 :: rest ->
  parseLine currentYear dateParse raw
  = if String.eqb kind "DNS" then
      Some (mkLog DNS (parseTimestamp currentYear dateParse ts) f2 "")
    else if String.eqb kind "HTTPS" then
      Some (mkLog HTTPS (parseTimestamp currentYear dateParse ts) "" f2)
    else if String.eqb kind "HTTP" then
      Some (mkLog HTTP (parseTimestamp currentYear dateParse ts) "" f2)
    else if String.eqb kind "PING" then
      Some (mkLog PING (parseTimestamp currentYear dateParse ts) "" f2)
    else None.
Proof.
  intros Htruthy Hsplit. unfold parseLine. cbv zeta.
  rewrite Htruthy, Hsplit. simpl. unfold field. simpl.
  rewrite !orElse_empty. reflexivity.
Qed.

(** The fields of a trimmed line of at least three fields: the first one
    loses its leading white space, the second and third are kept as they
    are when a further field follows, and the third loses its trailing
    white space when it ends the line. *)
Lemma split_trim_long (kind ts f2 next : string) (extra : list string) :
  Forall (fun f => contains pipe f = false) [kind; ts; f2] ->
  exists rest,
    split pipe (trim (join pipe (kind :: ts :: f2 :: next :: extra)))
    = trimStart kind :: ts :: f2 :: rest.
Proof.
  intros Hall.
  inversion Hall as [|? ? Hk Hall1]; subst.
  inversion Hall1 as [|? ? Ht Hall2]; subst.
  inversion Hall2 as [|? ? Hf _]; subst.
  change (join pipe (kind :: ts :: f2 :: next :: extra))
    with (kind +:+ String pipe
            (ts +:+ String pipe
               (f2 +:+ String pipe (join pipe (next :: extra))))).
  unfold trim.
  rewrite trimStart_before_sep by reflexivity.
  rewrite !trimEnd_after_sep by reflexivity.
  rewrite (split_app_sep pipe (trimStart kind))
    by (apply contains_trimStart; exact Hk).
  rewrite (split_app_sep pipe ts) by exact Ht.
  rewrite (split_app_sep pipe f2) by exact Hf.
  eexists. reflexivity.
Qed.

Lemma split_trim_short (kind ts f2 : string) :
  Forall (fun f => contains pipe f = false) [kind; ts; f2] ->
  trimEnd f2 = f2 ->
  split pipe (trim (join pipe [kind; ts; f2])) = [trimStart kind; ts; f2].
Proof.
  intros Hall Hend.
  inversion Hall as [|? ? Hk Hall1]; subst.
  inversion Hall1 as [|? ? Ht Hall2]; subst.
  inversion Hall2 as [|? ? Hf _]; subst.
  change (join pipe [kind; ts; f2])
    with (kind +:+ String pipe (ts +:+ String pipe f2)).
  unfold trim.
  rewrite trimStart_before_sep by reflexivity.
  rewrite !trimEnd_after_sep by reflexivity.
  rewrite Hend.
  rewrite (split_app_sep pipe (trimStart kind))
    by (apply contains_trimStart; exact Hk).
  rewrite (split_app_sep pipe ts) by exact Ht.
  rewrite (split_no_sep pipe f2 Hf). reflexivity.
Qed.

Lemma truthy_trim_joined (kind ts : string) (rest : list string) :
  truthy (trim (join pipe (kind :: ts :: rest))) = true.
Proof.
  change (join pipe (kind :: ts :: rest))
    with (kind +:+ String pipe (join pipe (ts :: rest))).
  unfold trim.
  rewrite trimStart_before_sep, trimEnd_after_sep by reflexivity.
  apply truthy_before_sep.
Qed.

(** C10, as amended.  Fields after the third are ignored when the third
    field does not end in white space: the line and the line cut after
    its third field then parse to the same result, whatever white space
    surrounds the line.  In particular a DNS line without a query type is
    accepted and gives the event of the four-field form. *)
Theorem parseLine_extra_fields_ignored (kind ts f2 : string)
  (extra : list string) :
  Forall (fun f => contains pipe f = false) (kind :: ts :: f2 :: extra) ->
  trimEnd f2 = f2 ->
  parseLine currentYear dateParse (join pipe (kind :: ts :: f2 :: extra))
  = parseLine currentYear dateParse (join pipe [kind; ts; f2]) /\
  (kind = "DNS" ->
   parseLine currentYear dateParse (join pipe [kind; ts; f2])
   = Some (mkLog DNS (parseTimestamp currentYear dateParse ts) f2 "")).
Proof.
  intros Hall Hend.
  assert (Hall3 : Forall (fun f => contains pipe f = false) [kind; ts; f2]).
  { inversion Hall as [|? ? H0 Hall1]; subst.
    inversion Hall1 as [|? ? H1 Hall2]; subst.
    inversion Hall2 as [|? ? H2 _]; subst.
    repeat constructor; assumption. }
  pose proof (parseLine_of_parts (join pipe [kind; ts; f2])
                (trimStart kind) ts f2 []
                (truthy_trim_joined kind ts [f2])
                (split_trim_short kind ts f2 Hall3 Hend)) as Hshort.
  split.
  - destruct extra as [|next extra]; [reflexivity|].
    destruct (split_trim_long kind ts f2 next extra Hall3) as [rest Hrest].
    rewrite (parseLine_of_parts (join pipe (kind :: ts :: f2 :: next :: extra))
               (trimStart kind) ts f2 rest
               (truthy_trim_joined kind ts (f2 :: next :: extra)) Hrest).
    symmetry. exact Hshort.
  - intros ->. exact Hshort.
Qed.

End ParsingFacts.

Lemma parseLine_at_most_one_key_witness :
  parseLine "2026" (fun _ => Some 1771084450000) "DNS|Feb 14 15:54:10|"
  = Some (mkLog DNS 1771084450000 "" "") /\
  (log_url (mkLog DNS 1771084450000 "" "") = "" \/
   log_address (mkLog DNS 1771084450000 "" "") = "").
Proof.
  split; [reflexivity|].
  apply (parseLine_at_most_one_key "2026" (fun _ => Some 1771084450000)
           "DNS|Feb 14 15:54:10|" (mkLog DNS 1771084450000 "" "")).
  reflexivity.
Defined.

(** C5 as the specification states it fails: the line [DNS|Feb 14 15:54:10|]
    has three fields, the third one empty, and the parser builds an event
    whose url and address are both empty. *)
Lemma parser_builds_keyless_event :
  ~ (forall output e,
       In e (parseShellOutput "2026" (fun _ => Some 1771084450000) output) ->
       (log_url e <> "" /\ log_address e = "") \/
       (log_url e = "" /\ log_address e <> "")).
Proof.
  intros H.
  destruct (H "DNS|Feb 14 15:54:10|" (mkLog DNS 1771084450000 "" ""))
    as [[Hu _] | [_ Ha]].
  - vm_compute. left. reflexivity.
  - apply Hu. reflexivity.
  - apply Ha. reflexivity.
Qed.

(** C10 as the specification states it fails: the parser trims the
    line, not the field.  The blank that ends the third field is dropped
    when the field ends the line and kept when a fourth field follows, so
    the two lines give events with different urls. *)
Lemma parseLine_keeps_blank_before_extra_field :
  parseLine "2026" (fun _ => Some 1771084450000)
    "DNS|Feb 14 15:54:10|github.com |A"
  = Some (mkLog DNS 1771084450000 "github.com " "") /\
  parseLine "2026" (fun _ => Some 1771084450000)
    "DNS|Feb 14 15:54:10|github.com "
  = Some (mkLog DNS 1771084450000 "github.com" "") /\
  ~ (forall kind ts f2 extra,
       Forall (fun f => contains pipe f = false) (kind :: ts :: f2 :: extra) ->
       parseLine "2026" (fun _ => Some 1771084450000)
         (join pipe (kind :: ts :: f2 :: extra))
       = parseLine "2026" (fun _ => Some 1771084450000)
           (join pipe [kind; ts; f2])).
Proof.
  split; [reflexivity|]. split; [reflexivity|].
  intros H.
  specialize (H "DNS" "Feb 14 15:54:10" "github.com " ["A"]).
  assert (Hneq : parseLine "2026" (fun _ => Some 1771084450000)
                   (join pipe ["DNS"; "Feb 14 15:54:10"; "github.com "; "A"])
                 <> parseLine "2026" (fun _ => Some 1771084450000)
                      (join pipe ["DNS"; "Feb 14 15:54:10"; "github.com "]))
    by (vm_compute; discriminate).
  apply Hneq, H. repeat constructor.
Qed.

Lemma parseLine_extra_fields_ignored_witness :
  parseLine "2026" (fun _ => Some 1771084450000)
    "  DNS|Feb 14 15:54:10|github.com|A|IN  "
  = parseLine "2026" (fun _ => Some 1771084450000)
      "  DNS|Feb 14 15:54:10|github.com".
Proof.
  refine (proj1 (parseLine_extra_fields_ignored "2026"
                   (fun _ => Some 1771084450000)
                   "  DNS" "Feb 14 15:54:10" "github.com" ["A"; "IN  "] _ _)).
  - repeat constructor.
  - reflexivity.
Defined.

(** ** Merging *)

Lemma updateExistingRecord_url (n r : TrafficRecord) :
  url (updateExistingRecord n r)
  = if negb (truthy (url r)) && truthy (url n) then url n else url r.
Proof.
  unfold updateExistingRecord.
  destruct (firstTimestamp n <? firstTimestamp r); simpl;
    destruct (lastTimestamp n >? lastTimestamp r); simpl;
    destruct (negb (truthy (url r)) && truthy (url n)); simpl;
    repeat match goal with
           | |- context [if ?c then _ else _] => destruct c; simpl
           end; reflexivity.
Qed.

Lemma updateExistingRecord_address (n r : TrafficRecord) :
  address (updateExistingRecord n r)
  = if negb (truthy (address r)) && truthy (address n)
    then address n else address r.
Proof.
  unfold updateExistingRecord.
  destruct (firstTimestamp n <? firstTimestamp r); simpl;
    destruct (lastTimestamp n >? lastTimestamp r); simpl;
    destruct (negb (truthy (url r)) && truthy (url n)); simpl;
    destruct (negb (truthy (address r)) && truthy (address n)); simpl;
    reflexivity.
Qed.

Lemma updateExistingRecord_frequency (n r : TrafficRecord) :
  frequency (updateExistingRecord n r) = frequency r + 1.
Proof.
  unfold updateExistingRecord.
  destruct (firstTimestamp n <? firstTimestamp r); simpl;
    destruct (lastTimestamp n >? lastTimestamp r); simpl;
    destruct (negb (truthy (url r)) && truthy (url n)); simpl;
    repeat match goal with
           | |- context [if ?c then _ else _] => destruct c; simpl
           end; reflexivity.
Qed.

Lemma updateExistingRecord_firstTimestamp (n r : TrafficRecord) :
  firstTimestamp (updateExistingRecord n r)
  = Z.min (firstTimestamp n) (firstTimestamp r).
Proof.
  unfold updateExistingRecord.
  destruct (Z.ltb_spec (firstTimestamp n) (firstTimestamp r)); simpl;
    destruct (lastTimestamp n >? lastTimestamp r); simpl;
    destruct (negb (truthy (url r)) && truthy (url n)); simpl;
    repeat match goal with
           | |- context [if ?c then _ else _] => destruct c; simpl
           end; lia.
Qed.

Lemma updateExistingRecord_lastTimestamp (n r : TrafficRecord) :
  lastTimestamp (updateExistingRecord n r)
  = Z.max (lastTimestamp n) (lastTimestamp r).
Proof.
  unfold updateExistingRecord.
  destruct (firstTimestamp n <? firstTimestamp r); simpl;
    destruct (Z.gtb_spec (lastTimestamp n) (lastTimestamp r)); simpl;
    destruct (negb (truthy (url r)) && truthy (url n)); simpl;
    repeat match goal with
           | |- context [if ?c then _ else _] => destruct c; simpl
           end; lia.
Qed.

(** Merging an entry with the same key leaves the key of the record as it
    is, so a record stays under the property name it was stored at. *)
Lemma updateExistingRecord_keyOf (n r : TrafficRecord) :
  keyOf n = keyOf r -> keyOf (updateExistingRecord n r) = keyOf r.
Proof.
  unfold keyOf, orElse.
  rewrite updateExistingRecord_url, updateExistingRecord_address.
  destruct (url r), (url n), (address r), (address n); simpl; congruence.
Qed.

Lemma mergeAll_snoc (entries : list TrafficRecord) (n r : TrafficRecord) :
  mergeAll (entries ++ [n]) r = updateExistingRecord n (mergeAll entries r).
Proof. unfold mergeAll. rewrite fold_left_app. reflexivity. Qed.

Lemma firstn_succ_snoc {A} (l : list A) (k : nat) (x : A) :
  l !! k = Some x -> firstn (S k) l = firstn k l ++ [x].
Proof.
  revert k. induction l as [|y l IH]; intros [|k] H; simpl in *;
    try discriminate.
  - injection H as ->. reflexivity.
  - rewrite (IH k H). reflexivity.
Qed.

(** C2.  Starting from a record with [firstTimestamp <= lastTimestamp]
    (every fresh record has them equal), the order holds after each merged
    entry, and each merge can only lower [firstTimestamp] and only raise
    [lastTimestamp]. *)
Theorem merge_keeps_first_before_last (r : TrafficRecord)
  (entries : list TrafficRecord) :
  firstTimestamp r <= lastTimestamp r ->
  forall k : nat,
    firstTimestamp (mergeAll (firstn k entries) r)
    <= lastTimestamp (mergeAll (firstn k entries) r) /\
    firstTimestamp (mergeAll (firstn (S k) entries) r)
    <= firstTimestamp (mergeAll (firstn k entries) r) /\
    lastTimestamp (mergeAll (firstn k entries) r)
    <= lastTimestamp (mergeAll (firstn (S k) entries) r).
Proof.
  intros Hr k.
  assert (Hinv : forall j,
             firstTimestamp (mergeAll (firstn j entries) r)
             <= lastTimestamp (mergeAll (firstn j entries) r)).
  { induction j as [|j IH]; [exact Hr|].
    destruct (entries !! j) as [n|] eqn:Hj.
    - rewrite (firstn_succ_snoc _ _ _ Hj), mergeAll_snoc.
      rewrite updateExistingRecord_firstTimestamp,
        updateExistingRecord_lastTimestamp. lia.
    - apply lookup_ge_None in Hj.
      rewrite firstn_all2 by lia. rewrite firstn_all2 in IH by lia.
      exact IH. }
  split; [apply Hinv|].
  destruct (entries !! k) as [n|] eqn:Hk.
  - rewrite (firstn_succ_snoc _ _ _ Hk), mergeAll_snoc.
    rewrite updateExistingRecord_firstTimestamp,
      updateExistingRecord_lastTimestamp. lia.
  - apply lookup_ge_None in Hk.
    rewrite (firstn_all2 (n := S k)) by lia.
    rewrite (firstn_all2 (n := k)) by lia. lia.
Qed.

Lemma merge_keeps_first_before_last_witness :
  firstTimestamp
    (mergeAll (firstn 1 [mkRecord "github.com" "" 3 3 1 "" "" DNS])
       (mkRecord "github.com" "" 5 5 1 "" "" DNS))
  <= lastTimestamp
       (mergeAll (firstn 1 [mkRecord "github.com" "" 3 3 1 "" "" DNS])
          (mkRecord "github.com" "" 5 5 1 "" "" DNS)).
Proof.
  refine (proj1 (merge_keeps_first_before_last
                   (mkRecord "github.com" "" 5 5 1 "" "" DNS)
                   [mkRecord "github.com" "" 3 3 1 "" "" DNS] _ 1%nat)).
  simpl. lia.
Defined.

(** ** Object literals as dictionaries *)

Lemma isOwn_In {V} (k : string) (o : JsObject.t V) :
  JsObject.isOwn k o = true <-> In k (map fst o).
Proof.
  unfold JsObject.isOwn. rewrite existsb_exists. split.
  - intros ([k' v] & Hin & Heq). apply String.eqb_eq in Heq. simpl in Heq.
    subst. apply (in_map fst) in Hin. exact Hin.
  - intros Hin. apply in_map_iff in Hin as ([k' v] & <- & Hin).
    exists (k', v). split; [exact Hin | apply String.eqb_refl].
Qed.

Lemma isOwn_false_In {V} (k : string) (o : JsObject.t V) :
  JsObject.isOwn k o = false <-> ~ In k (map fst o).
Proof.
  rewrite <- isOwn_In. destruct (JsObject.isOwn k o); split; congruence.
Qed.

Lemma update_keys {V} (k : string) (f : V -> V) (o : JsObject.t V) :
  map fst (JsObject.update k f o) = map fst o.
Proof.
  induction o as [|[k' v] o IH]; simpl; [reflexivity|].
  destruct (String.eqb k' k); simpl; [reflexivity | rewrite IH; reflexivity].
Qed.

(** What [update] does to each entry when the names are distinct. *)
Lemma update_In {V} (k : string) (f : V -> V) (o : JsObject.t V)
  (k' : string) (v' : V) :
  NoDup (map fst o) ->
  In (k', v') (JsObject.update k f o) ->
  (k' <> k /\ In (k', v') o) \/
  (k' = k /\ exists v, In (k, v) o /\ v' = f v).
Proof.
  induction o as [|[k0 v0] o IH]; simpl; [tauto|].
  intros Hnd Hin. inversion Hnd as [|? ? Hnotin Hnd']; subst.
  destruct (String.eqb_spec k0 k) as [->|Hne].
  - destruct Hin as [[= <- <-] | Hin].
    + right. split; [reflexivity|]. exists v0. auto.
    + left. split; [|auto]. intros ->. apply Hnotin.
      apply list_elem_of_In. apply (in_map fst) in Hin. exact Hin.
  - destruct Hin as [[= <- <-] | Hin].
    + left. auto.
    + destruct (IH Hnd' Hin) as [[Hk Hi] | (Hk & v & Hi & Hv)].
      * left. auto.
      * right. split; [exact Hk|]. exists v. auto.
Qed.

(** [for (k in o)] visits every own entry once. *)
Lemma insertIndexed_Permutation {V} (kv : string * V) (o : JsObject.t V) :
  Permutation (JsObject.insertIndexed kv o) (kv :: o).
Proof.
  induction o as [|kv' o IH]; simpl; [reflexivity|].
  destruct (JsObject.indexOf kv <=? JsObject.indexOf kv')%N; [reflexivity|].
  rewrite IH. apply perm_swap.
Qed.

Lemma ownEntries_Permutation {V} (o : JsObject.t V) :
  Permutation (JsObject.ownEntries o) o.
Proof.
  unfold JsObject.ownEntries.
  transitivity (List.filter JsObject.isIndex o
                ++ List.filter (fun kv => negb (JsObject.isIndex kv)) o).
  - apply Permutation_app_tail.
    induction (List.filter JsObject.isIndex o) as [|kv l IH]; simpl;
      [reflexivity|].
    rewrite insertIndexed_Permutation, IH. reflexivity.
  - induction o as [|kv o IH]; simpl; [reflexivity|].
    destruct (JsObject.isIndex kv); simpl.
    + rewrite IH. reflexivity.
    + rewrite <- Permutation_middle, IH. reflexivity.
Qed.

Lemma collectLoop_all_own (recordMap entries : JsObject.t TrafficRecord)
  (records : list TrafficRecord) :
  JsObject.isOwn "hasOwnProperty" recordMap = false ->
  (forall kv, In kv entries -> In (fst kv) (map fst recordMap)) ->
  collectLoop recordMap entries records = Normal (records ++ map snd entries).
Proof.
  intros Hfree. revert records.
  induction entries as [|[k v] entries IH]; intros records Hown; simpl.
  - rewrite app_nil_r. reflexivity.
  - unfold JsObject.hasOwnProperty. rewrite Hfree. simpl.
    assert (Hk : JsObject.isOwn k recordMap = true).
    { apply isOwn_In. apply (Hown (k, v)). left. reflexivity. }
    rewrite Hk, IH.
    + rewrite <- app_assoc. reflexivity.
    + intros kv Hin. apply Hown. right. exact Hin.
Qed.

Lemma collectRecords_Permutation (recordMap : JsObject.t TrafficRecord) :
  JsObject.isOwn "hasOwnProperty" recordMap = false ->
  exists records,
    collectRecords recordMap = Normal records /\
    Permutation records (map snd recordMap).
Proof.
  intros Hfree. unfold collectRecords.
  rewrite collectLoop_all_own; [| exact Hfree |].
  - eexists. split; [reflexivity|]. simpl.
    apply Permutation_map, ownEntries_Permutation.
  - intros kv Hin. apply in_map.
    eapply Permutation_in; [apply ownEntries_Permutation | exact Hin].
Qed.

(** ** Aggregation *)

Lemma eventsWithKey_snoc (k : string) (seen : list LogEvent) (e : LogEvent) :
  eventsWithKey k (seen ++ [e])
  = eventsWithKey k seen ++ (if String.eqb (eventKey e) k then [e] else []).
Proof. unfold eventsWithKey. rewrite List.filter_app. reflexivity. Qed.

Lemma eventsWithKey_snoc_other (k : string) (seen : list LogEvent)
  (e : LogEvent) :
  eventKey e <> k -> eventsWithKey k (seen ++ [e]) = eventsWithKey k seen.
Proof.
  intros Hne. rewrite eventsWithKey_snoc.
  destruct (String.eqb_spec (eventKey e) k); [contradiction|].
  apply app_nil_r.
Qed.

Lemma eventsWithKey_nil_iff (k : string) (seen : list LogEvent) :
  eventsWithKey k seen = [] <-> ~ exists e, In e seen /\ eventKey e = k.
Proof.
  unfold eventsWithKey. split.
  - intros Hnil (e & Hin & Hk).
    assert (Hf : In e (List.filter (fun e => String.eqb (eventKey e) k) seen)).
    { apply List.filter_In. split; [exact Hin|]. subst. apply String.eqb_refl. }
    rewrite Hnil in Hf. destruct Hf.
  - intros Hno.
    destruct (List.filter (fun e => String.eqb (eventKey e) k) seen)
      as [|e l] eqn:Hf; [reflexivity|].
    exfalso. apply Hno. exists e.
    assert (Hin : In e (e :: l)) by (left; reflexivity).
    rewrite <- Hf in Hin. apply List.filter_In in Hin as [Hin Hk].
    apply String.eqb_eq in Hk. auto.
Qed.

Lemma aggregated_nil : aggregated [] [].
Proof.
  unfold aggregated. simpl. split; [constructor|].
  split; [tauto|]. split; [|tauto].
  intros k. split; [tauto|]. intros (_ & e & [] & _).
Qed.

(** One iteration on an event with an empty key. *)
Lemma processLog_no_key (seen : list LogEvent)
  (recordMap : JsObject.t TrafficRecord) (e : LogEvent) :
  eventKey e = "" ->
  aggregated seen recordMap ->
  processLog recordMap e = Normal recordMap /\
  aggregated (seen ++ [e]) recordMap.
Proof.
  intros Hkey (Hnd & Hent & Hdom & Hfree).
  split. { unfold processLog. fold (eventKey e). rewrite Hkey. reflexivity. }
  split; [exact Hnd|]. split; [|split; [|exact Hfree]].
  - intros k r Hin. destruct (Hent k r Hin) as (Hk & Hne & Hfreq).
    rewrite eventsWithKey_snoc_other by congruence. auto.
  - intros k. rewrite Hdom. split.
    + intros (Hne & e' & Hin & Hk). split; [exact Hne|].
      exists e'. split; [apply in_or_app; left; exact Hin | exact Hk].
    + intros (Hne & e' & Hin & Hk). split; [exact Hne|].
      apply in_app_or in Hin as [Hin | [<- | []]]; [eauto | congruence].
Qed.

(** One iteration on an event whose key is already a property. *)
Lemma processLog_merge (seen : list LogEvent)
  (recordMap : JsObject.t TrafficRecord) (e : LogEvent) :
  eventKey e <> "" ->
  In (eventKey e) (map fst recordMap) ->
  aggregated seen recordMap ->
  exists recordMap',
    processLog recordMap e = Normal recordMap' /\
    aggregated (seen ++ [e]) recordMap'.
Proof.
  intros Hkey Hown (Hnd & Hent & Hdom & Hfree).
  exists (JsObject.update (eventKey e) (updateExistingRecord (lambdaOf e))
            recordMap).
  split.
  { unfold processLog. fold (eventKey e).
    apply truthy_iff in Hkey. rewrite Hkey. simpl.
    unfold JsObject.hasOwnProperty.
    apply isOwn_false_In in Hfree. rewrite Hfree. simpl.
    apply isOwn_In in Hown. rewrite Hown. reflexivity. }
  split; [rewrite update_keys; exact Hnd|].
  split; [|split; [|rewrite update_keys; exact Hfree]].
  - intros k r Hin.
    apply update_In in Hin as [[Hk Hin] | (-> & r0 & Hin & ->)];
      [| |exact Hnd].
    + destruct (Hent k r Hin) as (Hkr & Hne & Hfreq).
      rewrite eventsWithKey_snoc_other by congruence. auto.
    + destruct (Hent _ r0 Hin) as (Hkr & Hne & Hfreq).
      split; [|split; [exact Hne|]].
      * rewrite updateExistingRecord_keyOf; [exact Hkr|].
        rewrite Hkr. reflexivity.
      * rewrite updateExistingRecord_frequency, Hfreq, eventsWithKey_snoc.
        rewrite String.eqb_refl, length_app. simpl. lia.
  - intros k. rewrite update_keys, Hdom. split.
    + intros (Hne & e' & Hin & Hk). split; [exact Hne|].
      exists e'. split; [apply in_or_app; left; exact Hin | exact Hk].
    + intros (Hne & e' & Hin & Hk).
      apply in_app_or in Hin as [Hin | [<- | []]]; [eauto|].
      subst k. apply Hdom. exact Hown.
Qed.

(** One iteration on an event whose key is new and an ordinary name. *)
Lemma processLog_new (seen : list LogEvent)
  (recordMap : JsObject.t TrafficRecord) (e : LogEvent) :
  eventKey e <> "" ->
  plainKey (eventKey e) ->
  ~ In (eventKey e) (map fst recordMap) ->
  aggregated seen recordMap ->
  processLog recordMap e = Normal (recordMap ++ [(eventKey e, lambdaOf e)]) /\
  aggregated (seen ++ [e]) (recordMap ++ [(eventKey e, lambdaOf e)]).
Proof.
  intros Hkey [Hproto Hhas] Hnew (Hnd & Hent & Hdom & Hfree).
  split.
  { unfold processLog. fold (eventKey e).
    apply truthy_iff in Hkey. rewrite Hkey. simpl.
    unfold JsObject.hasOwnProperty.
    apply isOwn_false_In in Hfree. rewrite Hfree. simpl.
    pose proof Hnew as Hnew'. apply isOwn_false_In in Hnew'.
    rewrite Hnew'. unfold JsObject.set. rewrite Hnew'.
    destruct (String.eqb_spec (eventKey e) "__proto__"); [contradiction|].
    reflexivity. }
  split; [|split; [|split]].
  - rewrite map_app. simpl. apply NoDup_app. split; [exact Hnd|].
    split; [|apply NoDup_singleton].
    intros k Hk Hk'. apply list_elem_of_In in Hk.
    apply list_elem_of_In in Hk'. destruct Hk' as [<- | []]. auto.
  - intros k r Hin. apply in_app_or in Hin as [Hin | [[= <- <-] | []]].
    + destruct (Hent k r Hin) as (Hkr & Hne & Hfreq).
      assert (eventKey e <> k).
      { intros <-. apply Hnew. apply (in_map fst) in Hin. exact Hin. }
      rewrite eventsWithKey_snoc_other by assumption. auto.
    + split; [reflexivity|]. split; [exact Hkey|].
      rewrite eventsWithKey_snoc, String.eqb_refl, length_app.
      assert (Hnone : eventsWithKey (eventKey e) seen = []).
      { apply eventsWithKey_nil_iff. intros Hex. apply Hnew, Hdom. auto. }
      rewrite Hnone. reflexivity.
  - intros k. rewrite map_app, in_app_iff, Hdom. simpl. split.
    + intros [(Hne & e' & Hin & Hk) | [<- | []]].
      * split; [exact Hne|]. exists e'.
        split; [apply in_or_app; left; exact Hin | exact Hk].
      * split; [exact Hkey|]. exists e.
        split; [apply in_or_app; right; left; reflexivity | reflexivity].
    + intros (Hne & e' & Hin & Hk).
      apply in_app_or in Hin as [Hin | [<- | []]]; [left; eauto | right; auto].
  - rewrite map_app, in_app_iff. simpl. intros [H | [H | []]]; auto.
Qed.

Lemma processLog_aggregated (seen : list LogEvent)
  (recordMap : JsObject.t TrafficRecord) (e : LogEvent) :
  plainKey (eventKey e) ->
  aggregated seen recordMap ->
  exists recordMap',
    processLog recordMap e = Normal recordMap' /\
    aggregated (seen ++ [e]) recordMap'.
Proof.
  intros Hplain Hagg.
  destruct (string_dec (eventKey e) "") as [Hkey | Hkey].
  { exists recordMap. apply processLog_no_key; assumption. }
  destruct (in_dec string_dec (eventKey e) (map fst recordMap)) as [Hin | Hin].
  - apply processLog_merge; assumption.
  - eexists. apply processLog_new; assumption.
Qed.

Lemma processLoop_aggregated (rawLogs seen : list LogEvent)
  (recordMap : JsObject.t TrafficRecord) :
  Forall (fun e => plainKey (eventKey e)) rawLogs ->
  aggregated seen recordMap ->
  exists recordMap',
    processLoop recordMap rawLogs = Normal recordMap' /\
    aggregated (seen ++ rawLogs) recordMap'.
Proof.
  revert seen recordMap.
  induction rawLogs as [|e rawLogs IH]; intros seen recordMap Hall Hagg.
  - exists recordMap. rewrite app_nil_r. split; [reflexivity | exact Hagg].
  - inversion Hall as [|? ? He Hrest]; subst.
    destruct (processLog_aggregated seen recordMap e He Hagg)
      as (m1 & Hstep & Hagg1).
    destruct (IH (seen ++ [e]) m1 Hrest Hagg1) as (m2 & Hloop & Hagg2).
    exists m2. simpl. rewrite Hstep. simpl.
    rewrite <- app_assoc in Hagg2. split; [exact Hloop | exact Hagg2].
Qed.

(** When no event carries one of the two names that an object literal does
    not treat as a dictionary key, [processLogs] returns one record for each
    distinct non-empty key of the input, and the frequency of a record is
    the number of input events with its key. *)
Theorem processLogs_plain_keys (rawLogs : list LogEvent) :
  Forall (fun e => plainKey (eventKey e)) rawLogs ->
  exists records,
    processLogs rawLogs = Normal records /\
    NoDup (map keyOf records) /\
    (forall k, In k (map keyOf records) <->
       k <> "" /\ exists e, In e rawLogs /\ eventKey e = k) /\
    (forall r, In r records ->
       frequency r
       = Z.of_nat (length (eventsWithKey (keyOf r) rawLogs))).
Proof.
  intros Hall.
  destruct (processLoop_aggregated rawLogs [] [] Hall aggregated_nil)
    as (m & Hloop & Hnd & Hent & Hdom & Hfree).
  simpl in Hnd, Hent, Hdom.
  destruct (collectRecords_Permutation m) as (records & Hcollect & Hperm).
  { apply isOwn_false_In. exact Hfree. }
  assert (Hkeys : map keyOf (map snd m) = map fst m).
  { rewrite map_map. apply map_ext_in. intros [k r] Hin.
    destruct (Hent k r Hin) as (Hk & _). exact Hk. }
  exists records. split.
  { unfold processLogs. rewrite Hloop. exact Hcollect. }
  split; [|split].
  - rewrite Hperm, Hkeys. exact Hnd.
  - intros k. rewrite <- Hdom, <- Hkeys. split; intros Hin.
    + eapply Permutation_in; [apply Permutation_map; exact Hperm | exact Hin].
    + eapply Permutation_in;
        [apply Permutation_map; symmetry; exact Hperm | exact Hin].
  - intros r Hin.
    assert (Hin' : In r (map snd m)).
    { eapply Permutation_in; [exact Hperm | exact Hin]. }
    apply in_map_iff in Hin' as ([k r'] & Heq & Hin'). simpl in Heq. subst r'.
    destruct (Hent k r Hin') as (Hk & _ & Hfreq). rewrite Hk. exact Hfreq.
Qed.

Lemma processLogs_plain_keys_witness :
  exists records,
    processLogs [mkLog DNS 10 "github.com" ""; mkLog DNS 61 "github.com" ""]
    = Normal records.
Proof.
  destruct (processLogs_plain_keys
              [mkLog DNS 10 "github.com" ""; mkLog DNS 61 "github.com" ""])
    as (records & Hrecords & _).
  - repeat constructor; discriminate.
  - exists records. exact Hrecords.
Defined.

(** Scenario A of the specification. *)
Example processLogs_scenario_A :
  processLogs [mkLog DNS 10 "github.com" ""; mkLog DNS 61 "github.com" ""]
  = Normal [mkRecord "github.com" "" 10 61 2 "" "" DNS].
Proof. reflexivity. Qed.

(** Scenarios B and C of the specification. *)
Example processLogs_scenario_B :
  processLogs
    (parseShellOutput "2026" (fun _ => Some 1771084550000)
       "HTTPS|Feb 14 15:55:50|160.79.104.10")
  = Normal [mkRecord "" "160.79.104.10" 1771084550000 1771084550000 1
              "" "" HTTPS].
Proof. reflexivity. Qed.

Example processLogs_scenario_C :
  processLogs
    (parseShellOutput "2026" (fun _ => Some 1771084550000)
       (join newline ["DNS|Feb 14 15:54:10|github.com|A";
                      "GARBAGE|not-a-kind";
                      "DNS|Feb 14 15:55:01|github.com|A"]))
  = Normal [mkRecord "github.com" "" 1771084550000 1771084550000 2
              "" "" DNS].
Proof. reflexivity. Qed.

(** C1 fails on the code.  A DNS event for the name [__proto__] has a
    non-empty key, yet [processLogs] returns no record for it: the
    assignment [recordMap[key] = lambda] installs the record as prototype
    and adds no own property.  An event for the name [hasOwnProperty] is
    stored, shadows the inherited method, and the next call of
    [recordMap.hasOwnProperty] throws, so no record at all is returned. *)
Theorem processLogs_reserved_names :
  eventKey (mkLog DNS 10 "__proto__" "") = "__proto__" /\
  processLogs [mkLog DNS 10 "__proto__" ""] = Normal [] /\
  processLogs [mkLog DNS 10 "github.com" ""; mkLog DNS 20 "__proto__" "";
               mkLog DNS 30 "__proto__" ""]
  = Normal [mkRecord "github.com" "" 10 10 1 "" "" DNS] /\
  processLogs [mkLog DNS 10 "hasOwnProperty" ""] = TypeError /\
  processLogs [mkLog DNS 10 "hasOwnProperty" ""; mkLog DNS 20 "github.com" ""]
  = TypeError.
Proof. repeat split; reflexivity. Qed.

(** ** Sorting *)

Lemma insertSorted_Permutation {A} (cmp : A -> A -> Z) (x : A) (l : list A) :
  Permutation (insertSorted cmp x l) (x :: l).
Proof.
  induction l as [|y l IH]; simpl; [reflexivity|].
  destruct (cmp x y <=? 0); [reflexivity|].
  rewrite IH. apply perm_swap.
Qed.

Lemma arraySort_Permutation {A} (cmp : A -> A -> Z) (l : list A) :
  Permutation (arraySort cmp l) l.
Proof.
  induction l as [|x l IH]; simpl; [reflexivity|].
  rewrite insertSorted_Permutation, IH. reflexivity.
Qed.

(** The comparator never puts an empty value before a non-empty one,
    whatever the direction. *)
Lemma compareRecords_empty_left (column : Column) (direction : string)
  (a b : TrafficRecord) :
  emptyAt column a = true -> emptyAt column b = false ->
  compareRecords column direction a b = 1.
Proof.
  unfold compareRecords, emptyAt. cbv zeta. intros -> ->. reflexivity.
Qed.

Lemma compareRecords_empty_right (column : Column) (direction : string)
  (a b : TrafficRecord) :
  emptyAt column a = false -> emptyAt column b = true ->
  compareRecords column direction a b = -1.
Proof.
  unfold compareRecords, emptyAt. cbv zeta. intros -> ->. reflexivity.
Qed.

Lemma compareRecords_empty_both (column : Column) (direction : string)
  (a b : TrafficRecord) :
  emptyAt column a = true -> emptyAt column b = true ->
  compareRecords column direction a b = 0.
Proof.
  unfold compareRecords, emptyAt. cbv zeta. intros -> ->. reflexivity.
Qed.

Lemma insertSorted_emptiesLast (column : Column) (direction : string)
  (x : TrafficRecord) (l : list TrafficRecord) :
  emptiesLast column l ->
  emptiesLast column (insertSorted (compareRecords column direction) x l).
Proof.
  induction l as [|y l IH]; simpl.
  - intros _. split; [intros _; constructor | exact I].
  - intros [Hy Hl].
    destruct (Z.leb_spec (compareRecords column direction x y) 0) as [Hle|Hgt].
    + simpl. split; [|split; assumption].
      intros Hx. destruct (emptyAt column y) eqn:Hey.
      * constructor; [exact Hey | apply Hy; reflexivity].
      * rewrite (compareRecords_empty_left _ _ _ _ Hx Hey) in Hle. lia.
    + simpl. split; [|apply IH; exact Hl].
      intros Hey. destruct (emptyAt column x) eqn:Hex.
      * eapply Permutation_Forall.
        { symmetry. apply insertSorted_Permutation. }
        constructor; [exact Hex | apply Hy; exact Hey].
      * rewrite (compareRecords_empty_right _ _ _ _ Hex Hey) in Hgt. lia.
Qed.

Lemma sortRecords_emptiesLast (column : Column) (direction : string)
  (records : list TrafficRecord) :
  emptiesLast column (sortRecords column direction records).
Proof.
  unfold sortRecords, arraySort.
  induction records as [|r records IH]; simpl; [exact I|].
  apply insertSorted_emptiesLast, IH.
Qed.

Lemma emptiesLast_lookup (column : Column) (l : list TrafficRecord)
  (i j : nat) (ri rj : TrafficRecord) :
  emptiesLast column l ->
  l !! i = Some ri -> l !! j = Some rj -> (i < j)%nat ->
  emptyAt column ri = true -> emptyAt column rj = true.
Proof.
  revert i j. induction l as [|r l IH]; intros i j Hl Hi Hj Hlt Hempty.
  - discriminate.
  - destruct Hl as [Hr Hl]. destruct j as [|j]; [lia|]. simpl in Hj.
    destruct i as [|i]; simpl in Hi.
    + injection Hi as ->. specialize (Hr Hempty).
      rewrite Forall_forall in Hr. apply Hr.
      eapply list_elem_of_lookup_2. exact Hj.
    + apply (IH i j); auto. lia.
Qed.

(** *** The comparator is consistent *)

Lemma string_compare_trans (a b c : string) :
  String.compare a b <> Gt -> String.compare b c <> Gt ->
  String.compare a c <> Gt.
Proof.
  revert b c. induction a as [|x a IH]; intros [|y b] [|z c]; simpl;
    try congruence.
  unfold Ascii.compare.
  destruct (N.compare_spec (N_of_ascii x) (N_of_ascii y)) as [Hxy|Hxy|Hxy];
    destruct (N.compare_spec (N_of_ascii y) (N_of_ascii z)) as [Hyz|Hyz|Hyz];
    destruct (N.compare_spec (N_of_ascii x) (N_of_ascii z)) as [Hxz|Hxz|Hxz];
    try congruence; try lia.
  apply IH.
Qed.

Lemma string_ltb_compare (a b : string) :
  (if String.ltb a b then -1 else if String.ltb b a then 1 else 0)
  = match String.compare a b with Lt => -1 | Eq => 0 | Gt => 1 end.
Proof.
  unfold String.ltb. rewrite (String.compare_antisym a b).
  destruct (String.compare b a); reflexivity.
Qed.

Lemma string_order_trans (a b c : string) :
  match String.compare a b with Lt => -1 | Eq => 0 | Gt => 1 end <= 0 ->
  match String.compare b c with Lt => -1 | Eq => 0 | Gt => 1 end <= 0 ->
  match String.compare a c with Lt => -1 | Eq => 0 | Gt => 1 end <= 0.
Proof.
  intros Hab Hbc. pose proof (string_compare_trans a b c) as H.
  destruct (String.compare a b), (String.compare b c), (String.compare a c);
    try lia; exfalso; apply H; congruence.
Qed.

Lemma string_order_trans_desc (a b c : string) :
  - match String.compare a b with Lt => -1 | Eq => 0 | Gt => 1 end <= 0 ->
  - match String.compare b c with Lt => -1 | Eq => 0 | Gt => 1 end <= 0 ->
  - match String.compare a c with Lt => -1 | Eq => 0 | Gt => 1 end <= 0.
Proof.
  rewrite (String.compare_antisym a b), (String.compare_antisym b c),
    (String.compare_antisym a c).
  intros Hab Hbc. pose proof (string_compare_trans c b a) as H.
  destruct (String.compare b a), (String.compare c b), (String.compare c a);
    simpl in *; try lia; exfalso; apply H; congruence.
Qed.

(** Of two records one can always stand before the other. *)
Lemma compareRecords_total (column : Column) (direction : string)
  (a b : TrafficRecord) :
  compareRecords column direction a b <= 0 \/
  compareRecords column direction b a <= 0.
Proof.
  unfold compareRecords. cbv zeta.
  destruct (isEmpty (getColumn column a)), (isEmpty (getColumn column b));
    simpl; try lia.
  destruct (String.eqb direction "asc");
    destruct column; simpl; try lia;
    rewrite !string_ltb_compare;
    match goal with
    | |- context [String.compare ?x ?y] =>
        rewrite (String.compare_antisym x y);
        destruct (String.compare y x); simpl; lia
    end.
Qed.

Lemma compareRecords_trans (column : Column) (direction : string)
  (a b c : TrafficRecord) :
  compareRecords column direction a b <= 0 ->
  compareRecords column direction b c <= 0 ->
  compareRecords column direction a c <= 0.
Proof.
  unfold compareRecords. cbv zeta.
  destruct (isEmpty (getColumn column a)), (isEmpty (getColumn column b)),
    (isEmpty (getColumn column c)); simpl; try lia.
  destruct (String.eqb direction "asc");
    destruct column; simpl; try lia;
    rewrite !string_ltb_compare;
    first [apply string_order_trans | apply string_order_trans_desc].
Qed.

(** A stable sort with a consistent comparator leaves its result in
    order, which is what [Array.prototype.sort] guarantees. *)
Lemma insertSorted_sorted {A} (cmp : A -> A -> Z) (x : A) (l : list A) :
  (forall a b, cmp a b <= 0 \/ cmp b a <= 0) ->
  (forall a b c, cmp a b <= 0 -> cmp b c <= 0 -> cmp a c <= 0) ->
  StronglySorted (fun a b => cmp a b <= 0) l ->
  StronglySorted (fun a b => cmp a b <= 0) (insertSorted cmp x l).
Proof.
  intros Htotal Htrans. induction l as [|y l IH]; simpl; intros Hl.
  - constructor; constructor.
  - inversion Hl as [|? ? Hl' Hy]; subst.
    destruct (Z.leb_spec (cmp x y) 0) as [Hle|Hgt].
    + constructor; [exact Hl|]. constructor; [exact Hle|].
      eapply List.Forall_impl; [|exact Hy]. intros z Hz. simpl in Hz.
      eapply Htrans; eassumption.
    + constructor; [apply IH; exact Hl'|].
      eapply Permutation_Forall.
      { symmetry. apply insertSorted_Permutation. }
      constructor; [|exact Hy].
      destruct (Htotal x y) as [H|H]; [lia | exact H].
Qed.

Lemma sortRecords_sorted (column : Column) (direction : string)
  (records : list TrafficRecord) :
  StronglySorted (fun a b => compareRecords column direction a b <= 0)
    (sortRecords column direction records).
Proof.
  unfold sortRecords, arraySort.
  induction records as [|r records IH]; simpl; [constructor|].
  apply insertSorted_sorted;
    [apply compareRecords_total | apply compareRecords_trans | exact IH].
Qed.

(** C7.  [sortRecords] rearranges the records so that, for every column
    and every direction, no record with an empty value in the column
    stands before a record with a non-empty one.  The direction enters
    the comparator only when both values are non-empty, and there every
    direction other than ["asc"] flips the sign of the ascending result. *)
Theorem sortRecords_empty_last (column : Column) (direction : string)
  (records : list TrafficRecord) :
  Permutation (sortRecords column direction records) records /\
  (forall (i j : nat) (ri rj : TrafficRecord),
     sortRecords column direction records !! i = Some ri ->
     sortRecords column direction records !! j = Some rj ->
     (i < j)%nat ->
     isEmpty (getColumn column ri) = true ->
     isEmpty (getColumn column rj) = true) /\
  (forall a b : TrafficRecord,
     isEmpty (getColumn column a) = false ->
     isEmpty (getColumn column b) = false ->
     direction <> "asc" ->
     compareRecords column direction a b
     = - compareRecords column "asc" a b) /\
  (forall a b : TrafficRecord,
     isEmpty (getColumn column a) = true \/
     isEmpty (getColumn column b) = true ->
     compareRecords column direction a b = compareRecords column "asc" a b).
Proof.
  split; [apply arraySort_Permutation|]. split; [|split].
  - intros i j ri rj Hi Hj Hlt Hempty.
    exact (emptiesLast_lookup column _ i j ri rj
             (sortRecords_emptiesLast column direction records)
             Hi Hj Hlt Hempty).
  - intros a b Ha Hb Hdir. unfold compareRecords. cbv zeta.
    rewrite Ha, Hb. simpl.
    destruct (String.eqb_spec direction "asc"); [contradiction|].
    reflexivity.
  - intros a b Hab. unfold compareRecords. cbv zeta.
    destruct (isEmpty (getColumn column a)), (isEmpty (getColumn column b));
      simpl; try reflexivity.
    destruct Hab; discriminate.
Qed.

Lemma sortRecords_empty_last_witness :
  let records :=
    [mkRecord "" "160.79.104.10" 5 5 1 "" "" HTTPS;
     mkRecord "b.com" "" 5 9 3 "" "" DNS;
     mkRecord "A.com" "" 1 2 7 "" "" DNS] in
  Permutation (sortRecords ColUrl "desc" records) records /\
  compareRecords ColUrl "desc"
    (mkRecord "b.com" "" 5 9 3 "" "" DNS) (mkRecord "A.com" "" 1 2 7 "" "" DNS)
  = - compareRecords ColUrl "asc"
        (mkRecord "b.com" "" 5 9 3 "" "" DNS)
        (mkRecord "A.com" "" 1 2 7 "" "" DNS).
Proof.
  intros records.
  destruct (sortRecords_empty_last ColUrl "desc" records)
    as (Hperm & _ & Hflip & _).
  split; [exact Hperm|].
  apply Hflip; [reflexivity | reflexivity | discriminate].
Defined.

(** Descending order still ends with the record that has no url. *)
Example sortRecords_descending :
  map url
    (sortRecords ColUrl "desc"
       [mkRecord "" "160.79.104.10" 5 5 1 "" "" HTTPS;
        mkRecord "b.com" "" 5 9 3 "" "" DNS;
        mkRecord "A.com" "" 1 2 7 "" "" DNS])
  = ["b.com"; "A.com"; ""].
Proof. reflexivity. Qed.

(** ** The daily quota *)

(** C8.  After a usage file has been read, the count in memory is zero
    whenever the day stored in the file is not the current day; a count
    other than zero is the one parsed from a file of two fields whose
    first field is the current day. *)
Theorem loadIpInfoUsage_stale_day (todayStr content path : string)
  (st : State) :
  ipInfoUsagePath st = Some path ->
  (storedDay content <> todayStr ->
   ipInfoDailyCount
     (loadIpInfoUsage todayStr (FileContent (Some content)) st) = 0) /\
  (ipInfoDailyCount
     (loadIpInfoUsage todayStr (FileContent (Some content)) st) <> 0 ->
   storedDay content = todayStr /\
   split pipe (trim content) = [todayStr; field 1 (split pipe (trim content))]
   /\
   ipInfoDailyCount
     (loadIpInfoUsage todayStr (FileContent (Some content)) st)
   = parseIntOrZero (field 1 (split pipe (trim content)))).
Proof.
  intros Hpath. unfold loadIpInfoUsage, storedDay. rewrite Hpath. simpl.
  destruct (negb (truthy content) || negb (truthy (trim content)));
    [split; [reflexivity | intros H; congruence]|].
  destruct (Nat.eqb_spec (length (split pipe (trim content))) 2) as [Hlen|Hlen];
    simpl; [|split; [reflexivity | intros H; congruence]].
  destruct (String.eqb_spec (field 0 (split pipe (trim content))) todayStr)
    as [Hday|Hday]; [|split; [reflexivity | intros H; congruence]].
  split; [intros H; contradiction|]. intros _.
  split; [exact Hday|]. split; [|reflexivity].
  destruct (split pipe (trim content)) as [|a [|b [|c l]]];
    try discriminate. unfold field in *. simpl in *. congruence.
Qed.

Lemma loadIpInfoUsage_stale_day_witness :
  ipInfoDailyCount
    (loadIpInfoUsage "2024-01-02" (FileContent (Some "2024-01-01|999"))
       (mkState "24 hours ago" [] ∅ ∅ "fetch-logs.sh" false ∅ ∅ 1000 7
          (Some "ipinfo_usage.txt") "" true true)) = 0.
Proof.
  refine (proj1 (loadIpInfoUsage_stale_day "2024-01-02" "2024-01-01|999"
                   "ipinfo_usage.txt" _ _) _).
  - reflexivity.
  - discriminate.
Defined.

(** A well-formed usage file [day|count]: the count is used on that day
    only. *)
Lemma usageCount_well_formed (todayStr day count : string) :
  contains pipe day = false -> contains pipe count = false ->
  trim (join pipe [day; count]) = join pipe [day; count] ->
  usageCount todayStr (Some (join pipe [day; count]))
  = if String.eqb day todayStr then parseIntOrZero count else 0.
Proof.
  intros Hday Hcount Htrim. unfold usageCount.
  rewrite Htrim, split_join by (discriminate || (repeat constructor; assumption)).
  assert (Ht : truthy (join pipe [day; count]) = true).
  { simpl. destruct day; reflexivity. }
  rewrite Ht. reflexivity.
Qed.

(** The other ways [loadIpInfoUsage] settles: a missing or blank file and
    a failed read give zero; without a path nothing is read. *)
Lemma loadIpInfoUsage_no_file (todayStr path : string) (st : State) :
  ipInfoUsagePath st = Some path ->
  ipInfoDailyCount (loadIpInfoUsage todayStr (FileContent None) st) = 0 /\
  ipInfoDailyCount (loadIpInfoUsage todayStr ReadFailed st) = 0.
Proof.
  intros Hpath. unfold loadIpInfoUsage. rewrite Hpath. split; reflexivity.
Qed.

(** ** Fetching *)

Section FetchingFacts.

Variable currentYear : string.
Variable dateParse : string -> option Z.

(** C9.  When the collector fails, the [catch] callback shows one message,
    built from the error, and ends the fetch; neither it nor the start of
    the fetch touches the records, the caches or the daily count, and no
    lookup is started. *)
Theorem fetch_failure_keeps_records (error : SpawnError) (st : State) :
  let started := fst (fetchAndRenderData st) in
  let settled := fetchSettled currentYear dateParse (SpawnFailed error) started in
  trafficRecords started = trafficRecords st /\
  trafficRecords (fst settled) = trafficRecords st /\
  errorText (fst settled)
  = "Failed to fetch traffic data: " +:+ errorMessage error /\
  errorHidden (fst settled) = false /\
  isFetching (fst settled) = false /\
  snd settled = [] /\
  reverseDnsCache (fst settled) = reverseDnsCache st /\
  ipInfoCache (fst settled) = ipInfoCache st /\
  ipInfoDailyCount (fst settled) = ipInfoDailyCount st.
Proof.
  unfold fetchAndRenderData, fetchSettled, fetchFailed.
  destruct st as [range records dnsCache dnsPending script fetching
                  infoCache infoPending limit count usagePath text hidden
                  loading].
  destruct fetching; simpl.
  - repeat split; reflexivity.
  - destruct records; simpl; repeat split; reflexivity.
Qed.

End FetchingFacts.

(** The message is the first truthy one of [error.message],
    [error.problem] and [String(error)]. *)
Example fetch_failure_message :
  errorText
    (fst (fetchSettled "2026" (fun _ => None)
            (SpawnFailed (mkError None (Some "not-found") "[object Object]"))
            (mkState "24 hours ago" [mkRecord "github.com" "" 1 2 2 "" "" DNS]
               ∅ ∅ "fetch-logs.sh" true ∅ ∅ 1000 0 None "" true true)))
  = "Failed to fetch traffic data: not-found".
Proof. reflexivity. Qed.

(** ** Reverse DNS enrichment *)

Lemma reverseDnsBody_spec (st : State) (effects : list Effect) (i : nat)
  (r : TrafficRecord) :
  trafficRecords st !! i = Some r ->
  trafficRecords (fst (reverseDnsBody (st, effects) i))
  = <[i := reverseDnsFill (reverseDnsCache st) r]> (trafficRecords st) /\
  reverseDnsCache (fst (reverseDnsBody (st, effects) i)) = reverseDnsCache st /\
  exists new,
    snd (reverseDnsBody (st, effects) i) = effects ++ new /\
    Forall (hostLookupFor (reverseDnsCache st)) new.
Proof.
  intros Hi. unfold reverseDnsBody, reverseDnsFill. rewrite Hi.
  destruct (truthy (address r) && negb (truthy (url r))).
  - unfold performReverseDns. rewrite Hi.
    destruct (reverseDnsCache st !! address r) as [[name|]|] eqn:Hc.
    + destruct (truthy name); simpl.
      * split; [reflexivity|]. split; [reflexivity|].
        exists []. split; [reflexivity | constructor].
      * split; [symmetry; apply list_insert_id; exact Hi|].
        split; [reflexivity|]. exists []. split; [reflexivity | constructor].
    + simpl. split; [symmetry; apply list_insert_id; exact Hi|].
      split; [reflexivity|]. exists []. split; [reflexivity | constructor].
    + destruct (pendingTruthy (pendingDnsLookups st) (address r)); simpl.
      * split; [symmetry; apply list_insert_id; exact Hi|].
        split; [reflexivity|]. exists []. split; [reflexivity | constructor].
      * split; [symmetry; apply list_insert_id; exact Hi|].
        split; [reflexivity|]. eexists. split; [reflexivity|].
        constructor; [|constructor]. exists (address r). auto.
  - simpl. split; [symmetry; apply list_insert_id; exact Hi|].
    split; [reflexivity|]. exists [].
    split; [symmetry; apply app_nil_r | constructor].
Qed.

Lemma map_take_insert {A} (f : A -> A) (l : list A) (j : nat) (x : A) :
  l !! j = Some x ->
  <[j := f x]> (map f (take j l) ++ drop j l)
  = map f (take (S j) l) ++ drop (S j) l.
Proof.
  intros Hj.
  assert (Hlen : length (map f (take j l)) = j).
  { rewrite length_map, length_take. apply lookup_lt_Some in Hj. lia. }
  rewrite (take_S_r _ _ _ Hj), map_app, <- app_assoc. simpl.
  rewrite (drop_S _ _ _ Hj).
  rewrite <- Hlen at 1. rewrite insert_app_r_alt by lia.
  rewrite Nat.sub_diag. reflexivity.
Qed.

Lemma reverseDnsLoop_spec (st : State) (j : nat) :
  (j <= length (trafficRecords st))%nat ->
  trafficRecords (fst (foldl reverseDnsBody (st, []) (seq 0 j)))
  = map (reverseDnsFill (reverseDnsCache st)) (take j (trafficRecords st))
    ++ drop j (trafficRecords st) /\
  reverseDnsCache (fst (foldl reverseDnsBody (st, []) (seq 0 j)))
  = reverseDnsCache st /\
  Forall (hostLookupFor (reverseDnsCache st))
    (snd (foldl reverseDnsBody (st, []) (seq 0 j))).
Proof.
  induction j as [|j IH]; intros Hj.
  - simpl. rewrite drop_0. repeat split. constructor.
  - destruct IH as (Hrec & Hcache & Heff); [lia|].
    rewrite seq_S, foldl_app. simpl.
    destruct (foldl reverseDnsBody (st, []) (seq 0 j)) as [stj effj].
    simpl in Hrec, Hcache, Heff.
    destruct (lookup_lt_is_Some_2 (trafficRecords st) j) as [r Hr]; [lia|].
    assert (Hlook : trafficRecords stj !! j = Some r).
    { rewrite Hrec. rewrite lookup_app_r; rewrite length_map, length_take;
        [|lia].
      replace (j - j `min` length (trafficRecords st))%nat with 0%nat by lia.
      rewrite lookup_drop, Nat.add_0_r. exact Hr. }
    destruct (reverseDnsBody_spec stj effj j r Hlook)
      as (Hrec' & Hcache' & new & Heff' & Hnew).
    rewrite Hrec', Hcache', Heff', Hcache, Hrec.
    split; [apply map_take_insert; exact Hr|]. split; [reflexivity|].
    apply Forall_app. split; [exact Heff|]. rewrite <- Hcache. exact Hnew.
Qed.

(** One pass fills each record from the cache, independently of the
    others, leaves the cache as it is, and starts lookups only for
    addresses that the cache does not hold. *)
Lemma enrichWithReverseDns_spec (st : State) :
  trafficRecords (fst (enrichWithReverseDns st))
  = map (reverseDnsFill (reverseDnsCache st)) (trafficRecords st) /\
  reverseDnsCache (fst (enrichWithReverseDns st)) = reverseDnsCache st /\
  Forall (hostLookupFor (reverseDnsCache st)) (snd (enrichWithReverseDns st)).
Proof.
  unfold enrichWithReverseDns.
  destruct (reverseDnsLoop_spec st (length (trafficRecords st)))
    as (Hrec & Hcache & Heff); [lia|].
  rewrite Hrec, firstn_all, drop_all, app_nil_r. auto.
Qed.

(** ** ipinfo enrichment *)

(** A record that matches the lookup key takes from the result exactly
    the fields it lacks: each field becomes [field || result.field]. *)
Lemma applyToRecord_match (lookupKey : string) (result : IpInfo)
  (r : TrafficRecord) :
  address r = lookupKey \/ url r = lookupKey ->
  applyToRecord lookupKey result r
  = mkRecord (orElse (url r) (hostname result))
             (orElse (address r) (ip result))
             (firstTimestamp r) (lastTimestamp r) (frequency r)
             (orElse (category r) (org result))
             (orElse (data r) (timezone result)) (type r).
Proof.
  intros Hmatch. unfold applyToRecord.
  assert (Hm : String.eqb (address r) lookupKey
               || String.eqb (url r) lookupKey = true).
  { apply orb_true_iff. rewrite !String.eqb_eq. exact Hmatch. }
  rewrite Hm. unfold orElse.
  destruct r as [u a f l n c d t], result as [ri rh ro rt].
  destruct u, rh, a, ri, c, ro, d, rt; reflexivity.
Qed.

Lemma applyToRecord_other (lookupKey : string) (result : IpInfo)
  (r : TrafficRecord) :
  address r <> lookupKey -> url r <> lookupKey ->
  applyToRecord lookupKey result r = r.
Proof.
  intros Ha Hu. unfold applyToRecord.
  apply String.eqb_neq in Ha, Hu. rewrite Ha, Hu. reflexivity.
Qed.

Lemma ipInfoBody_effects (i : nat) (l : IpInfoLoop) :
  sameQuotaAndCache (loop_state l) (loop_state (snd (ipInfoBody i l))) /\
  exists new,
    loop_effects (snd (ipInfoBody i l)) = loop_effects l ++ new /\
    Forall (timerFor (loop_state l)) new.
Proof.
  unfold ipInfoBody, sameQuotaAndCache.
  destruct (trafficRecords (loop_state l) !! i) as [r|]; simpl;
    [|repeat split; exists []; split;
      [symmetry; apply app_nil_r | constructor]].
  destruct (truthy (orElse (address r) (url r)) && negb (truthy (category r)));
    simpl; [|repeat split; exists []; split;
             [symmetry; apply app_nil_r | constructor]].
  destruct (ipInfoCache (loop_state l) !! orElse (address r) (url r))
    as [[cached|]|] eqn:Hc; simpl;
    try (repeat split; exists []; split;
         [symmetry; apply app_nil_r | constructor]).
  destruct (Z.geb_spec (ipInfoDailyCount (loop_state l))
              (ipInfoDailyLimit (loop_state l))); simpl.
  - repeat split; exists []; split;
      [symmetry; apply app_nil_r | constructor].
  - repeat split. eexists. split; [reflexivity|].
    constructor; [|constructor].
    exists (orElse (address r) (url r)), i, (delay l). auto.
Qed.

Lemma timerFor_same (st st' : State) (e : Effect) :
  sameQuotaAndCache st st' -> timerFor st' e -> timerFor st e.
Proof.
  intros (Hc & Hn & Hl) (k & idx & d & -> & Hk & Hlt).
  exists k, idx, d. rewrite <- Hc, <- Hn, <- Hl. auto.
Qed.

Lemma ipInfoLoop_effects (indices : list nat) (l : IpInfoLoop) :
  sameQuotaAndCache (loop_state l) (loop_state (ipInfoLoop indices l)) /\
  exists new,
    loop_effects (ipInfoLoop indices l) = loop_effects l ++ new /\
    Forall (timerFor (loop_state l)) new.
Proof.
  revert l. induction indices as [|i indices IH]; intros l; simpl.
  - split; [repeat split|]. exists [].
    split; [symmetry; apply app_nil_r | constructor].
  - destruct (ipInfoBody_effects i l) as (Hsame & new & Hnew & Hall).
    destruct (ipInfoBody i l) as [[] l']; simpl in *.
    + destruct (IH l') as (Hsame' & new' & Hnew' & Hall').
      split.
      { destruct Hsame as (? & ? & ?), Hsame' as (? & ? & ?).
        repeat split; congruence. }
      exists (new ++ new'). rewrite Hnew', Hnew, app_assoc.
      split; [reflexivity|]. apply Forall_app. split; [exact Hall|].
      eapply Forall_impl; [exact Hall'|].
      intros e. apply timerFor_same. exact Hsame.
    + split; [exact Hsame|]. exists new. auto.
Qed.

(** Every effect of a pass is a timer for an uncached key or the final
    re-render; the pass itself starts no external command. *)
Lemma enrichWithIpInfo_effects (st : State) (e : Effect) :
  e ∈ snd (enrichWithIpInfo st) -> timerFor st e \/ e = RenderTable.
Proof.
  unfold enrichWithIpInfo. simpl.
  destruct (ipInfoLoop_effects (seq 0 (length (trafficRecords st)))
              (mkLoop st [] false 0)) as (_ & new & Hnew & Hall).
  rewrite Hnew. simpl. intros Hin.
  apply elem_of_app in Hin as [Hin | Hin].
  - left. rewrite Forall_forall in Hall. apply Hall. exact Hin.
  - right. destruct (hadCachedResults _); [|inversion Hin].
    apply list_elem_of_singleton in Hin. exact Hin.
Qed.

(** The quota gate: with the daily count at the limit a pass sets no
    timer, and a timer that fires starts no lookup. *)
Lemma quota_reached_no_lookup (st : State) :
  ipInfoDailyLimit st <= ipInfoDailyCount st ->
  (forall e, e ∈ snd (enrichWithIpInfo st) -> e = RenderTable) /\
  (forall lookupKey recordIndex argv,
     Spawn argv ∉ snd (performIpInfoLookup lookupKey recordIndex st)).
Proof.
  intros Hfull. split.
  - intros e Hin.
    destruct (enrichWithIpInfo_effects st e Hin)
      as [(k & idx & d & _ & _ & Hlt) | ->]; [lia | reflexivity].
  - intros k idx argv. unfold performIpInfoLookup.
    destruct (ipInfoCache st !! k) as [[cached|]|]; simpl;
      try solve [intros Hin; inversion Hin].
    destruct (pendingTruthy (pendingIpInfoLookups st) k); simpl;
      [intros Hin; inversion Hin|].
    destruct (Z.geb_spec (ipInfoDailyCount st) (ipInfoDailyLimit st));
      [intros Hin; inversion Hin | lia].
Qed.

(** No lookup is started under a name that [Object.prototype] defines:
    the in-flight test reads the inherited property and takes the key for
    pending.  Hence a cache never holds such a name as an own property. *)
Lemma lookups_avoid_prototype_names (key : string) (recordIndex : nat)
  (st : State) :
  key ∈ objectPrototypeNames ->
  (forall argv, Spawn argv ∉ snd (performReverseDns key recordIndex st)) /\
  (forall argv, Spawn argv ∉ snd (performIpInfoLookup key recordIndex st)).
Proof.
  intros Hname.
  assert (Hpending : forall pending, pendingTruthy pending key = true).
  { intros pending. unfold pendingTruthy.
    rewrite (bool_decide_eq_true_2 _ Hname). apply orb_true_r. }
  split; intros argv.
  - unfold performReverseDns.
    destruct (reverseDnsCache st !! key) as [[name|]|].
    + destruct (trafficRecords st !! recordIndex); [|intros H; inversion H].
      destruct (truthy name); intros H; inversion H.
    + intros H; inversion H.
    + rewrite Hpending. intros H; inversion H.
  - unfold performIpInfoLookup.
    destruct (ipInfoCache st !! key) as [[cached|]|];
      try solve [intros H; inversion H].
    rewrite Hpending. intros H; inversion H.
Qed.

(** Reverse DNS, a whole pass: every record whose address is a key that
    the cache holds a name for has a url afterwards, its own if it had
    one and the cached name otherwise (each url-less record with that
    address reaches the cached branch of [performReverseDns] under its own
    index), and the pass starts no [host] command for the key. *)
Lemma enrichWithReverseDns_applies_cached (st : State) (k name : string) :
  reverseDnsCache st !! k = Some (Some name) ->
  truthy name = true -> truthy k = true ->
  (forall (i : nat) (r : TrafficRecord),
     trafficRecords st !! i = Some r -> address r = k ->
     trafficRecords (fst (enrichWithReverseDns st)) !! i
     = Some (if truthy (url r) then r else set_url name r)) /\
  (Spawn ["host"; k] ∉ snd (enrichWithReverseDns st)).
Proof.
  intros Hcache Hname Hk.
  destruct (enrichWithReverseDns_spec st) as (Hrec & _ & Heff).
  split.
  - intros i r Hi Haddr. rewrite Hrec, list_lookup_fmap, Hi. simpl.
    f_equal. unfold reverseDnsFill. rewrite Haddr, Hk, Hcache, Hname.
    destruct (truthy (url r)); reflexivity.
  - intros Hspawn. rewrite Forall_forall in Heff.
    destruct (Heff _ Hspawn) as (ipAddress & [= ->] & Hnone).
    congruence.
Qed.


(** C3 fails on the code, by the defect of C4.  The second record lacks
    an owner and its lookup key is in the cache with a value, but the
    daily count is at the limit and the first record needs a lookup that
    the cache cannot serve: the loop of [enrichWithIpInfo] leaves at the
    first record, the pass returns the state as it was, and the cached
    value is not applied.  The same records in the other order, and the
    timer callback for the key on the same state, do apply it. *)
Theorem cached_key_skipped_after_break :
  let first := mkRecord "" "160.79.104.10" 5 5 1 "" "" HTTPS in
  let second := mkRecord "b.example" "" 5 9 3 "" "" DNS in
  let cached := mkIpInfo "192.0.2.7" "" "Example Org" "UTC" in
  let filled := mkRecord "b.example" "192.0.2.7" 5 9 3 "Example Org" "UTC" DNS in
  let state records :=
    mkState "24 hours ago" records ∅ ∅ "fetch-logs.sh" false
      {["b.example" := Some cached]} ∅ 1000 1000 None "" true true in
  ipInfoCache (state [first; second]) !! orElse (address second) (url second)
  = Some (Some cached) /\
  category second = "" /\
  applyToRecord "b.example" cached second = filled /\
  enrichWithIpInfo (state [first; second]) = (state [first; second], []) /\
  enrichWithIpInfo (state [second; first])
  = (state [filled; first], [RenderTable]) /\
  performIpInfoLookup "b.example" 1 (state [first; second])
  = (state [first; filled], []).
Proof. repeat split; vm_compute; reflexivity. Qed.

(** C4 fails on the code.  The daily count is at the limit; the first
    record needs a lookup that the cache cannot serve, the second one has
    its key in the cache.  The loop of [enrichWithIpInfo] leaves at the
    first record, and the second record stays without owner.  One request
    below the limit, the same pass fills it. *)
Theorem quota_break_skips_cached_records :
  let first := mkRecord "" "160.79.104.10" 5 5 1 "" "" HTTPS in
  let second := mkRecord "b.example" "" 5 9 3 "" "" DNS in
  let state count :=
    mkState "24 hours ago" [first; second] ∅ ∅ "fetch-logs.sh" false
      {["b.example" := Some (mkIpInfo "192.0.2.7" "" "Example Org" "UTC")]} ∅
      1000 count None "" true true in
  enrichWithIpInfo (state 1000) = (state 1000, []) /\
  trafficRecords (fst (enrichWithIpInfo (state 1000))) !! 1%nat = Some second /\
  trafficRecords (fst (enrichWithIpInfo (state 999))) !! 1%nat
  = Some (mkRecord "b.example" "192.0.2.7" 5 9 3 "Example Org" "UTC" DNS) /\
  snd (enrichWithIpInfo (state 999))
  = [SetTimeout "160.79.104.10" 0 0; RenderTable].
Proof. repeat split; vm_compute; reflexivity. Qed.

(** ** Enrichment only fills *)

Lemma fillsOnly_refl (r : TrafficRecord) : fillsOnly r r.
Proof. unfold fillsOnly. auto. Qed.

Lemma fillsOnly_trans (r1 r2 r3 : TrafficRecord) :
  fillsOnly r1 r2 -> fillsOnly r2 r3 -> fillsOnly r1 r3.
Proof.
  unfold fillsOnly. intros (Hu & Ha & Hc & Hd) (Hu' & Ha' & Hc' & Hd').
  repeat split; intros H.
  - rewrite <- (Hu H). apply Hu'. rewrite (Hu H). exact H.
  - rewrite <- (Ha H). apply Ha'. rewrite (Ha H). exact H.
  - rewrite <- (Hc H). apply Hc'. rewrite (Hc H). exact H.
  - rewrite <- (Hd H). apply Hd'. rewrite (Hd H). exact H.
Qed.

Lemma fillsOnly_all_refl (l : list TrafficRecord) : Forall2 fillsOnly l l.
Proof. induction l; constructor; auto using fillsOnly_refl. Qed.

Lemma fillsOnly_all_trans (l1 l2 l3 : list TrafficRecord) :
  Forall2 fillsOnly l1 l2 -> Forall2 fillsOnly l2 l3 -> Forall2 fillsOnly l1 l3.
Proof.
  intros H12. revert l3. induction H12 as [|r1 r2 l1 l2 Hr H12 IH];
    intros l3 H23; inversion H23; subst; constructor.
  - eapply fillsOnly_trans; eassumption.
  - apply IH. assumption.
Qed.

Lemma fillsOnly_all_map (f : TrafficRecord -> TrafficRecord)
  (l : list TrafficRecord) :
  (forall r, fillsOnly r (f r)) -> Forall2 fillsOnly l (map f l).
Proof. intros Hf. induction l; simpl; constructor; auto. Qed.

Lemma fillsOnly_set_url (name : string) (r : TrafficRecord) :
  truthy (url r) = false -> fillsOnly r (set_url name r).
Proof.
  intros Hu. apply truthy_false_iff in Hu.
  unfold fillsOnly. simpl. repeat split; auto. intros H. contradiction.
Qed.

Lemma fillsOnly_reverseDnsFill (cache : gmap string (option string))
  (r : TrafficRecord) : fillsOnly r (reverseDnsFill cache r).
Proof.
  unfold reverseDnsFill.
  destruct (truthy (address r)), (truthy (url r)) eqn:Hu; simpl;
    try apply fillsOnly_refl.
  destruct (cache !! address r) as [[name|]|]; try apply fillsOnly_refl.
  destruct (truthy name); [|apply fillsOnly_refl].
  apply fillsOnly_set_url. exact Hu.
Qed.

Lemma fillsOnly_fillHostname (ipAddress name : string) (r : TrafficRecord) :
  fillsOnly r (fillHostname ipAddress name r).
Proof.
  unfold fillHostname.
  destruct (String.eqb (address r) ipAddress), (truthy (url r)) eqn:Hu; simpl;
    try apply fillsOnly_refl.
  apply fillsOnly_set_url. exact Hu.
Qed.

Lemma fillsOnly_applyToRecord (lookupKey : string) (result : IpInfo)
  (r : TrafficRecord) : fillsOnly r (applyToRecord lookupKey result r).
Proof.
  destruct (string_dec (address r) lookupKey) as [Ha|Ha];
    [|destruct (string_dec (url r) lookupKey) as [Hu|Hu]].
  - rewrite applyToRecord_match by (left; exact Ha).
    unfold fillsOnly, orElse. simpl.
    destruct (url r), (address r), (category r), (data r); simpl;
      repeat split; congruence.
  - rewrite applyToRecord_match by (right; exact Hu).
    unfold fillsOnly, orElse. simpl.
    destruct (url r), (address r), (category r), (data r); simpl;
      repeat split; congruence.
  - rewrite applyToRecord_other by assumption. apply fillsOnly_refl.
Qed.

Lemma fillsOnly_applyIpInfoResult (lookupKey : string) (result : IpInfo)
  (st : State) :
  Forall2 fillsOnly (trafficRecords st)
    (trafficRecords (applyIpInfoResult lookupKey result st)).
Proof.
  unfold applyIpInfoResult. simpl.
  apply fillsOnly_all_map. intros r. apply fillsOnly_applyToRecord.
Qed.

Lemma fillsOnly_ipInfoBody (i : nat) (l : IpInfoLoop) :
  Forall2 fillsOnly (trafficRecords (loop_state l))
    (trafficRecords (loop_state (snd (ipInfoBody i l)))).
Proof.
  unfold ipInfoBody.
  destruct (trafficRecords (loop_state l) !! i) as [r|];
    [|apply fillsOnly_all_refl].
  destruct (truthy (orElse (address r) (url r)) && negb (truthy (category r)));
    [|apply fillsOnly_all_refl].
  destruct (ipInfoCache (loop_state l) !! orElse (address r) (url r))
    as [[cached|]|]; simpl.
  - apply fillsOnly_applyIpInfoResult.
  - apply fillsOnly_all_refl.
  - destruct (ipInfoDailyCount (loop_state l) >=? ipInfoDailyLimit (loop_state l));
      apply fillsOnly_all_refl.
Qed.

Lemma fillsOnly_ipInfoLoop (indices : list nat) (l : IpInfoLoop) :
  Forall2 fillsOnly (trafficRecords (loop_state l))
    (trafficRecords (loop_state (ipInfoLoop indices l))).
Proof.
  revert l. induction indices as [|i indices IH]; intros l; simpl.
  - apply fillsOnly_all_refl.
  - pose proof (fillsOnly_ipInfoBody i l) as Hbody.
    destruct (ipInfoBody i l) as [[] l']; simpl in Hbody.
    + eapply fillsOnly_all_trans; [exact Hbody | apply IH].
    + exact Hbody.
Qed.

Lemma fillsOnly_enrichment (st st' : State) :
  enrichment st st' ->
  Forall2 fillsOnly (trafficRecords st) (trafficRecords st').
Proof.
  intros Hstep. destruct Hstep.
  - destruct (enrichWithReverseDns_spec st) as (-> & _).
    apply fillsOnly_all_map. intros r. apply fillsOnly_reverseDnsFill.
  - unfold reverseDnsSettled.
    destruct outcome as [[name|]|]; simpl; try apply fillsOnly_all_refl.
    destruct (truthy name); simpl; [|apply fillsOnly_all_refl].
    apply fillsOnly_all_map. intros r. apply fillsOnly_fillHostname.
  - unfold enrichWithIpInfo. simpl.
    apply (fillsOnly_ipInfoLoop _ (mkLoop st [] false 0)).
  - unfold performIpInfoLookup.
    destruct (ipInfoCache st !! lookupKey) as [[cached|]|]; simpl.
    + apply fillsOnly_applyIpInfoResult.
    + apply fillsOnly_all_refl.
    + destruct (pendingTruthy (pendingIpInfoLookups st) lookupKey);
        [apply fillsOnly_all_refl|].
      destruct (ipInfoDailyCount st >=? ipInfoDailyLimit st);
        apply fillsOnly_all_refl.
  - unfold ipInfoSettled. destruct outcome; simpl;
      try apply fillsOnly_all_refl.
    apply fillsOnly_all_map. intros r. apply fillsOnly_applyToRecord.
Qed.

(** C6.  However often and in whatever order the enrichment code runs,
    the records stay in place and every url, address, owner and timezone
    that was non-empty keeps its value. *)
Theorem enrichment_never_overwrites (st st' : State) :
  rtc enrichment st st' ->
  Forall2 fillsOnly (trafficRecords st) (trafficRecords st').
Proof.
  intros Hrun. induction Hrun as [st | st st1 st2 Hstep _ IH].
  - apply fillsOnly_all_refl.
  - eapply fillsOnly_all_trans; [|exact IH].
    apply fillsOnly_enrichment. exact Hstep.
Qed.

Lemma enrichment_never_overwrites_witness :
  let st :=
    mkState "24 hours ago"
      [mkRecord "" "160.79.104.10" 5 5 1 "" "" HTTPS;
       mkRecord "cdn.example.com" "160.79.104.10" 1 2 2 "" "" DNS]
      ∅ ∅ "fetch-logs.sh" false ∅ ∅ 1000 0 None "" true true in
  Forall2 fillsOnly (trafficRecords st)
    (trafficRecords
       (fst (ipInfoSettled "2024-01-02" "160.79.104.10"
               (IpInfoJson (mkIpInfo "160.79.104.10" "other.example"
                              "Example Org" "UTC"))
               (fst (reverseDnsSettled "160.79.104.10"
                       (HostOutput (Some "host.example")) st))))).
Proof.
  intros st. apply enrichment_never_overwrites.
  eapply rtc_l; [apply enrich_reverseDnsSettled|].
  eapply rtc_l; [apply enrich_ipInfoSettled|].
  apply rtc_refl.
Defined.

(** * Further properties *)

(** ** Lines of the collector's output *)

Lemma append_empty_r (s : string) : s +:+ "" = s.
Proof.
  induction s as [|c s IH]; [reflexivity|].
  change (String c (s +:+ "") = String c s). rewrite IH. reflexivity.
Qed.

Lemma append_assoc (a b c : string) : (a +:+ b) +:+ c = a +:+ (b +:+ c).
Proof.
  induction a as [|x a IH]; [reflexivity|].
  change (String x ((a +:+ b) +:+ c) = String x (a +:+ (b +:+ c))).
  rewrite IH. reflexivity.
Qed.

Lemma prependFirst_empty (l : list string) : l <> [] -> prependFirst "" l = l.
Proof. destruct l; [congruence | reflexivity]. Qed.

Lemma prependFirst_prependFirst (p q : string) (l : list string) :
  prependFirst p (prependFirst q l) = prependFirst (p +:+ q) l.
Proof.
  destruct l as [|h t]; simpl; [reflexivity|]. rewrite append_assoc. reflexivity.
Qed.

Lemma split_cons_other (sep c : ascii) (s : string) :
  Ascii.eqb c sep = false ->
  split sep (String c s) = prependFirst (String c "") (split sep s).
Proof. intros H. simpl. rewrite H. destruct (split sep s); reflexivity. Qed.

Lemma split_cons_sep (sep : ascii) (s : string) :
  split sep (String sep s) = "" :: split sep s.
Proof. simpl. rewrite Ascii.eqb_refl. reflexivity. Qed.

(** Splitting distributes over a separator between two texts. *)
Lemma split_app (sep : ascii) (a b : string) :
  split sep (a +:+ String sep b) = split sep a ++ split sep b.
Proof.
  induction a as [|c a IH]; simpl.
  - rewrite Ascii.eqb_refl. reflexivity.
  - destruct (Ascii.eqb c sep); [rewrite IH; reflexivity|].
    rewrite IH. pose proof (split_not_nil sep a) as Hne.
    destruct (split sep a); [congruence | reflexivity].
Qed.

Lemma trimEnd_empty_iff (s : string) : trimEnd s = "" <-> allWhite s = true.
Proof.
  induction s as [|c s IH]; simpl; [tauto|].
  destruct (trimEnd s) eqn:Ht.
  - destruct (isWhiteSpace c); simpl; [tauto|]. split; discriminate.
  - split; [discriminate|]. intros H. apply andb_true_iff in H as [_ H].
    apply IH in H. discriminate.
Qed.

Lemma trimStart_allWhite (s : string) : allWhite s = true -> trimStart s = "".
Proof.
  induction s as [|c s IH]; simpl; [reflexivity|].
  intros H. apply andb_true_iff in H as [Hc Hs]. rewrite Hc. auto.
Qed.

Lemma trimEnd_snoc_white (q : string) (c : ascii) :
  isWhiteSpace c = true -> trimEnd (q +:+ String c "") = trimEnd q.
Proof.
  intros Hc. induction q as [|x q IH]; simpl.
  - rewrite Hc. reflexivity.
  - rewrite IH. reflexivity.
Qed.

Lemma trimStart_app (p q : string) :
  trimStart (p +:+ q)
  = match trimStart p with
    | EmptyString => trimStart q
    | t => t +:+ q
    end.
Proof.
  induction p as [|c p IH]; simpl; [reflexivity|].
  destruct (isWhiteSpace c); [exact IH | reflexivity].
Qed.

Lemma trim_snoc_white (p : string) (c : ascii) :
  isWhiteSpace c = true -> trim (p +:+ String c "") = trim p.
Proof.
  intros Hc. unfold trim. rewrite trimStart_app.
  destruct (trimStart p) as [|x t] eqn:Hp.
  - simpl. rewrite Hc. reflexivity.
  - apply (trimEnd_snoc_white (String x t) c Hc).
Qed.

(** A trimmed text has no white space left at either end. *)
Lemma trimStart_trimStart (s : string) : trimStart (trimStart s) = trimStart s.
Proof.
  induction s as [|c s IH]; simpl; [reflexivity|].
  destruct (isWhiteSpace c) eqn:Hc; [exact IH|]. simpl. rewrite Hc. reflexivity.
Qed.

Lemma trimEnd_trimEnd (s : string) : trimEnd (trimEnd s) = trimEnd s.
Proof.
  induction s as [|c s IH]; simpl; [reflexivity|].
  destruct (trimEnd s) as [|x t] eqn:Ht.
  - destruct (isWhiteSpace c) eqn:Hc; simpl; [reflexivity|].
    rewrite Hc. reflexivity.
  - simpl in *. rewrite IH. reflexivity.
Qed.

Lemma trimStart_trimEnd (s : string) :
  trimStart s = s -> trimStart (trimEnd s) = trimEnd s.
Proof.
  destruct s as [|c s]; simpl; [reflexivity|].
  destruct (isWhiteSpace c) eqn:Hc.
  - intros H. exfalso.
    assert (Hlen : forall u, (String.length (trimStart u) <= String.length u)%nat).
    { induction u as [|y u IHu]; simpl; [lia|].
      destruct (isWhiteSpace y); simpl; lia. }
    pose proof (Hlen s) as Hl. rewrite H in Hl. simpl in Hl. lia.
  - intros _. destruct (trimEnd s); simpl; rewrite Hc; reflexivity.
Qed.

Lemma trim_trim (s : string) : trim (trim s) = trim s.
Proof.
  unfold trim.
  rewrite (trimStart_trimEnd (trimStart s)) by apply trimStart_trimStart.
  apply trimEnd_trimEnd.
Qed.

Lemma omap_cons_eq {A B} (f : A -> option B) (x y : A) (l : list A) :
  f x = f y -> omap f (x :: l) = omap f (y :: l).
Proof. intros H. simpl. rewrite H. reflexivity. Qed.

Lemma omap_cons_None {A B} (f : A -> option B) (x : A) (l : list A) :
  f x = None -> omap f (x :: l) = omap f l.
Proof. intros H. simpl. rewrite H. reflexivity. Qed.

Section LinesOfOutput.

Variable currentYear : string.
Variable dateParse : string -> option Z.

Lemma parseLine_trim_eq (a b : string) :
  trim a = trim b ->
  parseLine currentYear dateParse a = parseLine currentYear dateParse b.
Proof. intros H. unfold parseLine. rewrite H. reflexivity. Qed.

Lemma parseLine_blank (s : string) :
  allWhite s = true -> parseLine currentYear dateParse s = None.
Proof.
  intros H. unfold parseLine, trim.
  rewrite (trimStart_allWhite s H). reflexivity.
Qed.

Lemma parseLines_prepend_white (c : ascii) (l : list string) :
  isWhiteSpace c = true -> l <> [] ->
  omap (parseLine currentYear dateParse) (prependFirst (String c "") l)
  = omap (parseLine currentYear dateParse) l.
Proof.
  intros Hc Hl. destruct l as [|h t]; [congruence|].
  change (prependFirst (String c "") (h :: t)) with (String c h :: t).
  apply omap_cons_eq, parseLine_trim_eq.
  unfold trim. simpl. rewrite Hc. reflexivity.
Qed.

(** Removing the white space in front of the output changes no event. *)
Lemma parseLines_trimStart (s : string) :
  omap (parseLine currentYear dateParse) (split newline (trimStart s))
  = omap (parseLine currentYear dateParse) (split newline s).
Proof.
  induction s as [|c s IH]; [reflexivity|].
  change (trimStart (String c s))
    with (if isWhiteSpace c then trimStart s else String c s).
  destruct (isWhiteSpace c) eqn:Hc; [|reflexivity].
  rewrite IH. destruct (Ascii.eqb c newline) eqn:Hnl.
  - apply Ascii.eqb_eq in Hnl. subst c. rewrite split_cons_sep.
    symmetry. apply omap_cons_None, parseLine_blank. reflexivity.
  - rewrite (split_cons_other _ _ _ Hnl).
    symmetry. apply parseLines_prepend_white; [exact Hc | apply split_not_nil].
Qed.

(** Lines of white space after a text add nothing to its last line. *)
Lemma parseLines_white_tail (w p : string) :
  allWhite w = true ->
  omap (parseLine currentYear dateParse) (prependFirst p (split newline w))
  = omap (parseLine currentYear dateParse) [p].
Proof.
  revert p. induction w as [|c w IH]; intros p Hw.
  - change (prependFirst p (split newline "")) with [p +:+ ""].
    rewrite append_empty_r. reflexivity.
  - simpl in Hw. apply andb_true_iff in Hw as [Hc Hw].
    destruct (Ascii.eqb c newline) eqn:Hnl.
    + apply Ascii.eqb_eq in Hnl. subst c. rewrite split_cons_sep.
      change (prependFirst p ("" :: split newline w))
        with ([p +:+ ""] ++ split newline w).
      rewrite append_empty_r, omap_app.
      rewrite <- (prependFirst_empty (split newline w)) by apply split_not_nil.
      rewrite (IH "" Hw).
      rewrite (omap_cons_None _ "" []) by (apply parseLine_blank; reflexivity).
      apply app_nil_r.
    + rewrite (split_cons_other _ _ _ Hnl), prependFirst_prependFirst.
      rewrite (IH _ Hw).
      apply omap_cons_eq, parseLine_trim_eq, trim_snoc_white. exact Hc.
Qed.

Lemma trimEnd_cons (c : ascii) (s : string) :
  trimEnd (String c s)
  = match trimEnd s with
    | EmptyString =>
        if isWhiteSpace c then EmptyString else String c EmptyString
    | String x t => String c (String x t)
    end.
Proof. reflexivity. Qed.

(** Removing the white space at the end of the output changes no event. *)
Lemma parseLines_trimEnd (s p : string) :
  omap (parseLine currentYear dateParse)
    (prependFirst p (split newline (trimEnd s)))
  = omap (parseLine currentYear dateParse)
      (prependFirst p (split newline s)).
Proof.
  revert p. induction s as [|c s IH]; intros p; [reflexivity|].
  rewrite trimEnd_cons.
  destruct (trimEnd s) as [|x t] eqn:Ht.
  - assert (Hw : allWhite s = true) by (apply trimEnd_empty_iff; exact Ht).
    destruct (isWhiteSpace c) eqn:Hc.
    + symmetry. change (prependFirst p (split newline "")) with [p +:+ ""].
      rewrite append_empty_r. apply parseLines_white_tail.
      simpl. rewrite Hc, Hw. reflexivity.
    + assert (Hnl : Ascii.eqb c newline = false).
      { destruct (Ascii.eqb_spec c newline) as [->|];
          [discriminate | reflexivity]. }
      rewrite !(split_cons_other _ _ _ Hnl), !prependFirst_prependFirst.
      rewrite (parseLines_white_tail s _ Hw).
      change (prependFirst (p +:+ String c "") (split newline ""))
        with [(p +:+ String c "") +:+ ""].
      rewrite append_empty_r. reflexivity.
  - rewrite <- Ht in IH. rewrite <- Ht.
    destruct (Ascii.eqb c newline) eqn:Hnl.
    + apply Ascii.eqb_eq in Hnl. subst c. rewrite !split_cons_sep.
      change (prependFirst p ("" :: split newline (trimEnd s)))
        with ([p +:+ ""] ++ split newline (trimEnd s)).
      change (prependFirst p ("" :: split newline s))
        with ([p +:+ ""] ++ split newline s).
      rewrite !omap_app. f_equal.
      rewrite <- (prependFirst_empty (split newline (trimEnd s)))
        by apply split_not_nil.
      rewrite <- (prependFirst_empty (split newline s)) by apply split_not_nil.
      apply IH.
    + rewrite !(split_cons_other _ _ _ Hnl), !prependFirst_prependFirst.
      apply IH.
Qed.

Lemma parseShellOutput_lines (output : string) :
  parseShellOutput currentYear dateParse output
  = omap (parseLine currentYear dateParse) (split newline output).
Proof.
  assert (Hlines :
            omap (parseLine currentYear dateParse)
              (split newline (trim output))
            = omap (parseLine currentYear dateParse) (split newline output)).
  { unfold trim.
    rewrite <- (prependFirst_empty (split newline (trimEnd (trimStart output))))
      by apply split_not_nil.
    rewrite parseLines_trimEnd.
    rewrite prependFirst_empty by apply split_not_nil.
    apply parseLines_trimStart. }
  unfold parseShellOutput.
  destruct (negb (truthy output) || negb (truthy (trim output))) eqn:Hguard;
    [|exact Hlines].
  assert (Hblank : trim output = "").
  { apply orb_true_iff in Hguard as [H | H]; apply negb_true_iff in H;
      apply truthy_false_iff in H; [subst output; reflexivity | exact H]. }
  rewrite <- Hlines, Hblank. reflexivity.
Qed.

(** The guards and the outer [trim] of [parseShellOutput] change nothing:
    every line of the output is parsed on its own. *)
Theorem parseShellOutput_line_by_line (output : string) :
  parseShellOutput currentYear dateParse output
  = omap (parseLine currentYear dateParse) (split newline output).
Proof. apply parseShellOutput_lines. Qed.

(** The events of two outputs written one after the other, with a line
    break between them, are the events of the first followed by the
    events of the second. *)
Theorem parseShellOutput_concat (first second : string) :
  parseShellOutput currentYear dateParse
    (first +:+ String newline second)
  = parseShellOutput currentYear dateParse first
    ++ parseShellOutput currentYear dateParse second.
Proof.
  rewrite !parseShellOutput_lines, split_app. apply omap_app.
Qed.

(** White space around the timestamp field does not matter. *)
Lemma parseTimestamp_trim (timestampStr : string) :
  parseTimestamp currentYear dateParse (trim timestampStr)
  = parseTimestamp currentYear dateParse timestampStr.
Proof.
  unfold parseTimestamp. rewrite trim_trim.
  destruct timestampStr as [|c s]; [reflexivity|].
  destruct (trim (String c s)); reflexivity.
Qed.

End LinesOfOutput.

(** ** Aggregation on every input *)

Lemma processLog_empty_key (recordMap : JsObject.t TrafficRecord)
  (e : LogEvent) :
  eventKey e = "" -> processLog recordMap e = Normal recordMap.
Proof.
  intros Hkey. unfold processLog. fold (eventKey e). rewrite Hkey. reflexivity.
Qed.

(** Once a record is stored under [hasOwnProperty], every later event
    with a key throws. *)
Lemma processLog_shadowed (recordMap : JsObject.t TrafficRecord)
  (e : LogEvent) :
  JsObject.isOwn "hasOwnProperty" recordMap = true ->
  eventKey e <> "" -> processLog recordMap e = TypeError.
Proof.
  intros Hown Hkey. unfold processLog. fold (eventKey e).
  apply truthy_iff in Hkey. rewrite Hkey. simpl.
  unfold JsObject.hasOwnProperty. rewrite Hown. reflexivity.
Qed.

Lemma processLoop_shadowed (rawLogs : list LogEvent)
  (recordMap : JsObject.t TrafficRecord) :
  JsObject.isOwn "hasOwnProperty" recordMap = true ->
  processLoop recordMap rawLogs = TypeError \/
  processLoop recordMap rawLogs = Normal recordMap.
Proof.
  intros Hown. induction rawLogs as [|e rawLogs IH]; simpl; [auto|].
  destruct (string_dec (eventKey e) "") as [Hkey|Hkey].
  - rewrite (processLog_empty_key _ _ Hkey). exact IH.
  - rewrite (processLog_shadowed _ _ Hown Hkey). auto.
Qed.

Lemma collectRecords_shadowed (recordMap : JsObject.t TrafficRecord) :
  JsObject.isOwn "hasOwnProperty" recordMap = true ->
  collectRecords recordMap = TypeError.
Proof.
  intros Hown. unfold collectRecords.
  destruct (JsObject.ownEntries recordMap) as [|[k v] rest] eqn:Hentries.
  - exfalso. pose proof (ownEntries_Permutation recordMap) as Hperm.
    rewrite Hentries in Hperm. apply Permutation_nil in Hperm. subst.
    discriminate.
  - simpl. unfold JsObject.hasOwnProperty. rewrite Hown. reflexivity.
Qed.

Lemma isOwn_app {V} (k : string) (o1 o2 : JsObject.t V) :
  JsObject.isOwn k (o1 ++ o2) = JsObject.isOwn k o1 || JsObject.isOwn k o2.
Proof. unfold JsObject.isOwn. apply existsb_app. Qed.

Lemma isOwn_update {V} (k k' : string) (f : V -> V) (o : JsObject.t V) :
  JsObject.isOwn k (JsObject.update k' f o) = JsObject.isOwn k o.
Proof.
  destruct (JsObject.isOwn k o) eqn:H.
  - apply isOwn_In. rewrite update_keys. apply isOwn_In. exact H.
  - apply isOwn_false_In. rewrite update_keys. apply isOwn_false_In. exact H.
Qed.

(** One iteration while the method is not shadowed: it does not throw,
    it never stores anything under [__proto__], and it shadows the
    method exactly when the key of the event is [hasOwnProperty]. *)
Lemma processLog_unshadowed (recordMap : JsObject.t TrafficRecord)
  (e : LogEvent) :
  JsObject.isOwn "hasOwnProperty" recordMap = false ->
  JsObject.isOwn "__proto__" recordMap = false ->
  exists recordMap',
    processLog recordMap e = Normal recordMap' /\
    JsObject.isOwn "__proto__" recordMap' = false /\
    (JsObject.isOwn "hasOwnProperty" recordMap' = true
     <-> eventKey e = "hasOwnProperty") /\
    (eventKey e = "__proto__" -> recordMap' = recordMap).
Proof.
  intros Hfree Hproto. unfold processLog. fold (eventKey e).
  destruct (truthy (eventKey e)) eqn:Hkey; simpl.
  - unfold JsObject.hasOwnProperty. rewrite Hfree. simpl.
    destruct (JsObject.isOwn (eventKey e) recordMap) eqn:Hown.
    + eexists. split; [reflexivity|]. rewrite !isOwn_update.
      split; [exact Hproto|]. split.
      * split; [congruence|]. intros Heq. rewrite Heq in Hown. congruence.
      * intros Heq. rewrite Heq in Hown. congruence.
    + unfold JsObject.set. rewrite Hown.
      destruct (String.eqb_spec (eventKey e) "__proto__") as [Heq|Hne].
      * eexists. split; [reflexivity|]. split; [exact Hproto|].
        split; [|reflexivity]. split; [congruence|].
        intros Heq'. rewrite Heq' in Heq. discriminate.
      * eexists. split; [reflexivity|]. rewrite !isOwn_app, Hproto, Hfree.
        simpl. rewrite !orb_false_r. split.
        { apply String.eqb_neq. exact Hne. }
        split; [apply String.eqb_eq | contradiction].
  - apply truthy_false_iff in Hkey. exists recordMap.
    split; [reflexivity|]. split; [exact Hproto|]. split.
    + split; [congruence|]. rewrite Hkey. discriminate.
    + reflexivity.
Qed.

Lemma processLogs_from_shadowed (rawLogs : list LogEvent)
  (recordMap : JsObject.t TrafficRecord) :
  JsObject.isOwn "hasOwnProperty" recordMap = true ->
  bind (processLoop recordMap rawLogs) collectRecords = TypeError.
Proof.
  intros Hown.
  destruct (processLoop_shadowed rawLogs recordMap Hown) as [-> | ->];
    [reflexivity|]. simpl. apply collectRecords_shadowed. exact Hown.
Qed.

Lemma processLogs_from_unshadowed (rawLogs : list LogEvent)
  (recordMap : JsObject.t TrafficRecord) :
  JsObject.isOwn "hasOwnProperty" recordMap = false ->
  JsObject.isOwn "__proto__" recordMap = false ->
  (exists e, In e rawLogs /\ eventKey e = "hasOwnProperty") ->
  bind (processLoop recordMap rawLogs) collectRecords = TypeError.
Proof.
  revert recordMap. induction rawLogs as [|e0 rawLogs IH];
    intros recordMap Hfree Hproto (e & Hin & Hkey); [destruct Hin|].
  destruct (processLog_unshadowed recordMap e0 Hfree Hproto)
    as (m1 & Hstep & Hproto1 & Hshadow & _).
  simpl. rewrite Hstep. simpl.
  destruct (string_dec (eventKey e0) "hasOwnProperty") as [Heq|Hne].
  - apply processLogs_from_shadowed. apply Hshadow. exact Heq.
  - apply IH; [|exact Hproto1|].
    + destruct (JsObject.isOwn "hasOwnProperty" m1) eqn:Hm1; [|reflexivity].
      exfalso. apply Hne. apply Hshadow. reflexivity.
    + destruct Hin as [<- | Hin]; [contradiction|]. eauto.
Qed.

Lemma processLogs_shadowing_event (rawLogs : list LogEvent) :
  (exists e, In e rawLogs /\ eventKey e = "hasOwnProperty") ->
  processLogs rawLogs = TypeError.
Proof.
  intros Hex. unfold processLogs.
  apply processLogs_from_unshadowed; [reflexivity | reflexivity | exact Hex].
Qed.

(** A single event whose key is [hasOwnProperty], anywhere in the input,
    makes [processLogs] throw: no record of the batch is returned. *)
Theorem processLogs_hasOwnProperty_throws (rawLogs : list LogEvent) :
  (exists e, In e rawLogs /\ eventKey e = "hasOwnProperty") ->
  processLogs rawLogs = TypeError.
Proof. apply processLogs_shadowing_event. Qed.

Lemma processLogs_hasOwnProperty_throws_witness :
  processLogs [mkLog DNS 10 "github.com" "";
               mkLog DNS 20 "hasOwnProperty" "";
               mkLog HTTPS 30 "" "160.79.104.10"] = TypeError.
Proof.
  apply processLogs_hasOwnProperty_throws.
  exists (mkLog DNS 20 "hasOwnProperty" ""). split; [|reflexivity].
  right. left. reflexivity.
Defined.

Lemma processLoop_withoutProto (rawLogs : list LogEvent)
  (recordMap : JsObject.t TrafficRecord) :
  JsObject.isOwn "hasOwnProperty" recordMap = false ->
  JsObject.isOwn "__proto__" recordMap = false ->
  (forall e, In e rawLogs -> eventKey e <> "hasOwnProperty") ->
  processLoop recordMap rawLogs = processLoop recordMap (withoutProto rawLogs).
Proof.
  revert recordMap. induction rawLogs as [|e rawLogs IH];
    intros recordMap Hfree Hproto Hall; [reflexivity|].
  destruct (processLog_unshadowed recordMap e Hfree Hproto)
    as (m1 & Hstep & Hproto1 & Hshadow & Hsame).
  assert (Hfree1 : JsObject.isOwn "hasOwnProperty" m1 = false).
  { destruct (JsObject.isOwn "hasOwnProperty" m1) eqn:Hm1; [|reflexivity].
    exfalso. apply (Hall e); [left; reflexivity | apply Hshadow; reflexivity]. }
  unfold withoutProto. simpl.
  destruct (String.eqb_spec (eventKey e) "__proto__") as [Heq|Hne]; simpl.
  - rewrite Hstep. simpl. rewrite (Hsame Heq).
    apply IH; auto. intros e' Hin. apply Hall. right. exact Hin.
  - rewrite Hstep. simpl.
    apply IH; auto. intros e' Hin. apply Hall. right. exact Hin.
Qed.

(** Events keyed [__proto__] leave no trace: [processLogs] returns what it
    returns for the input without them. *)
Theorem processLogs_ignores_proto (rawLogs : list LogEvent) :
  processLogs rawLogs = processLogs (withoutProto rawLogs).
Proof.
  destruct (decide (Exists (fun e => eventKey e = "hasOwnProperty") rawLogs))
    as [Hex | Hno].
  - apply List.Exists_exists in Hex as (e & Hin & Hkey).
    rewrite (processLogs_shadowing_event rawLogs) by eauto.
    symmetry. apply processLogs_shadowing_event.
    exists e. split; [|exact Hkey].
    apply List.filter_In. split; [exact Hin|]. rewrite Hkey. reflexivity.
  - unfold processLogs. rewrite processLoop_withoutProto; auto.
    intros e Hin Hkey. apply Hno. apply List.Exists_exists. eauto.
Qed.

(** ** What a record says about its events *)

Lemma updateExistingRecord_type (n r : TrafficRecord) :
  type (updateExistingRecord n r) = type r.
Proof.
  unfold updateExistingRecord.
  repeat match goal with
         | |- context [if ?c then _ else _] => destruct c; simpl
         end; reflexivity.
Qed.

Lemma updateExistingRecord_category (n r : TrafficRecord) :
  category (updateExistingRecord n r) = category r.
Proof.
  unfold updateExistingRecord.
  repeat match goal with
         | |- context [if ?c then _ else _] => destruct c; simpl
         end; reflexivity.
Qed.

Lemma updateExistingRecord_data (n r : TrafficRecord) :
  data (updateExistingRecord n r) = data r.
Proof.
  unfold updateExistingRecord.
  repeat match goal with
         | |- context [if ?c then _ else _] => destruct c; simpl
         end; reflexivity.
Qed.

Lemma spanned_other (seen : list LogEvent) (e : LogEvent) (k : string)
  (r : TrafficRecord) :
  eventKey e <> k ->
  ((forall e', In e' (eventsWithKey k seen) ->
      firstTimestamp r <= log_timestamp e' <= lastTimestamp r) /\
   (exists e', In e' (eventsWithKey k seen) /\
               log_timestamp e' = firstTimestamp r) /\
   (exists e', In e' (eventsWithKey k seen) /\
               log_timestamp e' = lastTimestamp r) /\
   (exists e' rest, eventsWithKey k seen = e' :: rest /\
                    type r = log_type e') /\
   category r = "" /\ data r = "") ->
  (forall e', In e' (eventsWithKey k (seen ++ [e])) ->
     firstTimestamp r <= log_timestamp e' <= lastTimestamp r) /\
  (exists e', In e' (eventsWithKey k (seen ++ [e])) /\
              log_timestamp e' = firstTimestamp r) /\
  (exists e', In e' (eventsWithKey k (seen ++ [e])) /\
              log_timestamp e' = lastTimestamp r) /\
  (exists e' rest, eventsWithKey k (seen ++ [e]) = e' :: rest /\
                   type r = log_type e') /\
  category r = "" /\ data r = "".
Proof.
  intros Hne H. rewrite (eventsWithKey_snoc_other _ _ _ Hne). exact H.
Qed.

Lemma processLog_spanned (seen : list LogEvent)
  (recordMap : JsObject.t TrafficRecord) (e : LogEvent) :
  plainKey (eventKey e) ->
  aggregated seen recordMap -> spanned seen recordMap ->
  exists recordMap',
    processLog recordMap e = Normal recordMap' /\
    aggregated (seen ++ [e]) recordMap' /\
    spanned (seen ++ [e]) recordMap'.
Proof.
  intros Hplain Hagg Hspan.
  pose proof Hagg as (Hnd & Hent & Hdom & Hfree).
  destruct (string_dec (eventKey e) "") as [Hkey | Hkey].
  { destruct (processLog_no_key seen recordMap e Hkey Hagg) as [Hstep Hagg'].
    exists recordMap. split; [exact Hstep|]. split; [exact Hagg'|].
    intros k r Hin. apply spanned_other; [|apply Hspan; exact Hin].
    destruct (Hent k r Hin) as (_ & Hne & _). congruence. }
  destruct (in_dec string_dec (eventKey e) (map fst recordMap)) as [Hown | Hnew].
  - destruct (processLog_merge seen recordMap e Hkey Hown Hagg)
      as (m' & Hstep & Hagg').
    exists m'. split; [exact Hstep|]. split; [exact Hagg'|].
    assert (Hm' : m' = JsObject.update (eventKey e)
                         (updateExistingRecord (lambdaOf e)) recordMap).
    { unfold processLog in Hstep. fold (eventKey e) in Hstep.
      pose proof Hkey as Ht. apply truthy_iff in Ht.
      rewrite Ht in Hstep. simpl in Hstep.
      unfold JsObject.hasOwnProperty in Hstep.
      pose proof Hfree as Hf. apply isOwn_false_In in Hf.
      rewrite Hf in Hstep. simpl in Hstep.
      pose proof Hown as Ho. apply isOwn_In in Ho. rewrite Ho in Hstep.
      congruence. }
    subst m'. intros k r Hin.
    apply update_In in Hin as [[Hk Hin] | (-> & r0 & Hin & ->)]; [| |exact Hnd].
    + apply spanned_other; [congruence | apply Hspan; exact Hin].
    + destruct (Hspan _ r0 Hin)
        as (Hbound & (e1 & Hin1 & Hfirst) & (e2 & Hin2 & Hlast)
            & (e0 & rest & Hhead & Htype) & Hcat & Hdata).
      rewrite eventsWithKey_snoc, String.eqb_refl.
      rewrite updateExistingRecord_firstTimestamp,
        updateExistingRecord_lastTimestamp, updateExistingRecord_type,
        updateExistingRecord_category, updateExistingRecord_data.
      simpl firstTimestamp. simpl lastTimestamp.
      split; [|split; [|split; [|split; [|split]]]]; auto.
      * intros e' Hin'. apply in_app_or in Hin' as [Hin' | [<- | []]].
        { specialize (Hbound e' Hin'). lia. }
        { specialize (Hbound e1 Hin1). lia. }
      * destruct (Z.le_ge_cases (log_timestamp e) (firstTimestamp r0)).
        { exists e. split; [apply in_or_app; right; left; reflexivity | lia]. }
        { exists e1. split; [apply in_or_app; left; exact Hin1 | lia]. }
      * destruct (Z.le_ge_cases (log_timestamp e) (lastTimestamp r0)).
        { exists e2. split; [apply in_or_app; left; exact Hin2 | lia]. }
        { exists e. split; [apply in_or_app; right; left; reflexivity | lia]. }
      * exists e0, (rest ++ [e]). rewrite Hhead. auto.
  - destruct (processLog_new seen recordMap e Hkey Hplain Hnew Hagg)
      as [Hstep Hagg'].
    eexists. split; [exact Hstep|]. split; [exact Hagg'|].
    intros k r Hin. apply in_app_or in Hin as [Hin | [[= <- <-] | []]].
    + apply spanned_other; [|apply Hspan; exact Hin].
      intros <-. apply Hnew. apply (in_map fst) in Hin. exact Hin.
    + assert (Hnone : eventsWithKey (eventKey e) seen = []).
      { apply eventsWithKey_nil_iff. intros Hex. apply Hnew, Hdom. auto. }
      rewrite eventsWithKey_snoc, String.eqb_refl, Hnone. simpl.
      split; [|split; [|split; [|split; [|split]]]]; auto.
      * intros e' [<- | []]. lia.
      * exists e. auto.
      * exists e. auto.
      * exists e, []. auto.
Qed.

Lemma processLoop_spanned (rawLogs seen : list LogEvent)
  (recordMap : JsObject.t TrafficRecord) :
  Forall (fun e => plainKey (eventKey e)) rawLogs ->
  aggregated seen recordMap -> spanned seen recordMap ->
  exists recordMap',
    processLoop recordMap rawLogs = Normal recordMap' /\
    aggregated (seen ++ rawLogs) recordMap' /\
    spanned (seen ++ rawLogs) recordMap'.
Proof.
  revert seen recordMap.
  induction rawLogs as [|e rawLogs IH]; intros seen recordMap Hall Hagg Hspan.
  - exists recordMap. rewrite app_nil_r. auto.
  - inversion Hall as [|? ? He Hrest]; subst.
    destruct (processLog_spanned seen recordMap e He Hagg Hspan)
      as (m1 & Hstep & Hagg1 & Hspan1).
    destruct (IH (seen ++ [e]) m1 Hrest Hagg1 Hspan1)
      as (m2 & Hloop & Hagg2 & Hspan2).
    exists m2. simpl. rewrite Hstep. simpl.
    rewrite <- app_assoc in Hagg2, Hspan2. auto.
Qed.

(** Everything [processLogs] puts into a record, read off the events with
    the key of the record. *)
Lemma processLogs_records (rawLogs : list LogEvent) :
  Forall (fun e => plainKey (eventKey e)) rawLogs ->
  exists records,
    processLogs rawLogs = Normal records /\
    forall r, In r records ->
      keyOf r <> "" /\
      frequency r = Z.of_nat (length (eventsWithKey (keyOf r) rawLogs)) /\
      (forall e, In e (eventsWithKey (keyOf r) rawLogs) ->
         firstTimestamp r <= log_timestamp e <= lastTimestamp r) /\
      (exists e, In e (eventsWithKey (keyOf r) rawLogs) /\
                 log_timestamp e = firstTimestamp r) /\
      (exists e, In e (eventsWithKey (keyOf r) rawLogs) /\
                 log_timestamp e = lastTimestamp r) /\
      (exists e rest, eventsWithKey (keyOf r) rawLogs = e :: rest /\
                      type r = log_type e) /\
      category r = "" /\ data r = "".
Proof.
  intros Hall.
  destruct (processLoop_spanned rawLogs [] [] Hall aggregated_nil)
    as (m & Hloop & (Hnd & Hent & Hdom & Hfree) & Hspan).
  { intros k r []. }
  simpl in Hent, Hspan.
  destruct (collectRecords_Permutation m) as (records & Hcollect & Hperm).
  { apply isOwn_false_In. exact Hfree. }
  exists records. split.
  { unfold processLogs. rewrite Hloop. exact Hcollect. }
  intros r Hin.
  assert (Hin' : In r (map snd m)).
  { eapply Permutation_in; [exact Hperm | exact Hin]. }
  apply in_map_iff in Hin' as ([k r'] & Heq & Hin'). simpl in Heq. subst r'.
  destruct (Hent k r Hin') as (Hk & Hne & Hfreq). rewrite Hk.
  split; [exact Hne|]. split; [exact Hfreq|]. apply Hspan. exact Hin'.
Qed.

(** The first and last timestamp of a record are the earliest and the
    latest timestamp among the input events with its key, in whatever
    order the events arrive. *)
Theorem processLogs_first_last (rawLogs : list LogEvent) :
  Forall (fun e => plainKey (eventKey e)) rawLogs ->
  exists records,
    processLogs rawLogs = Normal records /\
    forall r, In r records ->
      (forall e, In e rawLogs -> eventKey e = keyOf r ->
         firstTimestamp r <= log_timestamp e <= lastTimestamp r) /\
      (exists e, In e rawLogs /\ eventKey e = keyOf r /\
                 log_timestamp e = firstTimestamp r) /\
      (exists e, In e rawLogs /\ eventKey e = keyOf r /\
                 log_timestamp e = lastTimestamp r).
Proof.
  intros Hall.
  destruct (processLogs_records rawLogs Hall) as (records & Hrun & Hrec).
  exists records. split; [exact Hrun|]. intros r Hin.
  destruct (Hrec r Hin)
    as (_ & _ & Hbound & (e1 & Hin1 & H1) & (e2 & Hin2 & H2) & _).
  unfold eventsWithKey in *. split; [|split].
  - intros e He Hk. apply Hbound. apply List.filter_In.
    split; [exact He | apply String.eqb_eq; exact Hk].
  - apply List.filter_In in Hin1 as [Hin1 Hk1]. apply String.eqb_eq in Hk1.
    eauto.
  - apply List.filter_In in Hin2 as [Hin2 Hk2]. apply String.eqb_eq in Hk2.
    eauto.
Qed.

(** A record keeps the type of the first input event with its key, and
    leaves [processLogs] without owner and timezone. *)
Theorem processLogs_type_of_first (rawLogs : list LogEvent) :
  Forall (fun e => plainKey (eventKey e)) rawLogs ->
  exists records,
    processLogs rawLogs = Normal records /\
    forall r, In r records ->
      (exists e rest, eventsWithKey (keyOf r) rawLogs = e :: rest /\
                      type r = log_type e) /\
      category r = "" /\ data r = "".
Proof.
  intros Hall.
  destruct (processLogs_records rawLogs Hall) as (records & Hrun & Hrec).
  exists records. split; [exact Hrun|]. intros r Hin.
  destruct (Hrec r Hin) as (_ & _ & _ & _ & _ & Htype & Hcat & Hdata). auto.
Qed.

Lemma eventsWithKey_Permutation (k : string) (l l' : list LogEvent) :
  Permutation l l' -> Permutation (eventsWithKey k l) (eventsWithKey k l').
Proof.
  unfold eventsWithKey. intros H.
  induction H as [|x l l' H IH|x y l|l1 l2 l3 H12 IH12 H23 IH23]; simpl.
  - reflexivity.
  - destruct (eventKey x =? k)%string; [constructor|]; exact IH.
  - destruct (eventKey x =? k)%string, (eventKey y =? k)%string;
      try reflexivity. apply perm_swap.
  - etransitivity; eassumption.
Qed.

(** The order in which the events arrive does not matter for what the
    records count and span: on the same events in another order
    [processLogs] returns, for every key, a record with the same
    frequency and the same first and last timestamp. *)
Theorem processLogs_order_insensitive (rawLogs rawLogs' : list LogEvent) :
  Permutation rawLogs rawLogs' ->
  Forall (fun e => plainKey (eventKey e)) rawLogs ->
  exists records records',
    processLogs rawLogs = Normal records /\
    processLogs rawLogs' = Normal records' /\
    forall r, In r records ->
      exists r', In r' records' /\ keyOf r' = keyOf r /\
                 frequency r' = frequency r /\
                 firstTimestamp r' = firstTimestamp r /\
                 lastTimestamp r' = lastTimestamp r.
Proof.
  intros Hperm Hall.
  assert (Hall' : Forall (fun e => plainKey (eventKey e)) rawLogs').
  { eapply Permutation_Forall; eassumption. }
  destruct (processLogs_records rawLogs Hall) as (records & Hrun & Hrec).
  destruct (processLogs_records rawLogs' Hall') as (records' & Hrun' & Hrec').
  destruct (processLogs_plain_keys rawLogs' Hall')
    as (records'' & Hrun'' & _ & Hkeys' & _).
  rewrite Hrun' in Hrun''. injection Hrun'' as <-.
  exists records, records'. split; [exact Hrun|]. split; [exact Hrun'|].
  intros r Hin.
  destruct (Hrec r Hin)
    as (Hne & Hfreq & Hbound & (e1 & Hin1 & H1) & (e2 & Hin2 & H2) & _).
  pose proof (eventsWithKey_Permutation (keyOf r) _ _ Hperm) as Hevs.
  assert (Hkey : In (keyOf r) (map keyOf records')).
  { apply Hkeys'. split; [exact Hne|]. exists e1.
    unfold eventsWithKey in Hin1. apply List.filter_In in Hin1 as [Hi Hk].
    apply String.eqb_eq in Hk. split; [|exact Hk].
    eapply Permutation_in; eassumption. }
  apply in_map_iff in Hkey as (r' & Hk' & Hin').
  exists r'. split; [exact Hin'|]. split; [exact Hk'|].
  destruct (Hrec' r' Hin')
    as (_ & Hfreq' & Hbound' & (e1' & Hin1' & H1') & (e2' & Hin2' & H2') & _).
  rewrite Hk' in *.
  split; [|split].
  - rewrite Hfreq, Hfreq'. f_equal. symmetry.
    apply Permutation_length. exact Hevs.
  - assert (Ha : In e1 (eventsWithKey (keyOf r) rawLogs')).
    { eapply Permutation_in; eassumption. }
    assert (Hb : In e1' (eventsWithKey (keyOf r) rawLogs)).
    { eapply Permutation_in; [symmetry; exact Hevs | exact Hin1']. }
    specialize (Hbound' e1 Ha). specialize (Hbound e1' Hb). lia.
  - assert (Ha : In e2 (eventsWithKey (keyOf r) rawLogs')).
    { eapply Permutation_in; eassumption. }
    assert (Hb : In e2' (eventsWithKey (keyOf r) rawLogs)).
    { eapply Permutation_in; [symmetry; exact Hevs | exact Hin2']. }
    specialize (Hbound' e2 Ha). specialize (Hbound e2' Hb). lia.
Qed.

(** ** What the enrichment passes touch *)

Lemma touchesDns_refl (st : State) : touchesDns st st.
Proof. destruct st; reflexivity. Qed.

Lemma touchesDns_trans (st1 st2 st3 : State) :
  touchesDns st1 st2 -> touchesDns st2 st3 -> touchesDns st1 st3.
Proof.
  unfold touchesDns. intros H12 H23. rewrite H23 at 1. rewrite H12 at 1.
  reflexivity.
Qed.

Lemma touchesRecords_refl (st : State) : touchesRecords st st.
Proof. destruct st; reflexivity. Qed.

Lemma touchesRecords_trans (st1 st2 st3 : State) :
  touchesRecords st1 st2 -> touchesRecords st2 st3 -> touchesRecords st1 st3.
Proof.
  unfold touchesRecords. intros H12 H23. rewrite H23 at 1. rewrite H12 at 1.
  reflexivity.
Qed.

Lemma performReverseDns_touches (ipAddress : string) (recordIndex : nat)
  (st : State) :
  touchesDns st (fst (performReverseDns ipAddress recordIndex st)).
Proof.
  unfold performReverseDns.
  destruct (reverseDnsCache st !! ipAddress) as [[name|]|].
  - destruct (trafficRecords st !! recordIndex); [|apply touchesDns_refl].
    destruct (truthy name); [|apply touchesDns_refl].
    destruct st; reflexivity.
  - destruct (trafficRecords st !! recordIndex); apply touchesDns_refl.
  - destruct (pendingTruthy (pendingDnsLookups st) ipAddress);
      [apply touchesDns_refl | destruct st; reflexivity].
Qed.

Lemma reverseDnsBody_touches (st : State) (effects : list Effect) (i : nat) :
  touchesDns st (fst (reverseDnsBody (st, effects) i)).
Proof.
  unfold reverseDnsBody.
  destruct (trafficRecords st !! i) as [r|]; [|apply touchesDns_refl].
  destruct (truthy (address r) && negb (truthy (url r)));
    [|apply touchesDns_refl].
  pose proof (performReverseDns_touches (address r) i st) as H.
  destruct (performReverseDns (address r) i st). exact H.
Qed.

Lemma reverseDnsLoop_touches (indices : list nat) (st : State)
  (effects : list Effect) :
  touchesDns st (fst (foldl reverseDnsBody (st, effects) indices)).
Proof.
  revert st effects. induction indices as [|i indices IH];
    intros st effects; [apply touchesDns_refl|].
  change (foldl reverseDnsBody (st, effects) (i :: indices))
    with (foldl reverseDnsBody (reverseDnsBody (st, effects) i) indices).
  pose proof (reverseDnsBody_touches st effects i) as H.
  destruct (reverseDnsBody (st, effects) i) as [st1 e1].
  eapply touchesDns_trans; [exact H | apply IH].
Qed.

Lemma enrichWithReverseDns_touches (st : State) :
  touchesDns st (fst (enrichWithReverseDns st)).
Proof. apply reverseDnsLoop_touches. Qed.

Lemma ipInfoBody_touches (i : nat) (l : IpInfoLoop) :
  touchesRecords (loop_state l) (loop_state (snd (ipInfoBody i l))).
Proof.
  unfold ipInfoBody.
  destruct (trafficRecords (loop_state l) !! i) as [r|];
    [|apply touchesRecords_refl].
  destruct (truthy (orElse (address r) (url r)) && negb (truthy (category r)));
    [|apply touchesRecords_refl].
  destruct (ipInfoCache (loop_state l) !! orElse (address r) (url r))
    as [[cached|]|]; simpl;
    [destruct (loop_state l); reflexivity | apply touchesRecords_refl |].
  destruct (ipInfoDailyCount (loop_state l) >=? ipInfoDailyLimit (loop_state l));
    apply touchesRecords_refl.
Qed.

Lemma ipInfoLoop_touches (indices : list nat) (l : IpInfoLoop) :
  touchesRecords (loop_state l) (loop_state (ipInfoLoop indices l)).
Proof.
  revert l. induction indices as [|i indices IH]; intros l; simpl;
    [apply touchesRecords_refl|].
  pose proof (ipInfoBody_touches i l) as H.
  destruct (ipInfoBody i l) as [[] l']; simpl in H; [|exact H].
  eapply touchesRecords_trans; [exact H | apply IH].
Qed.

Lemma enrichWithIpInfo_touches (st : State) :
  touchesRecords st (fst (enrichWithIpInfo st)).
Proof.
  unfold enrichWithIpInfo. simpl.
  apply (ipInfoLoop_touches _ (mkLoop st [] false 0)).
Qed.

(** ** Lookups in flight *)

Lemma pendingTruthy_mono (pending pending' : gset string) (k : string) :
  pending ⊆ pending' ->
  pendingTruthy pending k = true -> pendingTruthy pending' k = true.
Proof.
  unfold pendingTruthy. intros Hsub H. apply orb_true_iff in H as [H | H].
  - apply bool_decide_eq_true in H. apply orb_true_iff. left.
    apply bool_decide_eq_true. set_solver.
  - rewrite H. apply orb_true_r.
Qed.

Lemma reverseDnsBody_pending (st : State) (effects : list Effect) (i : nat) :
  pendingDnsLookups st
  ⊆ pendingDnsLookups (fst (reverseDnsBody (st, effects) i)) /\
  (forall r, trafficRecords st !! i = Some r ->
     truthy (address r) && negb (truthy (url r)) = true ->
     reverseDnsCache st !! address r = None ->
     pendingTruthy (pendingDnsLookups (fst (reverseDnsBody (st, effects) i)))
       (address r) = true).
Proof.
  unfold reverseDnsBody.
  destruct (trafficRecords st !! i) as [r|] eqn:Hi;
    [|split; [reflexivity | discriminate]].
  destruct (truthy (address r) && negb (truthy (url r))) eqn:Hq;
    [|split; [reflexivity | intros r' [= <-]; congruence]].
  unfold performReverseDns. rewrite Hi.
  destruct (reverseDnsCache st !! address r) as [[name|]|] eqn:Hc.
  - destruct (truthy name); simpl;
      (split; [reflexivity | intros r' [= <-]; congruence]).
  - simpl. split; [reflexivity | intros r' [= <-]; congruence].
  - destruct (pendingTruthy (pendingDnsLookups st) (address r)) eqn:Hp; simpl.
    + split; [reflexivity | intros r' [= <-] _ _; exact Hp].
    + split; [set_solver|]. intros r' [= <-] _ _.
      unfold pendingTruthy. apply orb_true_iff. left.
      apply bool_decide_eq_true. set_solver.
Qed.

Lemma reverseDnsLoop_pending (st : State) (j : nat) :
  (j <= length (trafficRecords st))%nat ->
  pendingDnsLookups st
  ⊆ pendingDnsLookups (fst (foldl reverseDnsBody (st, []) (seq 0 j))) /\
  (forall i r, (i < j)%nat -> trafficRecords st !! i = Some r ->
     truthy (address r) && negb (truthy (url r)) = true ->
     reverseDnsCache st !! address r = None ->
     pendingTruthy
       (pendingDnsLookups (fst (foldl reverseDnsBody (st, []) (seq 0 j))))
       (address r) = true).
Proof.
  induction j as [|j IH]; intros Hj.
  - simpl. split; [reflexivity | intros; lia].
  - destruct IH as (Hsub & Hall); [lia|].
    destruct (reverseDnsLoop_spec st j) as (Hrec & Hcache & _); [lia|].
    rewrite seq_S, foldl_app. simpl.
    destruct (foldl reverseDnsBody (st, []) (seq 0 j)) as [stj effj].
    simpl in Hsub, Hall, Hrec, Hcache.
    destruct (reverseDnsBody_pending stj effj j) as (Hsub' & Hnew).
    split; [etransitivity; eassumption|].
    intros i r Hi Hr Hq Hc.
    destruct (decide (i = j)) as [->|Hne].
    + apply Hnew; [|exact Hq | rewrite Hcache; exact Hc].
      rewrite Hrec. rewrite lookup_app_r; rewrite length_map, length_take;
        [|lia].
      replace (j - j `min` length (trafficRecords st))%nat with 0%nat by lia.
      rewrite lookup_drop, Nat.add_0_r. exact Hr.
    + eapply pendingTruthy_mono; [exact Hsub'|].
      apply (Hall i r); [lia | assumption..].
Qed.

(** An iteration that finds nothing to do. *)
Lemma reverseDnsBody_quiet (st : State) (effects : list Effect) (i : nat) :
  (forall r, trafficRecords st !! i = Some r ->
     truthy (address r) && negb (truthy (url r)) = true ->
     match reverseDnsCache st !! address r with
     | Some (Some name) => truthy name = false
     | Some None => True
     | None => pendingTruthy (pendingDnsLookups st) (address r) = true
     end) ->
  reverseDnsBody (st, effects) i = (st, effects).
Proof.
  intros H. unfold reverseDnsBody.
  destruct (trafficRecords st !! i) as [r|] eqn:Hi; [|reflexivity].
  destruct (truthy (address r) && negb (truthy (url r))) eqn:Hq; [|reflexivity].
  specialize (H r eq_refl Hq). unfold performReverseDns. rewrite Hi.
  destruct (reverseDnsCache st !! address r) as [[name|]|].
  - rewrite H. rewrite app_nil_r. reflexivity.
  - rewrite app_nil_r. reflexivity.
  - rewrite H. rewrite app_nil_r. reflexivity.
Qed.

(** A second pass right after a pass finds every address either served
    from the cache or already in flight: it starts no lookup and changes
    nothing. *)
Theorem enrichWithReverseDns_twice (st : State) :
  enrichWithReverseDns (fst (enrichWithReverseDns st))
  = (fst (enrichWithReverseDns st), []).
Proof.
  destruct (enrichWithReverseDns_spec st) as (Hrec & Hcache & _).
  destruct (reverseDnsLoop_pending st (length (trafficRecords st)))
    as (_ & Hpending); [lia|].
  fold (enrichWithReverseDns st) in Hpending.
  set (st1 := fst (enrichWithReverseDns st)) in *.
  assert (Hquiet : forall indices effects,
             foldl reverseDnsBody (st1, effects) indices = (st1, effects)).
  { induction indices as [|i indices IH]; intros effects; [reflexivity|].
    change (foldl reverseDnsBody (st1, effects) (i :: indices))
      with (foldl reverseDnsBody (reverseDnsBody (st1, effects) i) indices).
    rewrite reverseDnsBody_quiet; [apply IH|].
    intros r1 Hi Hq. rewrite Hrec, list_lookup_fmap in Hi.
    destruct (trafficRecords st !! i) as [r|] eqn:Hr; [|discriminate].
    injection Hi as <-. rewrite Hcache.
    assert (Hi' : (i < length (trafficRecords st))%nat).
    { apply lookup_lt_Some in Hr. exact Hr. }
    revert Hq. unfold reverseDnsFill.
    destruct (truthy (address r) && negb (truthy (url r))) eqn:Hq0.
    - destruct (reverseDnsCache st !! address r) as [[name|]|] eqn:Hc.
      + destruct (truthy name) eqn:Hn.
        * simpl. rewrite Hn, andb_false_r. discriminate.
        * rewrite Hc. intros _. exact Hn.
      + rewrite Hc. auto.
      + rewrite Hc. intros _. apply (Hpending i r); auto.
    - intros Hq. congruence. }
  unfold enrichWithReverseDns at 1. apply Hquiet.
Qed.

(** ** Settled lookups are never repeated *)

Lemma cachesGrow_same (st st' : State) :
  reverseDnsCache st' = reverseDnsCache st ->
  ipInfoCache st' = ipInfoCache st -> cachesGrow st st'.
Proof. intros H1 H2. unfold cachesGrow. rewrite H1, H2. auto. Qed.

Lemma cachesGrow_trans (st1 st2 st3 : State) :
  cachesGrow st1 st2 -> cachesGrow st2 st3 -> cachesGrow st1 st3.
Proof. unfold cachesGrow. intros [H1 H2] [H3 H4]. split; auto. Qed.

Lemma touchesDns_caches (st st' : State) :
  touchesDns st st' ->
  reverseDnsCache st' = reverseDnsCache st /\ ipInfoCache st' = ipInfoCache st.
Proof. intros H. rewrite H. split; reflexivity. Qed.

Lemma touchesRecords_caches (st st' : State) :
  touchesRecords st st' ->
  reverseDnsCache st' = reverseDnsCache st /\ ipInfoCache st' = ipInfoCache st.
Proof. intros H. rewrite H. split; reflexivity. Qed.

Lemma enrichment_cachesGrow (st st' : State) :
  enrichment st st' -> cachesGrow st st'.
Proof.
  intros Hstep. destruct Hstep.
  - destruct (touchesDns_caches _ _ (enrichWithReverseDns_touches st)).
    apply cachesGrow_same; assumption.
  - unfold reverseDnsSettled. split; [|destruct outcome as [[name|]|];
      simpl; try destruct (truthy name); simpl; auto].
    intros k Hk.
    destruct outcome as [[name|]|]; simpl; try destruct (truthy name); simpl;
      (destruct (decide (ipAddress = k)) as [->|Hne];
       [rewrite lookup_insert_eq; eauto | rewrite lookup_insert_ne; auto]).
  - destruct (touchesRecords_caches _ _ (enrichWithIpInfo_touches st)).
    apply cachesGrow_same; assumption.
  - unfold performIpInfoLookup.
    destruct (ipInfoCache st !! lookupKey) as [[cached|]|]; simpl;
      try (apply cachesGrow_same; reflexivity).
    destruct (pendingTruthy (pendingIpInfoLookups st) lookupKey);
      [apply cachesGrow_same; reflexivity|].
    destruct (ipInfoDailyCount st >=? ipInfoDailyLimit st);
      apply cachesGrow_same; reflexivity.
  - unfold ipInfoSettled. split; [destruct outcome; simpl; auto|].
    intros k Hk.
    destruct outcome; simpl;
      (destruct (decide (lookupKey = k)) as [->|Hne];
       [rewrite lookup_insert_eq; eauto | rewrite lookup_insert_ne; auto]).
Qed.

Section Sessions.

Variable currentYear : string.
Variable dateParse : string -> option Z.

Lemma fetchSucceeded_caches (output : string) (st : State) :
  reverseDnsCache (fst (fetchSucceeded currentYear dateParse output st))
  = reverseDnsCache st /\
  ipInfoCache (fst (fetchSucceeded currentYear dateParse output st))
  = ipInfoCache st.
Proof.
  unfold fetchSucceeded.
  destruct (processLogs (parseShellOutput currentYear dateParse output))
    as [records|]; [|split; reflexivity].
  pose proof (enrichWithReverseDns_touches (with_trafficRecords records st))
    as H2.
  destruct (enrichWithReverseDns (with_trafficRecords records st))
    as [st2 e2]. simpl in H2.
  pose proof (enrichWithIpInfo_touches st2) as H3.
  destruct (enrichWithIpInfo st2) as [st3 e3]. simpl in H3. simpl.
  apply touchesDns_caches in H2 as [H2a H2b].
  apply touchesRecords_caches in H3 as [H3a H3b].
  rewrite H3a, H3b, H2a, H2b. split; reflexivity.
Qed.

Lemma sessionStep_cachesGrow (st st' : State) :
  sessionStep currentYear dateParse st st' -> cachesGrow st st'.
Proof.
  intros Hstep. destruct Hstep as [st st' He | st | outcome st | today read st].
  - apply enrichment_cachesGrow. exact He.
  - unfold fetchAndRenderData. destruct (isFetching st);
      [apply cachesGrow_same; reflexivity|].
    destruct (trafficRecords (with_isFetching true st));
      apply cachesGrow_same; reflexivity.
  - destruct outcome as [output|error]; simpl.
    + destruct (fetchSucceeded_caches output st).
      apply cachesGrow_same; assumption.
    + apply cachesGrow_same; reflexivity.
  - unfold loadIpInfoUsage. destruct (ipInfoUsagePath st);
      [destruct read|]; apply cachesGrow_same; reflexivity.
Qed.

Lemma session_cachesGrow (st st' : State) :
  rtc (sessionStep currentYear dateParse) st st' -> cachesGrow st st'.
Proof.
  intros Hrun. induction Hrun as [st | st st1 st2 Hstep _ IH].
  - apply cachesGrow_same; reflexivity.
  - eapply cachesGrow_trans; [|exact IH].
    apply sessionStep_cachesGrow. exact Hstep.
Qed.

(** No [host] command is started for an address that the cache holds,
    neither by a pass on its own nor by the passes that end a fetch. *)
Lemma cached_address_not_looked_up (ipAddress : string) (st : State) :
  is_Some (reverseDnsCache st !! ipAddress) ->
  (Spawn ["host"; ipAddress] ∉ snd (enrichWithReverseDns st)) /\
  (forall output,
     Spawn ["host"; ipAddress]
     ∉ snd (fetchSucceeded currentYear dateParse output st)).
Proof.
  intros [v Hv].
  assert (Hpass : forall st0, reverseDnsCache st0 = reverseDnsCache st ->
                    Spawn ["host"; ipAddress] ∉ snd (enrichWithReverseDns st0)).
  { intros st0 Hc Hin.
    destruct (enrichWithReverseDns_spec st0) as (_ & _ & Heff).
    rewrite Forall_forall in Heff.
    destruct (Heff _ Hin) as (ip' & [= <-] & Hnone). congruence. }
  split; [apply Hpass; reflexivity|].
  intros output. unfold fetchSucceeded.
  destruct (processLogs (parseShellOutput currentYear dateParse output))
    as [records|]; [|simpl; apply not_elem_of_nil].
  pose proof (Hpass (with_trafficRecords records st) eq_refl) as H2.
  destruct (enrichWithReverseDns (with_trafficRecords records st))
    as [st2 e2]. simpl in H2.
  pose proof (enrichWithIpInfo_effects st2) as H3.
  destruct (enrichWithIpInfo st2) as [st3 e3]. simpl in H3. simpl.
  intros Hin. apply elem_of_cons in Hin as [Hin | Hin]; [discriminate|].
  apply elem_of_app in Hin as [Hin | Hin]; [contradiction|].
  destruct (H3 _ Hin) as [(k & idx & d & Heq & _) | Heq]; discriminate.
Qed.

(** Once the lookup of an address has settled, with a name, without one
    or with a failure, no later pass of the session looks the address up
    again. *)
Theorem settled_address_never_looked_up_again (ipAddress : string)
  (outcome : HostOutcome) (st st' : State) :
  rtc (sessionStep currentYear dateParse)
    (fst (reverseDnsSettled ipAddress outcome st)) st' ->
  (Spawn ["host"; ipAddress] ∉ snd (enrichWithReverseDns st')) /\
  (forall output,
     Spawn ["host"; ipAddress]
     ∉ snd (fetchSucceeded currentYear dateParse output st')).
Proof.
  intros Hrun. apply cached_address_not_looked_up.
  apply (session_cachesGrow _ _ Hrun).
  unfold reverseDnsSettled.
  destruct outcome as [[name|]|]; simpl; try destruct (truthy name); simpl;
    rewrite lookup_insert_eq; eauto.
Qed.

(** Once the ipinfo lookup of a key has settled, with a result or with a
    failure, no later pass sets a timer for the key and no timer that
    fires for it starts the command again. *)
Theorem settled_key_never_looked_up_again (todayStr lookupKey : string)
  (outcome : IpInfoOutcome) (st st' : State) :
  rtc (sessionStep currentYear dateParse)
    (fst (ipInfoSettled todayStr lookupKey outcome st)) st' ->
  (forall recordIndex d,
     SetTimeout lookupKey recordIndex d ∉ snd (enrichWithIpInfo st')) /\
  (forall recordIndex,
     snd (performIpInfoLookup lookupKey recordIndex st') = []).
Proof.
  intros Hrun.
  assert (Hcached : is_Some (ipInfoCache st' !! lookupKey)).
  { apply (session_cachesGrow _ _ Hrun). unfold ipInfoSettled.
    destruct outcome; simpl; rewrite lookup_insert_eq; eauto. }
  destruct Hcached as [v Hv]. split.
  - intros idx d Hin.
    destruct (enrichWithIpInfo_effects st' _ Hin)
      as [(k & idx' & d' & [= <- _ _] & Hnone & _) | Heq];
      [congruence | discriminate].
  - intros idx. unfold performIpInfoLookup. rewrite Hv.
    destruct v; reflexivity.
Qed.

End Sessions.

(** ** The daily count *)

Lemma touchesRecords_quota (st st' : State) :
  touchesRecords st st' ->
  ipInfoDailyCount st' = ipInfoDailyCount st /\
  ipInfoDailyLimit st' = ipInfoDailyLimit st.
Proof. intros H. rewrite H. split; reflexivity. Qed.

Lemma touchesDns_quota (st st' : State) :
  touchesDns st st' ->
  ipInfoDailyCount st' = ipInfoDailyCount st /\
  ipInfoDailyLimit st' = ipInfoDailyLimit st.
Proof. intros H. rewrite H. split; reflexivity. Qed.

Lemma enrichment_count (st st' : State) :
  enrichment st st' ->
  ipInfoDailyLimit st' = ipInfoDailyLimit st /\
  ipInfoDailyCount st <= ipInfoDailyCount st' <= ipInfoDailyCount st + 1.
Proof.
  intros Hstep. destruct Hstep.
  - destruct (touchesDns_quota _ _ (enrichWithReverseDns_touches st)). lia.
  - unfold reverseDnsSettled.
    destruct outcome as [[name|]|]; simpl; try destruct (truthy name); simpl;
      lia.
  - destruct (touchesRecords_quota _ _ (enrichWithIpInfo_touches st)). lia.
  - unfold performIpInfoLookup.
    destruct (ipInfoCache st !! lookupKey) as [[cached|]|]; simpl; try lia.
    destruct (pendingTruthy (pendingIpInfoLookups st) lookupKey); simpl;
      [lia|].
    destruct (ipInfoDailyCount st >=? ipInfoDailyLimit st); simpl; lia.
  - unfold ipInfoSettled. destruct outcome; simpl; lia.
Qed.

(** While enrichment runs the daily limit stays as it is and the daily
    count never goes down. *)
Theorem enrichment_count_never_decreases (st st' : State) :
  rtc enrichment st st' ->
  ipInfoDailyLimit st' = ipInfoDailyLimit st /\
  ipInfoDailyCount st <= ipInfoDailyCount st'.
Proof.
  intros Hrun. induction Hrun as [st | st st1 st2 Hstep _ IH].
  - split; [reflexivity | lia].
  - destruct (enrichment_count _ _ Hstep) as [Hl Hc]. destruct IH as [Hl' Hc'].
    split; [congruence | lia].
Qed.

(** The gate does not count the lookups that are in flight.  With one
    request left, two timers that fire for two new keys both start their
    command, and when both commands have answered the count is one above
    the limit. *)
Theorem quota_overshoot (todayStr k1 k2 : string) (i1 i2 : nat)
  (r1 r2 : IpInfo) (st : State) :
  k1 <> k2 ->
  ipInfoCache st !! k1 = None -> ipInfoCache st !! k2 = None ->
  pendingTruthy (pendingIpInfoLookups st) k1 = false ->
  pendingTruthy (pendingIpInfoLookups st) k2 = false ->
  ipInfoDailyCount st + 1 = ipInfoDailyLimit st ->
  let fired1 := performIpInfoLookup k1 i1 st in
  let fired2 := performIpInfoLookup k2 i2 (fst fired1) in
  let answered1 := ipInfoSettled todayStr k1 (IpInfoJson r1) (fst fired2) in
  let answered2 :=
    ipInfoSettled todayStr k2 (IpInfoJson r2) (fst answered1) in
  snd fired1 = [Spawn ["ipinfo"; k1; "--json"]] /\
  snd fired2 = [Spawn ["ipinfo"; k2; "--json"]] /\
  ipInfoDailyCount (fst answered2) = ipInfoDailyLimit st + 1.
Proof.
  intros Hne Hc1 Hc2 Hp1 Hp2 Hcount. cbv zeta.
  assert (Hlt : (ipInfoDailyCount st >=? ipInfoDailyLimit st) = false).
  { destruct (Z.geb_spec (ipInfoDailyCount st) (ipInfoDailyLimit st));
      [lia | reflexivity]. }
  assert (Hfired1 :
            performIpInfoLookup k1 i1 st
            = (with_pendingIpInfoLookups ({[k1]} ∪ pendingIpInfoLookups st) st,
               [Spawn ["ipinfo"; k1; "--json"]])).
  { unfold performIpInfoLookup. rewrite Hc1, Hp1, Hlt. reflexivity. }
  rewrite Hfired1. simpl fst. simpl snd.
  assert (Hp2' : pendingTruthy ({[k1]} ∪ pendingIpInfoLookups st) k2 = false).
  { unfold pendingTruthy in *. apply orb_false_iff in Hp2 as [Ha Hb].
    rewrite Hb, orb_false_r. apply bool_decide_eq_false.
    apply bool_decide_eq_false in Ha.
    rewrite elem_of_union, elem_of_singleton.
    intros [Heq | Hin]; [congruence | contradiction]. }
  assert (Hfired2 :
            performIpInfoLookup k2 i2
              (with_pendingIpInfoLookups ({[k1]} ∪ pendingIpInfoLookups st) st)
            = (with_pendingIpInfoLookups
                 ({[k2]} ∪ ({[k1]} ∪ pendingIpInfoLookups st)) st,
               [Spawn ["ipinfo"; k2; "--json"]])).
  { unfold performIpInfoLookup. simpl. rewrite Hc2, Hp2', Hlt. reflexivity. }
  rewrite Hfired2. simpl. split; [reflexivity|]. split; [reflexivity | lia].
Qed.

(** ** The usage file *)

Lemma isDigit_plain (c : ascii) :
  isDigit c = true ->
  isWhiteSpace c = false /\ Ascii.eqb c pipe = false.
Proof.
  destruct c as [[] [] [] [] [] [] [] []]; vm_compute; intros H;
    (discriminate H || (split; reflexivity)).
Qed.

Lemma allChars_digits_uint (d : Decimal.uint) :
  allChars isDigit (DecimalString.NilEmpty.string_of_uint d) = true.
Proof. induction d; simpl; auto. Qed.

Lemma digits_no_pipe (s : string) :
  allChars isDigit s = true -> contains pipe s = false.
Proof.
  induction s as [|c s IH]; simpl; [reflexivity|].
  intros H. apply andb_true_iff in H as [Hc Hs].
  destruct (isDigit_plain c Hc) as [_ Hp]. rewrite Hp. simpl. auto.
Qed.

Lemma digits_trimEnd (s : string) :
  allChars isDigit s = true -> trimEnd s = s.
Proof.
  induction s as [|c s IH]; simpl; [reflexivity|].
  intros H. apply andb_true_iff in H as [Hc Hs].
  destruct (isDigit_plain c Hc) as [Hw _]. rewrite (IH Hs), Hw.
  destruct s; reflexivity.
Qed.

Lemma trimEnd_app_kept (a b : string) :
  trimEnd b = b -> b <> "" -> trimEnd (a +:+ b) = a +:+ b.
Proof.
  intros Hb Hne. induction a as [|c a IH]; [exact Hb|].
  change (String c a +:+ b) with (String c (a +:+ b)).
  rewrite trimEnd_cons, IH.
  destruct (a +:+ b) eqn:Hab; [|reflexivity].
  destruct a; simpl in Hab; [contradiction | discriminate].
Qed.

Lemma digitsPrefix_uint_acc (d : Decimal.uint) (acc : positive) :
  digitsPrefix (Some (Z.pos acc)) (DecimalString.NilEmpty.string_of_uint d)
  = Some (Z.pos (Pos.of_uint_acc d acc)).
Proof.
  revert acc. induction d; intros acc; simpl; [reflexivity|..];
    rewrite <- IHd; do 2 f_equal; lia.
Qed.

Lemma digitsPrefix_uint_zero (d : Decimal.uint) :
  digitsPrefix (Some 0) (DecimalString.NilEmpty.string_of_uint d)
  = Some (Z.of_N (Pos.of_uint d)).
Proof.
  induction d; simpl; [reflexivity | exact IHd |..];
    apply (digitsPrefix_uint_acc d).
Qed.

Lemma digitsPrefix_uint (d : Decimal.uint) :
  d <> Decimal.Nil ->
  digitsPrefix None (DecimalString.NilEmpty.string_of_uint d)
  = Some (Z.of_N (Pos.of_uint d)).
Proof.
  destruct d; intros Hne; simpl; [congruence | apply digitsPrefix_uint_zero |..];
    apply (digitsPrefix_uint_acc d).
Qed.

Lemma to_uint_not_nil (p : positive) : Pos.to_uint p <> Decimal.Nil.
Proof.
  intros H. pose proof (DecimalPos.Unsigned.of_to p) as Hof.
  rewrite H in Hof. discriminate.
Qed.

Lemma parseInt10_uint (d : Decimal.uint) :
  d <> Decimal.Nil ->
  parseInt10 (DecimalString.NilEmpty.string_of_uint d)
  = Some (Z.of_N (Pos.of_uint d)).
Proof.
  intros Hne. rewrite <- (digitsPrefix_uint d Hne).
  destruct d; [congruence|..]; reflexivity.
Qed.

Lemma string_of_uint_NilZero (d : Decimal.uint) :
  d <> Decimal.Nil ->
  DecimalString.NilZero.string_of_uint d
  = DecimalString.NilEmpty.string_of_uint d.
Proof. destruct d; [congruence|..]; reflexivity. Qed.

(** Reading a printed count gives the count back. *)
Lemma parseInt10_numberToString (n : Z) :
  parseInt10 (numberToString n) = Some n.
Proof.
  unfold numberToString. destruct n as [|p|p]; [reflexivity|..]; simpl.
  - rewrite string_of_uint_NilZero by apply to_uint_not_nil.
    rewrite parseInt10_uint by apply to_uint_not_nil.
    rewrite DecimalPos.Unsigned.of_to. reflexivity.
  - rewrite string_of_uint_NilZero by apply to_uint_not_nil.
    unfold parseInt10. simpl.
    rewrite digitsPrefix_uint by apply to_uint_not_nil.
    rewrite DecimalPos.Unsigned.of_to. reflexivity.
Qed.

Lemma numberToString_shape (n : Z) :
  exists sign digits,
    numberToString n = sign +:+ digits /\
    (sign = "" \/ sign = "-") /\
    digits <> "" /\ allChars isDigit digits = true.
Proof.
  unfold numberToString. destruct n as [|p|p]; simpl.
  - exists "", "0". repeat split; auto; discriminate.
  - exists "", (DecimalString.NilEmpty.string_of_uint (Pos.to_uint p)).
    rewrite string_of_uint_NilZero by apply to_uint_not_nil.
    repeat split; auto; [|apply allChars_digits_uint].
    pose proof (to_uint_not_nil p). destruct (Pos.to_uint p);
      [congruence|..]; discriminate.
  - exists "-", (DecimalString.NilEmpty.string_of_uint (Pos.to_uint p)).
    rewrite string_of_uint_NilZero by apply to_uint_not_nil.
    repeat split; auto; [|apply allChars_digits_uint].
    pose proof (to_uint_not_nil p). destruct (Pos.to_uint p);
      [congruence|..]; discriminate.
Qed.

Lemma contains_app (c : ascii) (a b : string) :
  contains c (a +:+ b) = contains c a || contains c b.
Proof.
  induction a as [|x a IH]; [reflexivity|].
  change (String x a +:+ b) with (String x (a +:+ b)). simpl.
  rewrite IH, orb_assoc. reflexivity.
Qed.

Lemma numberToString_plain (n : Z) :
  contains pipe (numberToString n) = false /\
  numberToString n <> "" /\
  trimEnd (numberToString n) = numberToString n.
Proof.
  destruct (numberToString_shape n) as (sign & digits & -> & Hsign & Hne & Hd).
  split; [|split].
  - rewrite contains_app, (digits_no_pipe _ Hd).
    destruct Hsign as [-> | ->]; reflexivity.
  - destruct Hsign as [-> | ->]; [exact Hne | discriminate].
  - apply trimEnd_app_kept; [apply digits_trimEnd; exact Hd | exact Hne].
Qed.

(** What [saveIpInfoUsage] writes is what [loadIpInfoUsage] reads back:
    on the day of the write the count that was saved, on any other day
    zero.  The count is a safe integer, the range in which the number is
    printed digit by digit and read back exactly; both paths are set;
    [todayStr] is a date: not empty, without white space in front and
    without a pipe. *)
Theorem saved_usage_loads_back (todayStr otherDay path path' : string)
  (st st0 : State) :
  isSafeInteger (ipInfoDailyCount st) ->
  ipInfoUsagePath st = Some path -> truthy path = true ->
  ipInfoUsagePath st0 = Some path' -> truthy path' = true ->
  truthy todayStr = true -> trimStart todayStr = todayStr ->
  contains pipe todayStr = false ->
  otherDay <> todayStr ->
  exists content,
    saveIpInfoUsage todayStr st = [FileReplace path content] /\
    ipInfoDailyCount
      (loadIpInfoUsage todayStr (FileContent (Some content)) st0)
    = ipInfoDailyCount st /\
    ipInfoDailyCount
      (loadIpInfoUsage otherDay (FileContent (Some content)) st0) = 0.
Proof.
  intros _ Hpath _ Hpath0 _ Hne Hstart Hpipe Hother.
  destruct (numberToString_plain (ipInfoDailyCount st)) as (Hnp & Hnn & Hnt).
  exists (join pipe [todayStr; numberToString (ipInfoDailyCount st)]).
  split. { unfold saveIpInfoUsage. rewrite Hpath. reflexivity. }
  assert (Htrim :
            trim (join pipe [todayStr; numberToString (ipInfoDailyCount st)])
            = join pipe [todayStr; numberToString (ipInfoDailyCount st)]).
  { unfold trim, join. rewrite trimStart_app, Hstart.
    destruct todayStr as [|c t]; [discriminate|].
    apply (trimEnd_app_kept (String c t)
             (String pipe (numberToString (ipInfoDailyCount st)))).
    - rewrite trimEnd_cons, Hnt.
      destruct (numberToString (ipInfoDailyCount st)); [congruence|reflexivity].
    - discriminate. }
  unfold loadIpInfoUsage. rewrite Hpath0.
  assert (Hget : forall v, ipInfoDailyCount (with_ipInfoDailyCount v st0) = v)
    by reflexivity.
  rewrite !Hget, !usageCount_well_formed by assumption.
  rewrite String.eqb_refl.
  destruct (String.eqb_spec todayStr otherDay) as [Heq|_]; [congruence|].
  split; [|reflexivity].
  unfold parseIntOrZero. rewrite parseInt10_numberToString. reflexivity.
Qed.

(** ** Order of the sorted table *)

Lemma StronglySorted_lookup {A} (R : A -> A -> Prop) (l : list A)
  (i j : nat) (a b : A) :
  StronglySorted R l ->
  l !! i = Some a -> l !! j = Some b -> (i < j)%nat -> R a b.
Proof.
  intros Hs. revert i j. induction Hs as [|x l Hs IH Hx]; intros i j Hi Hj Hlt.
  - discriminate.
  - destruct j as [|j]; [lia|]. simpl in Hj. destruct i as [|i]; simpl in Hi.
    + injection Hi as ->. rewrite List.Forall_forall in Hx. apply Hx.
      apply list_elem_of_In. eapply list_elem_of_lookup_2. exact Hj.
    + apply (IH i j); auto. lia.
Qed.

(** In a numeric column the sorted records run from the smallest number
    to the largest when the direction is ["asc"], and from the largest to
    the smallest for every other direction. *)
Theorem sortRecords_numeric_order (column : Column) (direction : string)
  (records : list TrafficRecord) (i j : nat) (ri rj : TrafficRecord) :
  numericColumn column ->
  sortRecords column direction records !! i = Some ri ->
  sortRecords column direction records !! j = Some rj ->
  (i < j)%nat ->
  if String.eqb direction "asc"
  then columnNumber column ri <= columnNumber column rj
  else columnNumber column rj <= columnNumber column ri.
Proof.
  intros Hnum Hi Hj Hlt.
  pose proof (StronglySorted_lookup _ _ i j ri rj
                (sortRecords_sorted column direction records) Hi Hj Hlt)
    as Hle.
  simpl in Hle. revert Hle. unfold compareRecords, columnNumber. cbv zeta.
  destruct Hnum as [-> | [-> | ->]]; simpl;
    destruct (String.eqb direction "asc"); lia.
Qed.

(** In a text column the sorted records that have a value run in
    case-insensitive order, reversed for every direction but ["asc"]. *)
Theorem sortRecords_text_order (column : Column) (direction : string)
  (records : list TrafficRecord) (i j : nat) (ri rj : TrafficRecord)
  (si sj : string) :
  sortRecords column direction records !! i = Some ri ->
  sortRecords column direction records !! j = Some rj ->
  (i < j)%nat ->
  getColumn column ri = VString si -> getColumn column rj = VString sj ->
  si <> "" -> sj <> "" ->
  if String.eqb direction "asc"
  then String.ltb (toLowerCase sj) (toLowerCase si) = false
  else String.ltb (toLowerCase si) (toLowerCase sj) = false.
Proof.
  intros Hi Hj Hlt Hsi Hsj Hni Hnj.
  pose proof (StronglySorted_lookup _ _ i j ri rj
                (sortRecords_sorted column direction records) Hi Hj Hlt)
    as Hle.
  simpl in Hle. revert Hle. unfold compareRecords. cbv zeta.
  rewrite Hsi, Hsj. simpl.
  apply truthy_iff in Hni, Hnj. rewrite Hni, Hnj. simpl.
  destruct column; simpl in Hsi; try discriminate;
    rewrite string_ltb_compare; unfold String.ltb;
    rewrite (String.compare_antisym (toLowerCase sj) (toLowerCase si));
    destruct (String.eqb direction "asc");
    destruct (String.compare (toLowerCase si) (toLowerCase sj));
    simpl; intros; (reflexivity || lia).
Qed.

Lemma arraySort_sorted_id {A} (cmp : A -> A -> Z) (l : list A) :
  StronglySorted (fun a b => cmp a b <= 0) l -> arraySort cmp l = l.
Proof.
  intros Hs. induction Hs as [|x l Hs IH Hx]; [reflexivity|].
  unfold arraySort in *. simpl. rewrite IH.
  destruct l as [|y l]; [reflexivity|]. simpl.
  inversion Hx as [|? ? Hxy _]; subst.
  destruct (Z.leb_spec (cmp x y) 0); [reflexivity | lia].
Qed.

(** Sorting a table that is already sorted by the same column and
    direction leaves every row where it is. *)
Theorem sortRecords_idempotent (column : Column) (direction : string)
  (records : list TrafficRecord) :
  sortRecords column direction (sortRecords column direction records)
  = sortRecords column direction records.
Proof.
  unfold sortRecords at 1. apply arraySort_sorted_id.
  apply sortRecords_sorted.
Qed.

(** ** Applying a result again *)

Lemma orElse_orElse (a b : string) : orElse (orElse a b) b = orElse a b.
Proof. destruct a, b; reflexivity. Qed.

Lemma applyToRecord_idempotent (lookupKey : string) (result : IpInfo)
  (r : TrafficRecord) :
  applyToRecord lookupKey result (applyToRecord lookupKey result r)
  = applyToRecord lookupKey result r.
Proof.
  destruct (string_dec (address r) lookupKey) as [Ha|Ha];
    [|destruct (string_dec (url r) lookupKey) as [Hu|Hu]].
  - rewrite (applyToRecord_match _ _ r) by (left; exact Ha).
    set (r' := mkRecord _ _ _ _ _ _ _ _).
    destruct (string_dec (address r') lookupKey) as [Ha'|Ha'];
      [|destruct (string_dec (url r') lookupKey) as [Hu'|Hu']].
    + rewrite applyToRecord_match by (left; exact Ha').
      unfold r'. simpl. rewrite !orElse_orElse. reflexivity.
    + rewrite applyToRecord_match by (right; exact Hu').
      unfold r'. simpl. rewrite !orElse_orElse. reflexivity.
    + apply applyToRecord_other; assumption.
  - rewrite (applyToRecord_match _ _ r) by (right; exact Hu).
    set (r' := mkRecord _ _ _ _ _ _ _ _).
    destruct (string_dec (address r') lookupKey) as [Ha'|Ha'];
      [|destruct (string_dec (url r') lookupKey) as [Hu'|Hu']].
    + rewrite applyToRecord_match by (left; exact Ha').
      unfold r'. simpl. rewrite !orElse_orElse. reflexivity.
    + rewrite applyToRecord_match by (right; exact Hu').
      unfold r'. simpl. rewrite !orElse_orElse. reflexivity.
    + apply applyToRecord_other; assumption.
  - rewrite (applyToRecord_other _ _ r) by assumption.
    apply applyToRecord_other; assumption.
Qed.

(** Applying the same ipinfo result a second time changes nothing: the
    first application has filled what it could. *)
Theorem applyIpInfoResult_idempotent (lookupKey : string) (result : IpInfo)
  (st : State) :
  applyIpInfoResult lookupKey result (applyIpInfoResult lookupKey result st)
  = applyIpInfoResult lookupKey result st.
Proof.
  unfold applyIpInfoResult. destruct st; simpl. unfold with_trafficRecords.
  simpl. f_equal. rewrite map_map. apply map_ext.
  intros r. apply applyToRecord_idempotent.
Qed.

(** ** A cached key within a pass *)














(** ** Rows on display *)

Lemma toLowerCase_app (a b : string) :
  toLowerCase (a +:+ b) = toLowerCase a +:+ toLowerCase b.
Proof.
  induction a as [|c a IH]; [reflexivity|].
  change (String c a +:+ b) with (String c (a +:+ b)). simpl.
  rewrite IH. reflexivity.
Qed.

Lemma prefix_app (needle rest : string) :
  String.prefix needle (needle +:+ rest) = true.
Proof.
  induction needle as [|c needle IH]; [destruct rest; reflexivity|].
  change (String c needle +:+ rest) with (String c (needle +:+ rest)).
  simpl. destruct (ascii_dec c c); [exact IH | congruence].
Qed.

Lemma includes_prefix (needle s : string) :
  String.prefix needle s = true -> includes needle s = true.
Proof. intros H. destruct s; unfold includes; rewrite H; reflexivity. Qed.

Lemma includes_app (needle a b : string) :
  includes needle (a +:+ needle +:+ b) = true.
Proof.
  induction a as [|c a IH].
  - change ("" +:+ needle +:+ b) with (needle +:+ b).
    apply includes_prefix, prefix_app.
  - change (String c a +:+ needle +:+ b) with (String c (a +:+ needle +:+ b)).
    simpl. rewrite IH. apply orb_true_r.
Qed.

(** A url that holds [.in-addr.arpa] or [.ip6.arpa], in whatever mix of
    upper and lower case, is taken for a reverse-DNS query. *)
Theorem isReverseDnsQuery_any_case (before suffix after : string) :
  toLowerCase suffix = ".in-addr.arpa" \/ toLowerCase suffix = ".ip6.arpa" ->
  isReverseDnsQuery (before +:+ suffix +:+ after) = true.
Proof.
  intros Hsuffix. unfold isReverseDnsQuery.
  assert (Ht : truthy (before +:+ suffix +:+ after) = true).
  { destruct before; [|reflexivity]. destruct suffix; [|reflexivity].
    destruct Hsuffix; discriminate. }
  rewrite Ht. cbv zeta. simpl negb. cbv iota.
  rewrite !toLowerCase_app.
  destruct Hsuffix as [-> | ->]; rewrite includes_app;
    [reflexivity | apply orb_true_r].
Qed.

(** Whatever the settings, the rows on display are records of the
    table, each at most once per occurrence, in sorted order; a record
    without url is always among them, and with the box ticked every
    record is. *)
Theorem renderedRows_spec (column : Column) (direction : string)
  (showReverseDnsQueries : bool) (records : list TrafficRecord) :
  sublist (renderedRows column direction showReverseDnsQueries records)
    (sortRecords column direction records) /\
  (forall r, In r records -> url r = "" ->
     In r (renderedRows column direction showReverseDnsQueries records)) /\
  (forall r, In r (renderedRows column direction showReverseDnsQueries records)
     -> In r records /\
        (showReverseDnsQueries = false -> isReverseDnsQuery (url r) = false))
  /\
  renderedRows column direction true records
  = sortRecords column direction records.
Proof.
  unfold renderedRows. split; [|split; [|split]].
  - induction (sortRecords column direction records) as [|r l IH]; simpl;
      [constructor|].
    destruct (showReverseDnsQueries || negb (isReverseDnsQuery (url r)));
      [apply sublist_skip | apply sublist_cons]; exact IH.
  - intros r Hin Hurl. apply List.filter_In. split.
    + eapply Permutation_in; [symmetry; apply arraySort_Permutation | exact Hin].
    + rewrite Hurl. apply orb_true_r.
  - intros r Hin. apply List.filter_In in Hin as [Hin Hshow]. split.
    + eapply Permutation_in; [apply arraySort_Permutation | exact Hin].
    + intros ->. simpl in Hshow. apply negb_true_iff in Hshow. exact Hshow.
  - induction (sortRecords column direction records) as [|r l IH]; simpl;
      [reflexivity | f_equal; exact IH].
Qed.

(** ** The countdown *)

Lemma stopAutoRefresh_oneTimer (p : Page) :
  oneTimer p -> oneTimer (stopAutoRefresh p) /\
                countdownTimerId (refresh (stopAutoRefresh p)) = None.
Proof.
  unfold oneTimer, stopAutoRefresh. intros H.
  destruct (countdownTimerId (refresh p)) as [id|] eqn:Hid; simpl.
  - rewrite H. split; [apply difference_diag_L | reflexivity].
  - rewrite Hid. auto.
Qed.

Lemma startAutoRefresh_oneTimer (id : positive) (p : Page) :
  oneTimer p -> oneTimer (startAutoRefresh id p).
Proof.
  intros H. destruct (stopAutoRefresh_oneTimer p H) as [H1 Hnone].
  unfold oneTimer in *. unfold startAutoRefresh. simpl.
  rewrite H1, Hnone. apply union_empty_r_L.
Qed.

Lemma oneTimer_engine (p : Page) (st : State) :
  oneTimer p -> oneTimer (mkPage st (refresh p) (timers p)).
Proof. auto. Qed.

(** At every moment the browser runs at most one countdown timer, the
    one [state.refresh] names: starting, resetting, changing the filter
    or coming back to the page never leaves an earlier timer running. *)
Theorem page_keeps_one_timer (p p' : Page) :
  rtc pageStep p p' -> oneTimer p -> oneTimer p'.
Proof.
  intros Hrun. induction Hrun as [p | p p1 p2 Hstep _ IH]; [auto|].
  intros H. apply IH. clear IH. destruct Hstep.
  - apply startAutoRefresh_oneTimer. exact H.
  - apply stopAutoRefresh_oneTimer. exact H.
  - apply startAutoRefresh_oneTimer, stopAutoRefresh_oneTimer. exact H.
  - unfold countdownTick.
    destruct (remainingSeconds (refresh p) - 1 <=? 0); [|exact H].
    destruct (fetchAndRenderData (engine p)). exact H.
  - unfold handleTimeFilterChange.
    destruct (fetchAndRenderData _) as [st effects]. simpl.
    apply (oneTimer_engine (resetAutoRefresh id _) st).
    apply startAutoRefresh_oneTimer, stopAutoRefresh_oneTimer. exact H.
  - unfold visibilityChanged. destruct hidden; simpl.
    + apply stopAutoRefresh_oneTimer. exact H.
    + destruct (fetchAndRenderData (engine p)) as [st effects]. simpl.
      apply startAutoRefresh_oneTimer. exact H.
Qed.

Lemma ticks_counting (k : nat) (p : Page) :
  (Z.of_nat k < remainingSeconds (refresh p)) ->
  ticks k p
  = (mkPage (engine p)
       (mkRefresh (intervalSeconds (refresh p)) (countdownTimerId (refresh p))
          (remainingSeconds (refresh p) - Z.of_nat k))
       (timers p), []).
Proof.
  induction k as [|k IH]; intros Hk.
  - simpl. rewrite Z.sub_0_r. destruct p as [e [i t r] ts]. reflexivity.
  - simpl ticks. rewrite IH by lia. unfold countdownTick. simpl.
    destruct (Z.leb_spec (remainingSeconds (refresh p) - Z.of_nat k - 1) 0);
      [lia|].
    do 3 f_equal. lia.
Qed.

(** A countdown that stands at [n] seconds lets [n - 1] ticks pass
    without doing anything but counting; the tick after them calls
    [fetchAndRenderData] and puts the countdown back to the interval. *)
Theorem countdown_period (n : nat) (p : Page) :
  remainingSeconds (refresh p) = Z.of_nat (S n) ->
  ticks n p
  = (mkPage (engine p)
       (mkRefresh (intervalSeconds (refresh p)) (countdownTimerId (refresh p))
          1)
       (timers p), []) /\
  ticks (S n) p
  = (mkPage (fst (fetchAndRenderData (engine p)))
       (mkRefresh (intervalSeconds (refresh p)) (countdownTimerId (refresh p))
          (intervalSeconds (refresh p)))
       (timers p),
     snd (fetchAndRenderData (engine p))).
Proof.
  intros Hrem.
  assert (Hn : ticks n p
               = (mkPage (engine p)
                    (mkRefresh (intervalSeconds (refresh p))
                       (countdownTimerId (refresh p)) 1)
                    (timers p), [])).
  { rewrite ticks_counting by lia. do 3 f_equal. lia. }
  split; [exact Hn|].
  change (ticks (S n) p)
    with (let (p1, e1) := ticks n p in
          let (p2, e2) := countdownTick p1 in (p2, e1 ++ e2)).
  rewrite Hn. unfold countdownTick. simpl.
  destruct (fetchAndRenderData (engine p)); reflexivity.
Qed.

(** A click on a time filter stores the new range and restarts the
    countdown at the full interval.  The collector is started for the
    new range only if no fetch is in progress; otherwise the click starts
    nothing. *)
Theorem time_filter_change (newRange : string) (id : positive) (p : Page) :
  let result := handleTimeFilterChange newRange id p in
  timeRange (engine (fst result)) = newRange /\
  remainingSeconds (refresh (fst result)) = intervalSeconds (refresh p) /\
  countdownTimerId (refresh (fst result)) = Some id /\
  snd result
  = if isFetching (engine p) then []
    else [Spawn ["/bin/bash"; scriptPath (engine p); newRange]].
Proof.
  destruct p as [st [interval timer remaining] running].
  destruct st as [range records dnsCache dnsPending script fetching
                  infoCache infoPending limit count usagePath text hidden
                  loading].
  unfold handleTimeFilterChange, resetAutoRefresh, startAutoRefresh,
    stopAutoRefresh, fetchAndRenderData.
  destruct timer, fetching, records; simpl; repeat split; reflexivity.
Qed.

(** ** A fetch from start to end *)

Section FetchCycle.

Variable currentYear : string.
Variable dateParse : string -> option Z.

(** A request made while a fetch is in progress is dropped; a request
    made otherwise raises the guard and starts the collector once; and
    however the collector ends, with output, with output that makes
    [processLogs] throw, or with an error, the guard is lowered again and
    the spinner hidden. *)
Theorem fetch_single_flight (st : State) :
  (isFetching st = true -> fetchAndRenderData st = (st, [])) /\
  (isFetching st = false ->
   isFetching (fst (fetchAndRenderData st)) = true /\
   snd (fetchAndRenderData st)
   = [Spawn ["/bin/bash"; scriptPath st; timeRange st]]) /\
  (forall outcome,
     isFetching (fst (fetchSettled currentYear dateParse outcome st)) = false /\
     loadingHidden (fst (fetchSettled currentYear dateParse outcome st))
     = true).
Proof.
  split; [|split].
  - intros H. unfold fetchAndRenderData. rewrite H. reflexivity.
  - intros H. unfold fetchAndRenderData. rewrite H.
    destruct (trafficRecords (with_isFetching true st)); split; reflexivity.
  - intros [output|error]; [|split; reflexivity].
    unfold fetchSettled, fetchSucceeded.
    destruct (processLogs (parseShellOutput currentYear dateParse output))
      as [records|]; [|split; reflexivity].
    destruct (enrichWithReverseDns (with_trafficRecords records st))
      as [st2 e2].
    destruct (enrichWithIpInfo st2) as [st3 e3]. split; reflexivity.
Qed.

(** The caches outlive the records.  After a successful fetch has
    replaced the table, a new record without url whose address is in the
    reverse DNS cache with a name carries that name, without any lookup
    for the address. *)
Theorem cached_names_survive_refresh (output : string) (st : State)
  (records : list TrafficRecord) (i : nat) (r : TrafficRecord)
  (name : string) :
  processLogs (parseShellOutput currentYear dateParse output)
  = Normal records ->
  records !! i = Some r ->
  url r = "" -> address r <> "" ->
  reverseDnsCache st !! address r = Some (Some name) -> name <> "" ->
  (exists r',
     trafficRecords (fst (fetchSucceeded currentYear dateParse output st)) !! i
     = Some r' /\ url r' = name /\ address r' = address r) /\
  (Spawn ["host"; address r]
   ∉ snd (fetchSucceeded currentYear dateParse output st)).
Proof.
  intros Hrun Hi Hurl Haddr Hcache Hname. split.
  - unfold fetchSucceeded. rewrite Hrun.
    destruct (enrichWithReverseDns_spec (with_trafficRecords records st))
      as (Hrec2 & _ & _).
    destruct (enrichWithReverseDns (with_trafficRecords records st))
      as [st2 e2]. simpl in Hrec2.
    pose proof (fillsOnly_ipInfoLoop (seq 0 (length (trafficRecords st2)))
                  (mkLoop st2 [] false 0)) as Hfill.
    unfold enrichWithIpInfo. simpl in *.
    assert (H2 : trafficRecords st2 !! i = Some (set_url name r)).
    { rewrite Hrec2, list_lookup_fmap, Hi. simpl. f_equal.
      unfold reverseDnsFill. rewrite Hurl, Hcache.
      apply truthy_iff in Haddr, Hname. rewrite Haddr, Hname. reflexivity. }
    destruct (Forall2_lookup_l _ _ _ i _ Hfill H2) as (r' & Hr' & Hu & Ha & _).
    exists r'. split; [exact Hr'|]. split; [apply Hu | apply Ha]; simpl; auto.
  - apply (cached_address_not_looked_up currentYear dateParse). eauto.
Qed.

End FetchCycle.

(** ** A fetch that throws *)

Section FetchThrows.

Variable currentYear : string.
Variable dateParse : string -> option Z.

(** When one line of the collector's output gives an event keyed
    [hasOwnProperty], the whole fetch ends in the [catch] callback: the
    error banner is shown, the table keeps the records it had, and no
    enrichment is started. *)
Theorem fetch_with_shadowing_line (output : string) (st : State) :
  (exists e, In e (parseShellOutput currentYear dateParse output) /\
             eventKey e = "hasOwnProperty") ->
  fetchSettled currentYear dateParse (SpawnOutput output) st
  = (fetchFailed hasOwnPropertyTypeError st, []) /\
  trafficRecords
    (fst (fetchSettled currentYear dateParse (SpawnOutput output) st))
  = trafficRecords st /\
  errorHidden
    (fst (fetchSettled currentYear dateParse (SpawnOutput output) st))
  = false.
Proof.
  intros Hex. unfold fetchSettled, fetchSucceeded.
  rewrite (processLogs_shadowing_event _ Hex). repeat split.
Qed.

End FetchThrows.

(** ** The stagger of new lookups *)

Lemma ipInfoBody_staggered (i : nat) (l : IpInfoLoop) :
  staggered (loop_effects l) (delay l) ->
  staggered (loop_effects (snd (ipInfoBody i l))) (delay (snd (ipInfoBody i l))).
Proof.
  intros [Hd Hall]. unfold ipInfoBody.
  destruct (trafficRecords (loop_state l) !! i) as [r|]; [|split; assumption].
  destruct (truthy (orElse (address r) (url r)) && negb (truthy (category r)));
    [|split; assumption].
  destruct (ipInfoCache (loop_state l) !! orElse (address r) (url r))
    as [[cached|]|]; simpl; try (split; assumption).
  destruct (ipInfoDailyCount (loop_state l) >=? ipInfoDailyLimit (loop_state l));
    simpl; [split; assumption|].
  split.
  - rewrite length_app. simpl. lia.
  - intros j e Hj.
    destruct (decide (j < length (loop_effects l))%nat) as [Hlt|Hge].
    + rewrite lookup_app_l in Hj by exact Hlt. apply Hall. exact Hj.
    + rewrite lookup_app_r in Hj by lia.
      destruct (j - length (loop_effects l))%nat as [|n] eqn:Hn;
        [|destruct n; discriminate].
      injection Hj as <-. exists (orElse (address r) (url r)), i.
      f_equal. rewrite Hd. f_equal. lia.
Qed.

Lemma ipInfoLoop_staggered (indices : list nat) (l : IpInfoLoop) :
  staggered (loop_effects l) (delay l) ->
  staggered (loop_effects (ipInfoLoop indices l))
    (delay (ipInfoLoop indices l)).
Proof.
  revert l. induction indices as [|i indices IH]; intros l H; [exact H|].
  simpl. pose proof (ipInfoBody_staggered i l H) as Hbody.
  destruct (ipInfoBody i l) as [[] l']; simpl in Hbody;
    [apply IH; exact Hbody | exact Hbody].
Qed.

(** The new lookups of one pass are spread out: the first timer fires
    at once, every further one 100 milliseconds after the one before it.
    The one other effect of a pass is the re-render at its end. *)
Theorem enrichWithIpInfo_staggered (st : State) (j : nat) (e : Effect) :
  snd (enrichWithIpInfo st) !! j = Some e ->
  e = RenderTable \/
  exists lookupKey recordIndex,
    e = SetTimeout lookupKey recordIndex (100 * Z.of_nat j).
Proof.
  unfold enrichWithIpInfo. simpl.
  destruct (ipInfoLoop_staggered (seq 0 (length (trafficRecords st)))
              (mkLoop st [] false 0)) as [_ Hall].
  { split; [reflexivity | intros j' e' H'; discriminate]. }
  intros Hj.
  destruct (decide (j < length (loop_effects
              (ipInfoLoop (seq 0 (length (trafficRecords st)))
                 (mkLoop st [] false 0))))%nat) as [Hlt|Hge].
  - rewrite lookup_app_l in Hj by exact Hlt. right. apply Hall. exact Hj.
  - rewrite lookup_app_r in Hj by lia. left.
    destruct (hadCachedResults _); [|destruct (j - _)%nat; discriminate].
    destruct (j - _)%nat as [|n]; [|destruct n; discriminate].
    injection Hj as <-. reflexivity.
Qed.

(** ** One record for each key *)

(** On an input in which no event is keyed [__proto__] or
    [hasOwnProperty], [processLogs] returns one record for each distinct
    non-empty key of the input, and the frequency of a record is the
    number of input events with its key. *)
Theorem processLogs_one_record_per_key (rawLogs : list LogEvent) :
  Forall (fun e => plainKey (eventKey e)) rawLogs ->
  exists records,
    processLogs rawLogs = Normal records /\
    NoDup (map keyOf records) /\
    (forall k, In k (map keyOf records) <->
       k <> "" /\ exists e, In e rawLogs /\ eventKey e = k) /\
    (forall r, In r records ->
       frequency r
       = Z.of_nat (length (eventsWithKey (keyOf r) rawLogs))).
Proof. apply processLogs_plain_keys. Qed.

(** ** Instances *)

(** Scenario D of the specification: the address is in the reverse DNS
    cache, and one pass gives the record its url without a lookup. *)
Lemma enrichWithReverseDns_applies_cached_instance :
  trafficRecords
    (fst (enrichWithReverseDns
            (mkState "24 hours ago"
               [mkRecord "" "160.79.104.10" 5 5 1 "" "" HTTPS]
               {["160.79.104.10" := Some "cdn.example.com"]} ∅
               "fetch-logs.sh" false ∅ ∅ 1000 0 None "" true true))) !! 0%nat
  = Some (mkRecord "cdn.example.com" "160.79.104.10" 5 5 1 "" "" HTTPS).
Proof.
  refine (proj1 (enrichWithReverseDns_applies_cached
                   (mkState "24 hours ago"
                      [mkRecord "" "160.79.104.10" 5 5 1 "" "" HTTPS]
                      {["160.79.104.10" := Some "cdn.example.com"]} ∅
                      "fetch-logs.sh" false ∅ ∅ 1000 0 None "" true true)
                   "160.79.104.10" "cdn.example.com" _ _ _)
            0%nat (mkRecord "" "160.79.104.10" 5 5 1 "" "" HTTPS) _ _);
    reflexivity.
Defined.


Lemma fetch_with_shadowing_line_witness :
  trafficRecords
    (fst (fetchSettled "2026" (fun _ => Some 1771084450000)
            (SpawnOutput "DNS|Feb 14 15:54:10|hasOwnProperty|A") sampleState))
  = trafficRecords sampleState.
Proof.
  refine (proj1 (proj2 (fetch_with_shadowing_line "2026"
                          (fun _ => Some 1771084450000)
                          "DNS|Feb 14 15:54:10|hasOwnProperty|A"
                          sampleState _))).
  exists (mkLog DNS 1771084450000 "hasOwnProperty" "").
  split; [vm_compute; left; reflexivity | reflexivity].
Defined.

Lemma processLogs_first_last_witness :
  exists records,
    processLogs [mkLog DNS 61 "github.com" ""; mkLog DNS 10 "github.com" ""]
    = Normal records.
Proof.
  destruct (processLogs_first_last
              [mkLog DNS 61 "github.com" ""; mkLog DNS 10 "github.com" ""])
    as (records & Hrun & _).
  - repeat constructor; discriminate.
  - exists records. exact Hrun.
Defined.

Lemma processLogs_type_of_first_witness :
  exists records,
    processLogs [mkLog HTTPS 61 "" "192.0.2.7"; mkLog PING 10 "" "192.0.2.7"]
    = Normal records.
Proof.
  destruct (processLogs_type_of_first
              [mkLog HTTPS 61 "" "192.0.2.7"; mkLog PING 10 "" "192.0.2.7"])
    as (records & Hrun & _).
  - repeat constructor; discriminate.
  - exists records. exact Hrun.
Defined.

Lemma processLogs_order_insensitive_witness :
  exists records records',
    processLogs [mkLog DNS 61 "github.com" ""; mkLog DNS 10 "b.example" ""]
    = Normal records /\
    processLogs [mkLog DNS 10 "b.example" ""; mkLog DNS 61 "github.com" ""]
    = Normal records'.
Proof.
  destruct (processLogs_order_insensitive
              [mkLog DNS 61 "github.com" ""; mkLog DNS 10 "b.example" ""]
              [mkLog DNS 10 "b.example" ""; mkLog DNS 61 "github.com" ""])
    as (records & records' & Hrun & Hrun' & _).
  - apply perm_swap.
  - repeat constructor; discriminate.
  - exists records, records'. split; assumption.
Defined.

Lemma settled_address_never_looked_up_again_witness :
  Spawn ["host"; "192.0.2.7"]
  ∉ snd (enrichWithReverseDns
           (fst (enrichWithIpInfo
                   (fst (reverseDnsSettled "192.0.2.7" HostFailed
                           sampleState))))).
Proof.
  refine (proj1 (settled_address_never_looked_up_again "2026"
                   (fun _ => None) "192.0.2.7" HostFailed sampleState _ _)).
  apply rtc_once. apply session_enrichment. apply enrich_ipInfo.
Defined.

Lemma settled_key_never_looked_up_again_witness :
  snd (performIpInfoLookup "b.example" 1
         (fst (ipInfoSettled "2024-01-02" "b.example" IpInfoBadJson
                 sampleState))) = [].
Proof.
  refine (proj2 (settled_key_never_looked_up_again "2026" (fun _ => None)
                   "2024-01-02" "b.example" IpInfoBadJson sampleState _ _)
            1%nat).
  apply rtc_refl.
Defined.

Lemma enrichment_count_never_decreases_witness :
  ipInfoDailyCount sampleState
  <= ipInfoDailyCount
       (fst (ipInfoSettled "2024-01-02" "b.example"
               (IpInfoJson (mkIpInfo "192.0.2.7" "" "Example Org" "UTC"))
               sampleState)).
Proof.
  refine (proj2 (enrichment_count_never_decreases sampleState _ _)).
  apply rtc_once. apply enrich_ipInfoSettled.
Defined.

Lemma quota_overshoot_witness :
  ipInfoDailyCount
    (fst (ipInfoSettled "2024-01-02" "b.example"
            (IpInfoJson (mkIpInfo "192.0.2.7" "" "Example Org" "UTC"))
            (fst (ipInfoSettled "2024-01-02" "160.79.104.10"
                    (IpInfoJson (mkIpInfo "160.79.104.10" "" "Other Org" "UTC"))
                    (fst (performIpInfoLookup "b.example" 1
                            (fst (performIpInfoLookup "160.79.104.10" 0
                                    sampleState))))))))
  = 1001.
Proof.
  refine (proj2 (proj2 (quota_overshoot "2024-01-02" "160.79.104.10"
                          "b.example" 0 1
                          (mkIpInfo "160.79.104.10" "" "Other Org" "UTC")
                          (mkIpInfo "192.0.2.7" "" "Example Org" "UTC")
                          sampleState _ _ _ _ _ _)));
    (discriminate || reflexivity).
Defined.

Lemma saved_usage_loads_back_witness :
  exists content,
    saveIpInfoUsage "2024-01-02" sampleState
    = [FileReplace "ipinfo_usage.txt" content] /\
    ipInfoDailyCount
      (loadIpInfoUsage "2024-01-02" (FileContent (Some content)) sampleState)
    = 999.
Proof.
  destruct (saved_usage_loads_back "2024-01-02" "2024-01-03"
              "ipinfo_usage.txt" "ipinfo_usage.txt" sampleState sampleState)
    as (content & Hsave & Hload & _);
    try reflexivity; [unfold isSafeInteger; simpl; lia | discriminate |].
  exists content. split; [exact Hsave | exact Hload].
Defined.

Lemma sortRecords_numeric_order_witness :
  columnNumber ColFrequency (mkRecord "" "160.79.104.10" 5 5 1 "" "" HTTPS)
  <= columnNumber ColFrequency (mkRecord "b.example" "" 5 9 3 "" "" DNS).
Proof.
  apply (sortRecords_numeric_order ColFrequency "asc"
           [mkRecord "b.example" "" 5 9 3 "" "" DNS;
            mkRecord "" "160.79.104.10" 5 5 1 "" "" HTTPS]
           0 1
           (mkRecord "" "160.79.104.10" 5 5 1 "" "" HTTPS)
           (mkRecord "b.example" "" 5 9 3 "" "" DNS)).
  - right. right. reflexivity.
  - reflexivity.
  - reflexivity.
  - lia.
Defined.

Lemma sortRecords_text_order_witness :
  String.ltb (toLowerCase "b.example") (toLowerCase "A.example") = false.
Proof.
  apply (sortRecords_text_order ColUrl "asc"
           [mkRecord "b.example" "" 5 9 3 "" "" DNS;
            mkRecord "A.example" "" 1 2 7 "" "" DNS]
           0 1
           (mkRecord "A.example" "" 1 2 7 "" "" DNS)
           (mkRecord "b.example" "" 5 9 3 "" "" DNS)
           "A.example" "b.example");
    (reflexivity || discriminate || lia).
Defined.

Lemma isReverseDnsQuery_any_case_witness :
  isReverseDnsQuery "10.104.79.160.IN-ADDR.ARPA" = true.
Proof.
  apply (isReverseDnsQuery_any_case "10.104.79.160" ".IN-ADDR.ARPA" "").
  left. reflexivity.
Defined.

Lemma page_keeps_one_timer_witness :
  oneTimer (resetAutoRefresh 8 (startAutoRefresh 7 samplePage)).
Proof.
  apply (page_keeps_one_timer samplePage).
  - eapply rtc_l; [apply (page_start 7)|].
    apply rtc_once. apply (page_reset 8).
  - reflexivity.
Defined.

Lemma countdown_period_witness :
  snd (ticks 15 samplePage)
  = [Spawn ["/bin/bash"; "fetch-logs.sh"; "24 hours ago"]].
Proof.
  pose proof (proj2 (countdown_period 14 samplePage eq_refl)) as H.
  rewrite H. reflexivity.
Defined.

Lemma cached_names_survive_refresh_witness :
  exists r',
    trafficRecords
      (fst (fetchSucceeded "2026" (fun _ => Some 1771084550000)
              "HTTPS|Feb 14 15:55:50|160.79.104.10" sampleState)) !! 0%nat
    = Some r' /\ url r' = "cdn.example.com".
Proof.
  destruct (cached_names_survive_refresh "2026" (fun _ => Some 1771084550000)
              "HTTPS|Feb 14 15:55:50|160.79.104.10" sampleState
              [mkRecord "" "160.79.104.10" 1771084550000 1771084550000 1
                 "" "" HTTPS]
              0 (mkRecord "" "160.79.104.10" 1771084550000 1771084550000 1
                   "" "" HTTPS)
              "cdn.example.com")
    as [(r' & Hr' & Hurl & _) _];
    try reflexivity; try discriminate.
  exists r'. split; assumption.
Defined.

Lemma enrichWithIpInfo_staggered_witness :
  SetTimeout "b.example" 1 100 = RenderTable \/
  exists lookupKey recordIndex,
    SetTimeout "b.example" 1 100
    = SetTimeout lookupKey recordIndex (100 * Z.of_nat 1).
Proof.
  apply (enrichWithIpInfo_staggered sampleState 1). reflexivity.
Defined.

Lemma quota_reached_no_lookup_witness :
  Spawn ["ipinfo"; "b.example"; "--json"]
  ∉ snd (performIpInfoLookup "b.example" 1
           (with_ipInfoDailyCount 1000 sampleState)).
Proof.
  refine (proj2 (quota_reached_no_lookup
                   (with_ipInfoDailyCount 1000 sampleState) _)
            "b.example" 1%nat ["ipinfo"; "b.example"; "--json"]).
  simpl. lia.
Defined.

Lemma lookups_avoid_prototype_names_witness :
  Spawn ["host"; "constructor"]
  ∉ snd (performReverseDns "constructor" 0 sampleState).
Proof.
  refine (proj1 (lookups_avoid_prototype_names "constructor" 0 sampleState _)
            ["host"; "constructor"]).
  unfold objectPrototypeNames. constructor.
Defined.

Lemma processLogs_one_record_per_key_witness :
  exists records,
    processLogs [mkLog DNS 10 "github.com" ""; mkLog HTTPS 61 "" "192.0.2.7";
                 mkLog DNS 70 "github.com" ""]
    = Normal records /\ NoDup (map keyOf records).
Proof.
  destruct (processLogs_one_record_per_key
              [mkLog DNS 10 "github.com" ""; mkLog HTTPS 61 "" "192.0.2.7";
               mkLog DNS 70 "github.com" ""])
    as (records & Hrun & Hnd & _).
  - repeat constructor; discriminate.
  - exists records. split; assumption.
Defined.
